(** * Troubleshooting examples of the prompting workshop, embedded in Rocq

    The repository ships its only executable logic as stand-alone JavaScript
    and TypeScript samples:

    - [examples/troubleshooting/fix-suggestions.js]: [loginUserSecure],
      [ApiClient], [DatabaseService];
    - [examples/troubleshooting/edge-case-scenarios.js]:
      [calculateAverageRobust], [processTextRobust], [sanitizeFilePathRobust];
    - [examples/context-engineering/blog-system/api-service.ts]:
      [BlogApiService].

    Each sample is translated to a Rocq function.  Strings are sequences of
    UTF-16 code units, as in JavaScript.  Asynchronous calls into the
    outside world (fetch, the database driver, the clock) are answered by an
    explicit environment, and the calls a function makes are recorded in a
    trace, so that "no fetch is made" or "rollback is called" are statements
    about that trace. *)

From Stdlib Require Import List ZArith NArith Bool Lia Ascii String DecimalString.
Import ListNotations.

Set Implicit Arguments.
Set Warnings "-register-all,-abstract-large-number".

(** ** JavaScript strings and the String methods the samples use *)

Module JS.

(** A UTF-16 code unit. *)
Definition char := N.

Definition jsstring := list char.

(** Code units of an ASCII literal. *)
Definition str (s : string) : jsstring := map N_of_ascii (list_ascii_of_string s).

Definition chr (a : ascii) : char := N_of_ascii a.

Fixpoint str_eqb (a b : jsstring) : bool :=
  match a, b with
  | [], [] => true
  | x :: a', y :: b' => N.eqb x y && str_eqb a' b'
  | _, _ => false
  end.

(** [s.startsWith(p)]. *)
Fixpoint startsWith (p s : jsstring) : bool :=
  match p, s with
  | [], _ => true
  | x :: p', y :: s' => N.eqb x y && startsWith p' s'
  | _ :: _, [] => false
  end.

(** [s.includes(p)]. *)
Fixpoint includes (s p : jsstring) : bool :=
  startsWith p s ||
  match s with
  | [] => false
  | _ :: s' => includes s' p
  end.

Definition in_range (lo hi c : N) : bool := N.leb lo c && N.leb c hi.

(** The class [\s] of ECMAScript regular expressions, which is also what
    [String.prototype.trim] strips: WhiteSpace and LineTerminator. *)
Definition is_space (c : char) : bool :=
  (in_range 9 13 c || N.eqb c 32 || N.eqb c 160 || N.eqb c 5760
   || in_range 8192 8202 c || N.eqb c 8232 || N.eqb c 8233
   || N.eqb c 8239 || N.eqb c 8287 || N.eqb c 12288 || N.eqb c 65279)%N.

Fixpoint dropWhile (p : char -> bool) (s : jsstring) : jsstring :=
  match s with
  | [] => []
  | c :: s' => if p c then dropWhile p s' else s
  end.

Definition dropWhileEnd (p : char -> bool) (s : jsstring) : jsstring :=
  rev (dropWhile p (rev s)).

(** [s.trim()]. *)
Definition trim (s : jsstring) : jsstring :=
  dropWhileEnd is_space (dropWhile is_space s).

(** [s.substring(0, n)] for a Number [n] that holds an integer: a negative
    end is taken as 0, an end past the string as its length. *)
Definition substring0 (s : jsstring) (n : Z) : jsstring :=
  firstn (Z.to_nat n) s.

(** [s.substring(n)] for [0 <= n]. *)
Definition substringFrom (s : jsstring) (n : nat) : jsstring := skipn n s.

(** [s.length] as a Number. *)
Definition jslength (s : jsstring) : Z := Z.of_nat (List.length s).

(** A matcher tells, for the text that starts at the current position,
    how many code units the pattern consumes there (at least one) and what
    they are replaced by. *)
Definition matcher := jsstring -> option (nat * jsstring).

(** [s.replace(/pattern/g, ...)]: the text is scanned from the left; where
    the pattern matches, the match is replaced and scanning resumes after
    it; elsewhere the code unit is kept.  [skip] counts the code units of
    the current match that are still to be passed over. *)
Fixpoint replaceAllFrom (m : matcher) (skip : nat) (s : jsstring) : jsstring :=
  match s with
  | [] => []
  | c :: s' =>
      match skip with
      | S k => replaceAllFrom m k s'
      | O =>
          match m s with
          | Some (n, rep) => rep ++ replaceAllFrom m (Nat.pred n) s'
          | None => c :: replaceAllFrom m 0 s'
          end
      end
  end.

Definition replaceAll (m : matcher) (s : jsstring) : jsstring :=
  replaceAllFrom m 0 s.

(** A matcher whose replacements are never longer than what they replace,
    and whose matches lie within the text. *)
Definition shrinking (m : matcher) : Prop :=
  forall s n rep,
    m s = Some (n, rep) -> List.length rep <= n /\ 1 <= n <= List.length s.

(** A literal pattern, replaced by [rep]. *)
Definition lit (pat rep : jsstring) : matcher :=
  fun s =>
    match pat with
    | [] => None
    | _ :: _ => if startsWith pat s then Some (List.length pat, rep) else None
    end.

(** An alternation [p1|p2]: the first alternative that matches wins. *)
Definition orElse (m1 m2 : matcher) : matcher :=
  fun s => match m1 s with Some r => Some r | None => m2 s end.

(** [s.replace(/[class]/g, rep)] for a one-code-unit class. *)
Definition replaceClass (p : char -> bool) (rep : char) (s : jsstring) : jsstring :=
  map (fun c => if p c then rep else c) s.

(** [s.replace(/[class]/g, '')]. *)
Definition removeClass (p : char -> bool) (s : jsstring) : jsstring :=
  filter (fun c => negb (p c)) s.

(** [s.split(sep)] for a one-code-unit separator: never empty. *)
Fixpoint split (sep : char) (s : jsstring) : list jsstring :=
  match s with
  | [] => [[]]
  | c :: s' =>
      if N.eqb c sep then [] :: split sep s'
      else match split sep s' with
           | [] => [[c]]
           | p :: ps => (c :: p) :: ps
           end
  end.

(** [parts.join(sep)]. *)
Fixpoint join (sep : char) (parts : list jsstring) : jsstring :=
  match parts with
  | [] => []
  | [p] => p
  | p :: ps => p ++ sep :: join sep ps
  end.

(** [s.lastIndexOf(c)], [None] standing for -1. *)
Fixpoint lastIndexOf (c : char) (s : jsstring) : option nat :=
  match s with
  | [] => None
  | x :: s' =>
      match lastIndexOf c s' with
      | Some i => Some (S i)
      | None => if N.eqb x c then Some O else None
      end
  end.

(** ASCII upper-casing, for patterns under the [i] flag whose letters are
    all ASCII. *)
Definition upper (c : char) : char :=
  (if in_range 97 122 c then c - 32 else c)%N.

(** An error object: the two properties the samples read. *)
Record error := mkError { name : jsstring; message : jsstring }.

(** [new Error(msg)]. *)
Definition Error (msg : jsstring) : error := mkError (str "Error") msg.

(** [Math.pow(2, n)] for an integer [n >= 0]. *)
Definition pow2 (n : Z) : Z := 2 ^ n.

(** [`${n}`] for a natural number. *)
Definition decimal (n : nat) : jsstring :=
  str (DecimalString.NilZero.string_of_uint (Nat.to_uint n)).

(** Regular expressions over code units, matched by derivatives.
    [matches r s] is the test of [/^r$/] on [s]. *)
Inductive regex :=
| Void
| Eps
| Class (p : char -> bool)
| Seq (r1 r2 : regex)
| Alt (r1 r2 : regex)
| Star (r : regex).

Definition Plus (r : regex) : regex := Seq r (Star r).

Fixpoint nullable (r : regex) : bool :=
  match r with
  | Void => false
  | Eps => true
  | Class _ => false
  | Seq r1 r2 => nullable r1 && nullable r2
  | Alt r1 r2 => nullable r1 || nullable r2
  | Star _ => true
  end.

Fixpoint deriv (c : char) (r : regex) : regex :=
  match r with
  | Void => Void
  | Eps => Void
  | Class p => if p c then Eps else Void
  | Seq r1 r2 =>
      if nullable r1 then Alt (Seq (deriv c r1) r2) (deriv c r2)
      else Seq (deriv c r1) r2
  | Alt r1 r2 => Alt (deriv c r1) (deriv c r2)
  | Star r1 => Seq (deriv c r1) (Star r1)
  end.

Fixpoint matches (r : regex) (s : jsstring) : bool :=
  match s with
  | [] => nullable r
  | c :: s' => matches (deriv c r) s'
  end.

(** JavaScript values, as far as the samples look into them: plain data.
    A number is an integer or [NaN]; the samples ask numbers for their type
    and truthiness, and for their decimal form where one becomes the message
    of an error. *)
Inductive value :=
| VUndefined
| VNull
| VBool (b : bool)
| VNumber (z : Z)
| VNaN
| VString (s : jsstring)
| VArray (items : list value)
| VObject (fields : list (jsstring * value)).

(** [!!v]. *)
Definition truthy (v : value) : bool :=
  match v with
  | VUndefined | VNull | VNaN => false
  | VBool b => b
  | VNumber z => negb (Z.eqb z 0)
  | VString s => match s with [] => false | _ => true end
  | VArray _ | VObject _ => true
  end.

(** [typeof v === 'string']. *)
Definition isString (v : value) : bool :=
  match v with VString _ => true | _ => false end.

(** [typeof v === 'object']. *)
Definition isObject (v : value) : bool :=
  match v with VNull | VArray _ | VObject _ => true | _ => false end.

(** [Array.isArray(v)]. *)
Definition isArray (v : value) : bool :=
  match v with VArray _ => true | _ => false end.

Fixpoint lookup (k : jsstring) (fields : list (jsstring * value)) : value :=
  match fields with
  | [] => VUndefined
  | (k', v) :: rest => if str_eqb k k' then v else lookup k rest
  end.

(** [v.k] for a [v] that is neither [null] nor [undefined]; the samples
    read only own data properties of plain objects. *)
Definition getProp (v : value) (k : jsstring) : value :=
  match v with
  | VObject fields => lookup k fields
  | _ => VUndefined
  end.

(** [response.ok]. *)
Definition statusOk (status : Z) : bool := (200 <=? status)%Z && (status <=? 299)%Z.

End JS.

Import JS.

(** ** [sanitizeFilePathRobust] (edge-case-scenarios.js) *)

Module PathSanitizer.

Record options := mkOptions {
  maxLength : Z;
  allowRelativePaths : bool;
  preserveExtension : bool;
  os : jsstring
}.

(** The defaults of the destructuring; [platform] is [process.platform],
    or ['unknown'] where there is no [process]. *)
Definition defaultOptions (platform : jsstring) : options :=
  mkOptions 260 false true platform.

(** [/\.\.\/|\.\.\\|\.\.\//g], replaced by the empty string. *)
Definition traversal : matcher :=
  orElse (lit (str "../") []) (orElse (lit (str "..\") []) (lit (str "../") [])).

(** The class of [dangerousChars]: less-than, greater-than, colon, double
    quote, bar, question mark, star, and the code units 0x00 to 0x1f. *)
Definition dangerousChars (c : char) : bool :=
  (N.eqb c 60 || N.eqb c 62 || N.eqb c 58 || N.eqb c 34 || N.eqb c 124
   || N.eqb c 63 || N.eqb c 42 || N.leb c 31)%N.

Definition reservedList : list jsstring :=
  map str
    ["CON"; "PRN"; "AUX"; "NUL";
     "COM1"; "COM2"; "COM3"; "COM4"; "COM5"; "COM6"; "COM7"; "COM8"; "COM9";
     "LPT1"; "LPT2"; "LPT3"; "LPT4"; "LPT5"; "LPT6"; "LPT7"; "LPT8"; "LPT9"]%string.

(** [/^(CON|PRN|AUX|NUL|COM[1-9]|LPT[1-9])(\.|$)/i.test(fileName)]. *)
Definition reservedNames_test (fileName : jsstring) : bool :=
  existsb
    (fun nm =>
       startsWith nm (map upper fileName) &&
       match skipn (List.length nm) fileName with
       | [] => true
       | c :: _ => N.eqb c 46
       end)
    reservedList.

(** [pathParts[pathParts.length - 1] = v]. *)
Fixpoint setLast (parts : list jsstring) (v : jsstring) : list jsstring :=
  match parts with
  | [] => []
  | [_] => [v]
  | p :: ps => p :: setLast ps v
  end.

Definition space_or_dot (c : char) : bool := is_space c || N.eqb c 46.

(** [path.replace(/^[\s.]+|[\s.]+$/g, '')]. *)
Definition stripEnds (s : jsstring) : jsstring :=
  dropWhileEnd space_or_dot (dropWhile space_or_dot s).

Section WithNormalize.

(** [String.prototype.normalize('NFC')], which the sample takes from the
    JavaScript runtime. *)
Variable normalizeNFC : jsstring -> jsstring.

(** [filePath] is [None] for [null] and [undefined]. *)
Definition sanitizeFilePathRobust (filePath : option jsstring) (o : options) : jsstring :=
  match filePath with
  | None => []
  | Some path =>
      if str_eqb (trim path) [] then []
      else
        (* normalize path separators *)
        let path := replaceClass (N.eqb 92) 47%N path in
        (* path traversal *)
        let path :=
          if includes path (str "../") || includes path (str "..\") then
            if negb (allowRelativePaths o) then replaceAll traversal path else path
          else path in
        (* dangerous characters *)
        let path := replaceClass dangerousChars 95%N path in
        (* reserved names *)
        let pathParts := split 47%N path in
        let fileName := last pathParts [] in
        let path :=
          if reservedNames_test fileName
          then join 47%N (setLast pathParts (95%N :: fileName))
          else path in
        (* very long paths *)
        let path :=
          if (maxLength o <? jslength path)%Z then
            if preserveExtension o then
              let lastDot := lastIndexOf 46%N path in
              let extension :=
                match lastDot with Some (S i) => substringFrom path (S i) | _ => [] end in
              let nameWithoutExt :=
                match lastDot with Some (S i) => firstn (S i) path | _ => path end in
              let maxNameLength := (maxLength o - jslength extension)%Z in
              substring0 nameWithoutExt maxNameLength ++ extension
            else substring0 path (maxLength o)
          else path in
        let path := normalizeNFC path in
        let path := stripEnds path in
        if str_eqb path [] then str "unnamed_file"
        else if str_eqb (os o) (str "win32") then dropWhileEnd space_or_dot path
        else if str_eqb (os o) (str "darwin") then replaceClass (N.eqb 58) 95%N path
        else path
  end.

End WithNormalize.

End PathSanitizer.

(** ** [processTextRobust] (edge-case-scenarios.js) *)

Module TextProcessor.

Record options := mkOptions {
  maxLength : Z;
  normalizeWhitespace : bool;
  stripHTML : bool;
  preserveLineBreaks : bool;
  handleUnicode : bool;
  removeControlChars : bool;
  trimText : bool
}.

Definition defaultOptions : options :=
  mkOptions 1000000 true false true true true true.

(** [/[\x00-\x08\x0B\x0C\x0E-\x1F\x7F]/]. *)
Definition controlChar (c : char) : bool :=
  (N.leb c 8 || N.eqb c 11 || N.eqb c 12 || in_range 14 31 c || N.eqb c 127)%N.

(** Index of the first code unit equal to [c]. *)
Fixpoint indexOf (c : char) (s : jsstring) : option nat :=
  match s with
  | [] => None
  | x :: s' => if N.eqb x c then Some O else option_map S (indexOf c s')
  end.

(** [/<[^>]*>/g], replaced by the empty string. *)
Definition tag : matcher :=
  fun s =>
    match s with
    | 60%N :: r =>
        match indexOf 62%N r with
        | Some j => Some (j + 2, [])
        | None => None
        end
    | _ => None
    end.

Fixpoint countSpaces (s : jsstring) : nat :=
  match s with
  | 32%N :: s' => S (countSpaces s')
  | _ => O
  end.

(** [/ {2,}/g], replaced by one space. *)
Definition spaces : matcher :=
  fun s => let n := countSpaces s in if 2 <=? n then Some (n, [32%N]) else None.

(** The class replaced by a space: [\s], U+00A0, U+1680, U+2000 to U+200B,
    U+202F, U+205F, U+3000. *)
Definition whitespaceLike (c : char) : bool :=
  (is_space c || N.eqb c 160 || N.eqb c 5760 || in_range 8192 8203 c
   || N.eqb c 8239 || N.eqb c 8287 || N.eqb c 12288)%N.

(** The class of [hasRTLCharacters]: U+0590 to U+05FF, U+0600 to U+06FF,
    U+0750 to U+077F. *)
Definition rtlChar (c : char) : bool :=
  (in_range 1424 1535 c || in_range 1536 1791 c || in_range 1872 1919 c)%N.

Definition decodeEntities (s : jsstring) : jsstring :=
  let s := replaceAll (lit (str "&amp;") (str "&")) s in
  let s := replaceAll (lit (str "&lt;") (str "<")) s in
  let s := replaceAll (lit (str "&gt;") (str ">")) s in
  let s := replaceAll (lit (str "&quot;") [34%N]) s in
  let s := replaceAll (lit (str "&#39;") (str "'")) s in
  replaceAll (lit (str "&nbsp;") (str " ")) s.

Definition normalizeSpaces (o : options) (s : jsstring) : jsstring :=
  let s := replaceClass whitespaceLike 32%N s in
  let s := replaceClass (N.eqb 13) 10%N (replaceAll (lit [13%N; 10%N] [10%N]) s) in
  let s := if negb (preserveLineBreaks o) then replaceClass (N.eqb 10) 32%N s else s in
  replaceAll spaces s.

Section WithNormalize.

(** [String.prototype.normalize('NFC')] of the runtime. *)
Variable normalizeNFC : jsstring -> jsstring.

(** The text once it has been cut to [maxLength]. *)
Definition truncated (o : options) (s : jsstring) : jsstring :=
  if (maxLength o <? jslength s)%Z then substring0 s (maxLength o) else s.

(** The text as it stands before Unicode normalization. *)
Definition cleaned (o : options) (s : jsstring) : jsstring :=
  let s := truncated o s in
  let s := if removeControlChars o then removeClass controlChar s else s in
  let s := if stripHTML o then decodeEntities (replaceAll tag s) else s in
  if normalizeWhitespace o then normalizeSpaces o s else s.

Definition normalized (o : options) (s : jsstring) : jsstring :=
  if handleUnicode o then normalizeNFC (cleaned o s) else cleaned o s.

(** RLE and PDF markers around a text that has right-to-left characters. *)
Definition embedded (s : jsstring) : jsstring :=
  if existsb rtlChar s then 8235%N :: s ++ [8236%N] else s.

(** [text] is [None] for [null] and [undefined]; a string is its own
    [String(text)]. *)
Definition processTextRobust (text : option jsstring) (o : options) : jsstring :=
  match text with
  | None => []
  | Some [] => []
  | Some s =>
      let s := embedded (normalized o s) in
      let s := if trimText o then trim s else s in
      match s with
      | [] => []
      | _ => if includes s [0%N] then removeClass (N.eqb 0) s else s
      end
  end.

End WithNormalize.

End TextProcessor.

(** ** [loginUserSecure] (fix-suggestions.js) *)

Module Login.

Record response := mkResponse {
  status : Z;
  statusText : jsstring;
  contentType : option jsstring;       (* headers.get('content-type') *)
  json : error + value                 (* response.json() rejects or resolves *)
}.

(** What [fetch('/api/login', ...)] does on one attempt: it rejects (network
    failure, or the abort after ten seconds) or resolves. *)
Inductive fetchOutcome :=
| FetchRejects (e : error)
| FetchResolves (r : response).

Inductive event :=
| Fetch (attempt : Z)
| Sleep (ms : Z).

Record session := mkSession { user : value; token : jsstring }.

Inductive outcome :=
| Return (s : session)
| Throw (e : error).

Definition maxRetries : Z := 3.

(** [/^[^\s@]+@[^\s@]+\.[^\s@]+$/]. *)
Definition emailRegex : regex :=
  let word := Plus (Class (fun c => negb (is_space c || N.eqb c 64))) in
  Seq word (Seq (Class (N.eqb 64)) (Seq word (Seq (Class (N.eqb 46)) word))).

(** The body of the [try] block, from the fetch on. *)
Definition tryLogin (f : fetchOutcome) : error + session :=
  match f with
  | FetchRejects e => inl e
  | FetchResolves r =>
      if negb (statusOk (status r)) then
        if (status r =? 401)%Z then inl (Error (str "Invalid email or password"))
        else if (status r =? 429)%Z
        then inl (Error (str "Too many login attempts. Please try again later"))
        else if (500 <=? status r)%Z
        then inl (Error (str "Server error. Please try again later"))
        else inl (Error (str "Login failed: " ++ statusText r))
      else
        match contentType r with
        | None => inl (Error (str "Invalid response format from server"))
        | Some ct =>
            if negb (includes ct (str "application/json"))
            then inl (Error (str "Invalid response format from server"))
            else
              match json r with
              | inl e => inl e
              | inr data =>
                  if negb (truthy data) || negb (isObject data)
                  then inl (Error (str "Invalid response data"))
                  else
                    match getProp data (str "token") with
                    | VString ((_ :: _) as tok) =>
                        let u := getProp data (str "user") in
                        if negb (truthy u) || negb (isObject u)
                        then inl (Error (str "User information not received"))
                        else if negb (List.length (split 46%N tok) =? 3)
                        then inl (Error (str "Invalid authentication token format"))
                        else inr (mkSession u tok)
                    | _ => inl (Error (str "Authentication token not received"))
                    end
              end
        end
  end.

(** The two [break] tests of the [catch] block. *)
Definition noRetry (e : error) : bool :=
  includes (message e) (str "Invalid email or password")
  || includes (message e) (str "email")
  || includes (message e) (str "password")
  || (str_eqb (name e) (str "TypeError") && includes (message e) (str "format"))
  || includes (message e) (str "Too many login attempts").

(** [Math.min(1000 * Math.pow(2, attempt - 1), 5000)]. *)
Definition backoff (attempt : Z) : Z := Z.min (1000 * pow2 (attempt - 1)) 5000.

(** [throw new Error(lastError?.message || 'Login failed after multiple attempts')]. *)
Definition giveUp (lastError : option error) : outcome :=
  match lastError with
  | Some (mkError _ ((_ :: _) as m)) => Throw (Error m)
  | _ => Throw (Error (str "Login failed after multiple attempts"))
  end.

(** The [for] loop; [todo] is the number of values of [attempt] from the
    current one up to [maxRetries]. *)
Fixpoint attempts (env : Z -> fetchOutcome) (todo : nat) (attempt : Z)
    (lastError : option error) : outcome * list event :=
  match todo with
  | O => (giveUp lastError, [])
  | S todo' =>
      match tryLogin (env attempt) with
      | inr s => (Return s, [Fetch attempt])
      | inl e =>
          if noRetry e then (giveUp (Some e), [Fetch attempt])
          else
            let '(res, tr) := attempts env todo' (attempt + 1) (Some e) in
            if (attempt <? maxRetries)%Z
            then (res, Fetch attempt :: Sleep (backoff attempt) :: tr)
            else (res, Fetch attempt :: tr)
      end
  end.

(** The calls of a run that makes [n] fetches, the first of them numbered
    [attempt]: after each fetch but the last, the backoff delay. *)
Fixpoint schedule (n : nat) (attempt : Z) : list event :=
  match n with
  | O => []
  | S O => [Fetch attempt]
  | S n' => Fetch attempt :: Sleep (backoff attempt) :: schedule n' (attempt + 1)
  end.

Definition isFetch (ev : event) : bool :=
  match ev with Fetch _ => true | Sleep _ => false end.

Definition validEmail (email : value) : bool :=
  match email with
  | VString s => matches emailRegex s
  | _ => false
  end.

Definition passwordLength (password : value) : Z :=
  match password with
  | VString s => jslength s
  | _ => 0
  end.

Definition loginUserSecure (email password : value) (env : Z -> fetchOutcome)
    : outcome * list event :=
  if negb (truthy email) || negb (isString email)
  then (Throw (Error (str "Valid email address is required")), [])
  else if negb (truthy password) || negb (isString password)
          || (passwordLength password <? 8)%Z
  then (Throw (Error (str "Password must be at least 8 characters long")), [])
  else if negb (validEmail email)
  then (Throw (Error (str "Please enter a valid email address")), [])
  else attempts env (Z.to_nat maxRetries) 1 None.

End Login.

(** ** [ApiClient] (fix-suggestions.js) *)

Module ApiClient.

Record circuitBreaker := mkBreaker {
  failures : Z;
  lastFailure : option Z;              (* [None] is [null] *)
  threshold : Z;
  resetTimeout : Z
}.

Record client := mkClient {
  baseURL : jsstring;
  timeout : Z;
  maxRetries : Z;
  retryDelay : Z;
  breaker : circuitBreaker
}.

Record clientOptions := mkClientOptions {
  optTimeout : option Z;
  optMaxRetries : option Z;
  optRetryDelay : option Z;
  circuitBreakerThreshold : option Z;
  circuitBreakerReset : option Z
}.

(** [o || d] for an optional number: an absent value and 0 give [d]. *)
Definition orDefault (o : option Z) (d : Z) : Z :=
  match o with
  | Some v => if (v =? 0)%Z then d else v
  | None => d
  end.

(** [new ApiClient(baseURL, options)]. *)
Definition constructor (base : jsstring) (o : clientOptions) : client :=
  mkClient base
    (orDefault (optTimeout o) 10000)
    (orDefault (optMaxRetries o) 3)
    (orDefault (optRetryDelay o) 1000)
    (mkBreaker 0 None
       (orDefault (circuitBreakerThreshold o) 5)
       (orDefault (circuitBreakerReset o) 60000)).

(** [isCircuitOpen()], with [now] the value of [Date.now()].  In
    [Date.now() - null] the [null] counts as 0. *)
Definition isCircuitOpen (c : client) (now : Z) : bool :=
  if (threshold (breaker c) <=? failures (breaker c))%Z then
    let timeSinceLastFailure :=
      (now - match lastFailure (breaker c) with Some t => t | None => 0 end)%Z in
    (timeSinceLastFailure <? resetTimeout (breaker c))%Z
  else false.

Definition isServerError (e : error) : bool :=
  includes (message e) (str "Server error")
  || includes (message e) (str "Service temporarily unavailable")
  || str_eqb (name e) (str "AbortError").

Definition shouldNotRetry (e : error) : bool :=
  includes (message e) (str "Invalid request")
  || includes (message e) (str "Authentication required")
  || includes (message e) (str "permission")
  || includes (message e) (str "not found")
  || includes (message e) (str "Validation failed")
  || includes (message e) (str "No internet connection").

(** A response: [parsed] is what [safelyParseResponse] returns, [None] for
    an empty or unparsable body. *)
Record response := mkResponse {
  status : Z;
  statusText : jsstring;
  retryAfter : option jsstring;        (* headers.get('Retry-After') *)
  parsed : option value
}.

Inductive fetchOutcome :=
| FetchRejects (e : error)
| FetchResolves (r : response).

(** The statements of [request] at which the engine can throw a
    [TypeError]; the wording of the message is the engine's. *)
Inductive typeErrorCause :=
| ReadOfNull                            (* [options.headers], [options] being [null] *)
| SetOnNonObject                        (* [config.headers.Authorization = ...] *)
| NotPrimitive.                         (* [new Error(message)], no string for [message] *)

(** The world as one attempt of [request] meets it. *)
Record attemptEnv := mkAttemptEnv {
  online : bool;                       (* navigator.onLine *)
  token : option jsstring;             (* localStorage.getItem('token') *)
  tokenExpiry : option jsstring;       (* localStorage.getItem('tokenExpiry') *)
  checkedAt : Z;                       (* Date.now() in isTokenValid *)
  fetched : fetchOutcome;              (* what fetch(url, config) does *)
  failedAt : Z;                        (* Date.now() in the catch block *)
  typeErrorMessage : typeErrorCause -> jsstring
}.

Definition TypeError (a : attemptEnv) (cause : typeErrorCause) : error :=
  mkError (str "TypeError") (typeErrorMessage a cause).

Inductive event :=
| Fetch (attempt : Z)
| Logout                                (* handleAuthError *)
| Sleep (ms : Z).

Inductive outcome :=
| Return (data : option value)
| Throw (e : error)
| ThrowUndefined.                       (* [throw lastError] with no error caught *)

(** [Object.hasOwn(fields, k)]. *)
Definition hasOwn (k : jsstring) (fields : list (jsstring * value)) : bool :=
  existsb (fun kv => str_eqb k (fst kv)) fields.

(** [String(z)] for a Number that holds the integer [z], below 10^21 in
    magnitude. *)
Definition numberToString (z : Z) : jsstring :=
  if (z <? 0)%Z then 45%N :: decimal (Z.to_nat (- z)) else decimal (Z.to_nat z).

(** [String(v)], as [new Error(v)] takes its message: [None] where the
    conversion throws a [TypeError].  The values are plain data, so that an
    own [toString] of an object is not callable, and its [valueOf] gives no
    primitive; an array joins its elements with commas, [null] and
    [undefined] counting as empty. *)
Fixpoint toString (v : value) : option jsstring :=
  match v with
  | VUndefined => Some (str "undefined")
  | VNull => Some (str "null")
  | VBool true => Some (str "true")
  | VBool false => Some (str "false")
  | VNumber z => Some (numberToString z)
  | VNaN => Some (str "NaN")
  | VString s => Some s
  | VArray items =>
      option_map (join 44%N)
        ((fix elements (l : list value) : option (list jsstring) :=
            match l with
            | [] => Some []
            | x :: rest =>
                let first :=
                  match x with
                  | VUndefined | VNull => Some []
                  | _ => toString x
                  end in
                match first, elements rest with
                | Some s, Some ss => Some (s :: ss)
                | _, _ => None
                end
            end) items)
  | VObject fields =>
      if hasOwn (str "toString") fields then None else Some (str "[object Object]")
  end.

(** [new Error(errorBody?.message || dflt)]: the error made, or the
    [TypeError] thrown in making it. *)
Definition bodyMessage (a : attemptEnv) (body : option value) (dflt : jsstring) : error :=
  let message :=
    match body with
    | Some errorBody => getProp errorBody (str "message")
    | None => VUndefined
    end in
  if truthy message then
    match toString message with
    | Some m => Error m
    | None => TypeError a NotPrimitive
    end
  else Error dflt.

(** The error thrown for a response that is not ok. *)
Definition statusError (a : attemptEnv) (r : response) : error :=
  let s := status r in
  if (s =? 400)%Z
  then bodyMessage a (parsed r) (str "Invalid request. Please check your input.")
  else if (s =? 401)%Z then Error (str "Authentication required. Please log in again.")
  else if (s =? 403)%Z then Error (str "You do not have permission to perform this action.")
  else if (s =? 404)%Z then Error (str "The requested resource was not found.")
  else if (s =? 409)%Z
  then bodyMessage a (parsed r) (str "Conflict. The resource already exists or is in use.")
  else if (s =? 422)%Z
  then bodyMessage a (parsed r) (str "Validation failed. Please check your input.")
  else if (s =? 429)%Z
  then Error (str "Too many requests. Please try again "
              ++ match retryAfter r with
                 | Some ((_ :: _) as ra) => str "after " ++ ra ++ str " seconds"
                 | _ => str "later"
                 end ++ str ".")
  else if (s =? 500)%Z then Error (str "Server error. Please try again later.")
  else if (s =? 502)%Z || (s =? 503)%Z || (s =? 504)%Z
  then Error (str "Service temporarily unavailable. Please try again later.")
  else Error (str "Request failed: " ++ decimal (Z.to_nat s) ++ str " " ++ statusText r).

(** The value of a digit in the given radix. *)
Definition digitOf (radix : Z) (c : char) : option Z :=
  let d :=
    if in_range 48 57 c then Some (Z.of_N c - 48)%Z
    else if in_range 97 122 c then Some (Z.of_N c - 87)%Z
    else if in_range 65 90 c then Some (Z.of_N c - 55)%Z
    else None in
  match d with
  | Some d => if (d <? radix)%Z then Some d else None
  | None => None
  end.

(** The digits at the start of [s]. *)
Fixpoint leadingDigits (radix : Z) (s : jsstring) : list Z :=
  match s with
  | [] => []
  | c :: rest =>
      match digitOf radix c with
      | Some d => d :: leadingDigits radix rest
      | None => []
      end
  end.

(** [parseInt(s)], [None] standing for [NaN]: leading whitespace and a
    sign are passed over, [0x] announces hexadecimal digits, and the digits
    are read up to the first code unit that is none. *)
Definition parseInt (s : jsstring) : option Z :=
  let s := dropWhile is_space s in
  let negative := match s with 45%N :: _ => true | _ => false end in
  let s := match s with 45%N :: rest => rest | 43%N :: rest => rest | _ => s end in
  let hex :=
    match s with
    | 48%N :: 120%N :: _ => true
    | 48%N :: 88%N :: _ => true
    | _ => false
    end in
  let radix := if hex then 16%Z else 10%Z in
  let s := if hex then skipn 2 s else s in
  match leadingDigits radix s with
  | [] => None
  | ds =>
      let n := fold_left (fun acc d => acc * radix + d)%Z ds 0%Z in
      Some (if negative then (- n)%Z else n)
  end.

(** [isTokenValid()], by its truthiness:
    [expiry && Date.now() < parseInt(expiry)]. *)
Definition isTokenValid (a : attemptEnv) : bool :=
  match tokenExpiry a with
  | Some ((_ :: _) as expiry) =>
      match parseInt expiry with
      | Some z => (checkedAt a <? z)%Z
      | None => false
      end
  | _ => false
  end.

(** [config.headers] once the object literal is built: [...options] puts
    [options.headers] itself in the place of the object made from the
    defaults when [options] has a property of that name; [None] says that
    the object made from the defaults is still there. *)
Definition configHeaders (options : value) : option value :=
  match options with
  | VObject fields =>
      if hasOwn (str "headers") fields then Some (lookup (str "headers") fields) else None
  | _ => None
  end.

(** A value that takes a new property. *)
Definition takesProperties (v : value) : bool :=
  match v with VArray _ | VObject _ => true | _ => false end.

(** From [new AbortController()] to the authentication header: the
    configuration for [fetch] is put together.  [Some cause]: the engine
    throws a [TypeError], at the read of [options.headers] when [options]
    is [null], or, the class body being strict code, at the assignment
    of the header to something that is not an object. *)
Definition configError (options : value) (a : attemptEnv) : option typeErrorCause :=
  match options with
  | VNull => Some ReadOfNull
  | _ =>
      let token := match token a with Some (_ :: _) => true | _ => false end in
      if token && isTokenValid a then
        match configHeaders options with
        | Some headers => if takesProperties headers then None else Some SetOnNonObject
        | None => None
        end
      else None
  end.

(** The [try] block of one attempt: the data, or the error caught, with the
    calls made. *)
Definition tryRequest (options : value) (a : attemptEnv) (attempt : Z)
    : (error + option value) * list event :=
  if negb (online a)
  then (inl (Error (str "No internet connection. Please check your network and try again.")),
        [])
  else
    match configError options a with
    | Some cause => (inl (TypeError a cause), [])
    | None =>
        match fetched a with
        | FetchRejects e => (inl e, [Fetch attempt])
        | FetchResolves r =>
            if negb (statusOk (status r)) then
              (inl (statusError a r),
               if (status r =? 401)%Z then [Fetch attempt; Logout] else [Fetch attempt])
            else (inr (parsed r), [Fetch attempt])
        end
    end.

Definition recordFailure (c : client) (now : Z) : client :=
  mkClient (baseURL c) (timeout c) (maxRetries c) (retryDelay c)
    (mkBreaker (failures (breaker c) + 1) (Some now)
       (threshold (breaker c)) (resetTimeout (breaker c))).

Definition resetBreaker (c : client) : client :=
  mkClient (baseURL c) (timeout c) (maxRetries c) (retryDelay c)
    (mkBreaker 0 None (threshold (breaker c)) (resetTimeout (breaker c))).

Definition rethrow (lastError : option error) : outcome :=
  match lastError with
  | Some e => Throw e
  | None => ThrowUndefined
  end.

(** The [for] loop; [todo] is the number of values of [attempt] from the
    current one up to [maxRetries]. *)
Fixpoint attempts (options : value) (env : Z -> attemptEnv) (todo : nat) (attempt : Z)
    (c : client) (lastError : option error) : outcome * client * list event :=
  match todo with
  | O => (rethrow lastError, c, [])
  | S todo' =>
      match tryRequest options (env attempt) attempt with
      | (inr data, tr) => (Return data, resetBreaker c, tr)
      | (inl e, tr) =>
          let c := if isServerError e then recordFailure c (failedAt (env attempt)) else c in
          if shouldNotRetry e then (Throw e, c, tr)
          else
            let '(res, c', tr') := attempts options env todo' (attempt + 1) c (Some e) in
            if (attempt <? maxRetries c)%Z
            then (res, c', tr ++ Sleep (retryDelay c * pow2 (attempt - 1)) :: tr')
            else (res, c', tr ++ tr')
      end
  end.

(** [request] past the circuit breaker: the endpoint check and the loop. *)
Definition attemptRequest (c : client) (endpoint options : value) (env : Z -> attemptEnv)
    : outcome * client * list event :=
  if negb (truthy endpoint) || negb (isString endpoint)
  then (Throw (Error (str "Valid endpoint is required")), c, [])
  else attempts options env (Z.to_nat (maxRetries c)) 1 c None.

Definition unavailable : error :=
  Error (str "Service temporarily unavailable. Please try again later.").

(** The parameter [options = {}]: the default stands in for [undefined]. *)
Definition orEmpty (options : value) : value :=
  match options with
  | VUndefined => VObject []
  | _ => options
  end.

(** [request(endpoint, options)] called when [Date.now()] is [now]. *)
Definition request (c : client) (now : Z) (endpoint options : value) (env : Z -> attemptEnv)
    : outcome * client * list event :=
  if isCircuitOpen c now then (Throw unavailable, c, [])
  else attemptRequest c endpoint (orEmpty options) env.

(** The messages of one engine, and a browser with nothing in its
    [localStorage]. *)
Definition engineMessage (cause : typeErrorCause) : jsstring :=
  match cause with
  | ReadOfNull => str "Cannot read properties of null (reading 'headers')"
  | SetOnNonObject => str "Cannot create property 'Authorization'"
  | NotPrimitive => str "Cannot convert object to primitive value"
  end.

Definition browser (online : bool) (fetched : fetchOutcome) (failedAt : Z) : attemptEnv :=
  mkAttemptEnv online None None 0 fetched failedAt engineMessage.

(** A client whose breaker has tripped: five failures, the last at time
    1000, and a service that keeps answering 503. *)
Definition tripped : client :=
  mkClient (str "https://api.example.org") 10000 3 1000 (mkBreaker 5 (Some 1000%Z) 5 60000).

Definition alwaysDown (k : Z) : attemptEnv :=
  browser true
    (FetchResolves (mkResponse 503 (str "Service Unavailable") None None)) (61000 + k).

End ApiClient.

(** ** [DatabaseService] (fix-suggestions.js) *)

Module Database.

(** An error of the database driver: [code] is [None] where the error has
    no such property, as for [new Error(...)]. *)
Record dbError := mkDbError { code : option jsstring; message : jsstring }.

Definition Error (msg : jsstring) : dbError := mkDbError None msg.

Definition codeIs (e : dbError) (c : string) : bool :=
  match code e with
  | Some k => str_eqb k (str c)
  | None => false
  end.

Definition isDeadlockError (e : dbError) : bool :=
  codeIs e "ER_LOCK_DEADLOCK" || includes (message e) (str "deadlock").

Definition isConnectionError (e : dbError) : bool :=
  codeIs e "ECONNRESET" || codeIs e "ECONNREFUSED" || codeIs e "ETIMEDOUT"
  || includes (message e) (str "connection").

Definition isConstraintError (e : dbError) : bool :=
  codeIs e "ER_DUP_ENTRY" || codeIs e "ER_NO_REFERENCED_ROW"
  || includes (message e) (str "constraint").

Definition isTimeoutError (e : dbError) : bool :=
  includes (message e) (str "timeout").

Definition parseConstraintError (e : dbError) : jsstring :=
  if codeIs e "ER_DUP_ENTRY" then str "Duplicate entry - record already exists"
  else if codeIs e "ER_NO_REFERENCED_ROW" then str "Referenced record does not exist"
  else str "Data constraint violation".

(** The service: [connectionPool] is [null] or a pool. *)
Record service := mkService {
  hasPool : bool;
  queryTimeout : Z;
  retryAttempts : Z
}.

(** [new DatabaseService(config)]. *)
Definition constructor : service := mkService false 30000 3.

Definition rows := list value.

(** What the driver does during one pass through the loop of
    [executeQuery]. *)
Inductive execOutcome :=
| Rows (r : rows)
| Rejects (e : dbError)
| TimerFirst.                           (* the timer wins Promise.race *)

Record attemptEnv := mkAttemptEnv {
  acquire : option dbError;             (* connectionPool.getConnection() rejects *)
  setTimeout : option dbError;          (* connection.query('SET SESSION ...') rejects *)
  execute : execOutcome;                (* connection.execute(query, params) *)
  reset : option dbError;               (* resetConnection() rejects *)
  jitter : Z                            (* Math.random() * 100 + 50 *)
}.

(** The calls a pass makes after its [try] block. *)
Inductive event :=
| Reset                                 (* resetConnection() *)
| Delay (ms : Z)
| Release.                              (* connection.release() *)

(** One pass through the loop: the value of [attempt] when the [try]
    block is entered, the error the [catch] block receives, if any, and
    the calls made from the [catch] and [finally] blocks. *)
Record pass := mkPass {
  failuresBefore : Z;
  caught : option dbError;
  calls : list event
}.

Inductive outcome :=
| Return (r : rows)
| Throw (e : dbError)
| ReturnUndefined.                      (* the loop ends without a return *)

(** [getConnection()]. *)
Definition getConnection (s : service) (acq : option dbError) : option dbError :=
  if hasPool s then acq
  else Some (Error (str "Database connection pool not initialized")).

(** The [try] block: the result or the error caught, and whether
    [connection] was assigned. *)
Definition tryQuery (s : service) (a : attemptEnv) : (dbError + rows) * bool :=
  match getConnection s (acquire a) with
  | Some e => (inl e, false)
  | None =>
      match setTimeout a with
      | Some e => (inl e, true)
      | None =>
          match execute a with
          | Rows r => (inr r, true)
          | Rejects e => (inl e, true)
          | TimerFirst => (inl (Error (str "Query timeout")), true)
          end
      end
  end.

(** The [finally] block releases [connection] if one has been assigned,
    in this pass or in an earlier one. *)
Definition release (conn : bool) : list event := if conn then [Release] else [].

(** How the [catch] block takes an error: by the first of its tests that
    holds, in the order in which it makes them. *)
Inductive errorClass := Deadlock | Connection | Constraint | Timeout | Generic.

Definition classify (e : dbError) : errorClass :=
  if isDeadlockError e then Deadlock
  else if isConnectionError e then Connection
  else if isConstraintError e then Constraint
  else if isTimeoutError e then Timeout
  else Generic.

(** [resetConnection()] succeeded: the pool is a new one. *)
Definition withPool (s : service) : service :=
  mkService true (queryTimeout s) (retryAttempts s).

(** The [while] loop; [todo] is [retryAttempts - attempt].  The sample
    calls [this.createConnectionPool()], which it does not define, from
    [resetConnection]; [reset] of the environment says how that call ends.
    The result comes with the passes made, in order. *)
Fixpoint attempts (env : Z -> attemptEnv) (todo : nat) (attempt : Z)
    (s : service) (conn : bool) : outcome * list pass :=
  match todo with
  | O => (ReturnUndefined, [])
  | S todo' =>
      let a := env attempt in
      let '(res, got) := tryQuery s a in
      let conn := conn || got in
      match res with
      | inr r => (Return r, [mkPass attempt None (release conn)])
      | inl e =>
          let attempt' := (attempt + 1)%Z in
          let stop (thrown : dbError) :=
            (Throw thrown, [mkPass attempt (Some e) (release conn)]) in
          match classify e with
          | Deadlock =>
              if (attempt' <? retryAttempts s)%Z then
                let '(res', passes) := attempts env todo' attempt' s conn in
                (res', mkPass attempt (Some e) (Delay (jitter a) :: release conn) :: passes)
              else stop (Error (str "Database deadlock - operation failed after retries"))
          | Connection =>
              if (attempt' <? retryAttempts s)%Z then
                match reset a with
                | Some e' => (Throw e', [mkPass attempt (Some e) (Reset :: release conn)])
                | None =>
                    let '(res', passes) := attempts env todo' attempt' (withPool s) conn in
                    (res',
                     mkPass attempt (Some e) (Reset :: Delay (1000 * attempt') :: release conn)
                       :: passes)
                end
              else stop (Error (str "Database connection failed after retries"))
          | Constraint =>
              stop (Error (str "Database constraint violation: " ++ parseConstraintError e))
          | Timeout =>
              stop (Error (str "Database query timed out - operation took too long"))
          | Generic =>
              stop (Error (str "Database operation failed: " ++ message e))
          end
      end
  end.

(** When the pass that caught [e] after [attempt] failures is followed by
    another; [limit] is [retryAttempts], [a] the environment of the pass. *)
Definition retried (limit attempt : Z) (a : attemptEnv) (e : dbError) : Prop :=
  (attempt + 1 < limit)%Z
  /\ (isDeadlockError e = true
      \/ (isDeadlockError e = false /\ isConnectionError e = true /\ reset a = None)).

(** What holds of the outcome when the pass that caught [e] after
    [attempt] failures is the last one. *)
Definition stopped (limit attempt : Z) (a : attemptEnv) (e : dbError) (res : outcome)
    : Prop :=
  match classify e with
  | Deadlock =>
      (limit <= attempt + 1)%Z
      /\ res = Throw (Error (str "Database deadlock - operation failed after retries"))
  | Connection =>
      ((limit <= attempt + 1)%Z
       /\ res = Throw (Error (str "Database connection failed after retries")))
      \/ ((attempt + 1 < limit)%Z /\ exists e', reset a = Some e' /\ res = Throw e')
  | Constraint =>
      res = Throw (Error (str "Database constraint violation: " ++ parseConstraintError e))
  | Timeout =>
      res = Throw (Error (str "Database query timed out - operation took too long"))
  | Generic =>
      res = Throw (Error (str "Database operation failed: " ++ message e))
  end.

(** A service whose pool is in place, and a database that answers every
    query with a deadlock. *)
Definition ready : service := withPool constructor.

Definition deadlock : dbError :=
  mkDbError (Some (str "ER_LOCK_DEADLOCK"))
    (str "Deadlock found when trying to get lock; try restarting transaction").

Definition deadlocked (k : Z) : attemptEnv :=
  mkAttemptEnv None None (Rejects deadlock) None 75.

(** [Array.isArray(params)] fails on a truthy [params]. *)
Definition badParams (params : value) : bool := truthy params && negb (isArray params).

Definition executeQuery (s : service) (query params : value) (env : Z -> attemptEnv)
    : outcome * list pass :=
  if negb (truthy query) || negb (isString query)
  then (Throw (Error (str "Valid SQL query is required")), [])
  else if badParams params
  then (Throw (Error (str "Query parameters must be an array")), [])
  else attempts env (Z.to_nat (retryAttempts s)) 0 s false.

(** *** [transaction] *)

Record operation := mkOperation { query : value; params : value }.

Record txEnv := mkTxEnv {
  txAcquire : option dbError;           (* connectionPool.getConnection() rejects *)
  txBegin : option dbError;             (* connection.beginTransaction() rejects *)
  txExecute : nat -> dbError + rows;    (* connection.execute for operation i *)
  txCommit : option dbError;            (* connection.commit() rejects *)
  txRollback : option dbError;          (* connection.rollback() rejects *)
  txRelease : option dbError            (* connection.release() rejects *)
}.

Inductive txEvent :=
| Begin
| Execute (i : nat)
| Commit
| Rollback
| TxRelease.

Inductive txOutcome :=
| TxReturn (results : list rows)
| TxThrow (e : dbError).

Definition validOperation (op : operation) : bool :=
  truthy (query op) && truthy (params op).

(** The [for] loop over the operations, from index [i]: the results pushed
    or the error thrown, with the [execute] calls made. *)
Fixpoint runOperations (e : txEnv) (i : nat) (ops : list operation)
    : (dbError + list rows) * list txEvent :=
  match ops with
  | [] => (inr [], [])
  | op :: rest =>
      if negb (validOperation op)
      then (inl (Error (str "Invalid operation at index " ++ decimal i
                        ++ str ": missing query or params")), [])
      else
        match txExecute e i with
        | inl err =>
            (inl (Error (str "Transaction failed at operation " ++ decimal (i + 1)
                         ++ str ": " ++ message err)),
             [Execute i])
        | inr r =>
            match runOperations e (S i) rest with
            | (inl err, tr) => (inl err, Execute i :: tr)
            | (inr rs, tr) => (inr (r :: rs), Execute i :: tr)
            end
        end
  end.

(** The outer [try]: the connection, [beginTransaction], the operations
    and [commit]; with whether [connection] was assigned. *)
Definition tryTransaction (s : service) (e : txEnv) (ops : list operation)
    : (dbError + list rows) * bool * list txEvent :=
  match getConnection s (txAcquire e) with
  | Some err => (inl err, false, [])
  | None =>
      match txBegin e with
      | Some err => (inl err, true, [Begin])
      | None =>
          match runOperations e 0 ops with
          | (inl err, tr) => (inl err, true, Begin :: tr)
          | (inr rs, tr) =>
              match txCommit e with
              | Some err => (inl err, true, Begin :: tr ++ [Commit])
              | None => (inr rs, true, Begin :: tr ++ [Commit])
              end
          end
      end
  end.

Definition transaction (s : service) (ops : list operation) (e : txEnv)
    : txOutcome * list txEvent :=
  match ops with
  | [] => (TxThrow (Error (str "Transaction operations must be a non-empty array")), [])
  | _ =>
      match tryTransaction s e ops with
      | (inr rs, _, tr) => (TxReturn rs, tr ++ [TxRelease])
      | (inl err, true, tr) => (TxThrow err, tr ++ [Rollback; TxRelease])
      | (inl err, false, tr) => (TxThrow err, tr)
      end
  end.

(** Two updates, a driver under which both succeed, and one under which
    the second is rejected. *)
Definition transfer : list operation :=
  [mkOperation (VString (str "UPDATE accounts SET balance = balance - ? WHERE id = ?"))
     (VArray [VNumber 10; VNumber 1]);
   mkOperation (VString (str "UPDATE accounts SET balance = balance + ? WHERE id = ?"))
     (VArray [VNumber 10; VNumber 2])].

Definition allGood : txEnv :=
  mkTxEnv None None (fun i => inr [VNumber (Z.of_nat i)]) None None None.

Definition secondFails : txEnv :=
  mkTxEnv None None
    (fun i => if i =? 1 then inl (Error (str "Lock wait exceeded"))
              else inr [VNumber (Z.of_nat i)])
    None None None.

End Database.

(** ** [BlogApiService] (blog-system/api-service.ts) *)

Module Blog.

(** A thrown value: an [Error] instance, or anything else. *)
Inductive thrown :=
| ThrownError (e : error)
| ThrownOther.

(** A computation that returns or throws. *)
Definition result (A : Type) : Type := thrown + A.

Definition bind {A B : Type} (m : result A) (k : A -> result B) : result B :=
  match m with
  | inl t => inl t
  | inr a => k a
  end.

(** [try { body } catch (error) { handler }]. *)
Definition tryCatch {A : Type} (body : result A) (handler : thrown -> result A) : result A :=
  match body with
  | inl t => handler t
  | inr a => inr a
  end.

Notation "x <- m ;; k" := (bind m (fun x => k))
  (at level 61, m at next level, right associativity).

Record response := mkResponse {
  status : Z;
  statusText : jsstring;
  json : result value                   (* response.json() *)
}.

(** [ApiResponse<T>]; [data] is [VNull] for [null]. *)
Record ApiResponse := mkApiResponse {
  success : bool;
  data : value;
  message : jsstring;
  errors : list jsstring
}.

Section WithEngine.

(** The message of the [TypeError] the engine raises when a property of
    [null] or [undefined] is read. *)
Variable typeErrorMessage : jsstring.

(** [v.k], which throws on [null] and [undefined]. *)
Definition readProp (v : value) (k : jsstring) : result value :=
  match v with
  | VUndefined | VNull => inl (ThrownError (mkError (str "TypeError") typeErrorMessage))
  | _ => inr (getProp v k)
  end.

(** [if (!response.ok) throw new Error(`HTTP ${status}: ${statusText}`)]. *)
Definition checkOk (r : response) : result unit :=
  if negb (statusOk (status r))
  then inl (ThrownError
              (Error (str "HTTP " ++ decimal (Z.to_nat (status r)) ++ str ": " ++ statusText r)))
  else inr tt.

(** [error instanceof Error ? error.message : 'Unknown error']. *)
Definition describe (t : thrown) : jsstring :=
  match t with
  | ThrownError e => JS.message e
  | ThrownOther => str "Unknown error"
  end.

(** [getPosts(page, limit)], with [fetched] what [fetch] does. *)
Definition getPosts (fetched : result response) : result ApiResponse :=
  tryCatch
    (r <- fetched ;;
     _ <- checkOk r ;;
     d <- json r ;;
     posts <- readProp d (str "posts") ;;
     inr (mkApiResponse true posts (str "Posts retrieved successfully") []))
    (fun t =>
       inr (mkApiResponse false VNull (str "Failed to retrieve posts") [describe t])).

(** [getPost(id)]. *)
Definition getPost (fetched : result response) : result ApiResponse :=
  tryCatch
    (r <- fetched ;;
     _ <- checkOk r ;;
     post <- json r ;;
     inr (mkApiResponse true post (str "Post retrieved successfully") []))
    (fun t =>
       inr (mkApiResponse false VNull (str "Failed to retrieve post") [describe t])).

End WithEngine.

End Blog.

(** ** [calculateAverageRobust] (edge-case-scenarios.js) *)

Module Average.

(** The Number operations the sample uses.  They are those of the runtime's
    double-precision arithmetic and are kept abstract. *)
Class Arith (num : Type) := {
  nan : num;
  ofNat : nat -> num;                   (* a count, as a Number *)
  add : num -> num -> num;
  div : num -> num -> num;
  isNaN : num -> bool;
  isFinite : num -> bool;
  toFixed : num -> Z -> option jsstring; (* [None]: RangeError *)
  parse : jsstring -> num               (* Number(string) *)
}.

(** What holds of these operations in IEEE 754 arithmetic and is used
    below. *)
Class ArithLaws (num : Type) {A : Arith num} := {
  nan_is_nan : isNaN nan = true;
  finite_not_nan : forall x, isFinite x = true -> isNaN x = false;
  finite_div_count : forall x n, isFinite x = true -> isFinite (div x (ofNat (S n))) = true;
  toFixed_in_range : forall x d, (0 <= d <= 100)%Z -> toFixed x d <> None
}.

Arguments ArithLaws num {A}.

(** The statements at which the engine throws a [TypeError]; the wording of
    the message is the engine's. *)
Inductive typeErrorCause :=
| DestructureNull                       (* [const { ... } = options], [options] being [null] *)
| SymbolToNumber.                       (* [Number(value)], [value] being a Symbol *)

Section WithArith.

Context {num : Type} {A : Arith num}.

Variable typeErrorMessage : typeErrorCause -> jsstring.

(** The error the engine throws when the call stack is used up. *)
Variable stackOverflow : error.

Definition TypeError (cause : typeErrorCause) : error :=
  mkError (str "TypeError") (typeErrorMessage cause).

(** The values of JavaScript by their types.  An array is given with its
    elements, to a depth that the call stack allows; a BigInt with the
    Number it converts to.  [Cyclic] is an element that is one of the
    arrays it lies in: when the loop comes to it, the function is called on
    an array that it is already working on, comes to the same element in
    the same way, and so on until the stack is used up. *)
Inductive value :=
| Undefined
| Null
| Bool (b : bool)
| Num (n : num)
| BigInt (n : num)
| Str (s : jsstring)
| Symbol
| Func
| Obj                                   (* an object that is not an array *)
| Arr (items : list value)
| Cyclic.

(** The options as the function reads them: three flags by their
    truthiness, and the integer that [toFixed] makes of [precision]. *)
Record options := mkOptions {
  skipInvalid : bool;
  treatNullAsZero : bool;
  precision : Z;
  handleOverflow : bool
}.

Definition defaultOptions : options := mkOptions true false 2 true.

Inductive outcome :=
| RetNull
| RetNum (n : num)
| Throw (e : error).

(** [Number(value)] for a value that is neither nullish nor an object;
    [None] for a Symbol, at which the conversion throws a [TypeError]. *)
Definition toNumber (v : value) : option num :=
  match v with
  | Num n => Some n
  | BigInt n => Some n
  | Bool true => Some (ofNat 1)
  | Bool false => Some (ofNat 0)
  | Str s => Some (parse s)
  | Symbol => None
  | _ => Some nan
  end.

(** [Number(x.toFixed(precision))]. *)
Definition rounded (x : num) (precision : Z) : outcome :=
  match toFixed x precision with
  | Some s => RetNum (parse s)
  | None =>
      Throw (mkError (str "RangeError")
               (str "toFixed() digits argument must be between 0 and 100"))
  end.

(** The summing loop, from the sum so far. *)
Fixpoint sumLoop (o : options) (sum : num) (l : list num) : error + num :=
  match l with
  | [] => inr sum
  | n :: rest =>
      let sum := add sum n in
      if handleOverflow o && negb (isFinite sum)
      then inl (Error (str "Arithmetic overflow occurred during calculation"))
      else sumLoop o sum rest
  end.

(** From [validNumbers] to the result. *)
Definition finish (o : options) (validNumbers : list num) : outcome :=
  match validNumbers with
  | [] => RetNull
  | _ =>
      match sumLoop o (ofNat 0) validNumbers with
      | inl e => Throw e
      | inr sum =>
          let average := div sum (ofNat (List.length validNumbers)) in
          if negb (isFinite average)
          then Throw (Error (str "Average calculation resulted in non-finite number"))
          else rounded average (precision o)
      end
  end.

(** An invalid element: strict mode gives up, permissive mode goes on. *)
Definition invalid (o : options) (continue : outcome + list num) : outcome + list num :=
  if negb (skipInvalid o) then inl RetNull else continue.

(** The loop over the elements, from [validNumbers] so far: an early
    return or throw, or the numbers collected.  [nested] is the function
    itself, called on an element that is an array. *)
Fixpoint collect (nested : value -> outcome) (o : options) (l : list value)
    (validNumbers : list num) {struct l} : outcome + list num :=
  match l with
  | [] => inr validNumbers
  | v :: rest =>
      match v with
      | Undefined | Null =>
          if treatNullAsZero o then collect nested o rest (validNumbers ++ [ofNat 0])
          else invalid o (collect nested o rest validNumbers)
      | Arr _ | Cyclic =>
          match nested v with
          | RetNum nestedAvg => collect nested o rest (validNumbers ++ [nestedAvg])
          | RetNull => invalid o (collect nested o rest validNumbers)
          | Throw e => inl (Throw e)
          end
      | Obj => invalid o (collect nested o rest validNumbers)
      | _ =>
          match toNumber v with
          | None => inl (Throw (TypeError SymbolToNumber))
          | Some n =>
              if isNaN n || negb (isFinite n)
              then invalid o (collect nested o rest validNumbers)
              else collect nested o rest (validNumbers ++ [n])
          end
      end
  end.

(** The function once its options are destructured; the calls it makes
    on nested arrays pass the same options on. *)
Fixpoint average (values : value) (o : options) {struct values} : outcome :=
  match values with
  | Undefined | Null => RetNull
  | Arr [] => RetNull
  | Arr items =>
      match collect (fun v => average v o) o items [] with
      | inl early => early
      | inr validNumbers => finish o validNumbers
      end
  | Cyclic => Throw stackOverflow
  | Num n =>
      if negb (isNaN n) && isFinite n then rounded n (precision o) else RetNull
  | _ => RetNull
  end.

(** [calculateAverageRobust(values, options)]; [None] is [null] for the
    options, which cannot be destructured. *)
Definition calculateAverageRobust (values : value) (options : option options) : outcome :=
  match options with
  | None => Throw (TypeError DestructureNull)
  | Some o => average values o
  end.

(** An element that puts a number into [validNumbers] under the default
    options: a value whose conversion to Number is a finite number, or an
    array that holds such an element. *)
Fixpoint contributes (v : value) : bool :=
  match v with
  | Undefined | Null | Obj | Symbol | Cyclic => false
  | Arr items => existsb contributes items
  | _ =>
      match toNumber v with
      | Some n => negb (isNaN n) && isFinite n
      | None => false
      end
  end.

(** A value that is no Symbol and no cyclic array, and holds none at any
    depth. *)
Fixpoint plain (v : value) : bool :=
  match v with
  | Symbol | Cyclic => false
  | Arr items => forallb plain items
  | _ => true
  end.

(** What an array without a valid number comes to, in the loop and as the
    result: nothing is collected and [null] is returned when the array is
    plain; otherwise the error of a Symbol or of a cyclic array is
    thrown. *)
Definition nothing (isPlain : bool) (validNumbers : list num)
    (result : outcome + list num) : Prop :=
  if isPlain then result = inr validNumbers
  else exists e,
         result = inl (Throw e) /\ (e = TypeError SymbolToNumber \/ e = stackOverflow).

Definition answered (isPlain : bool) (result : outcome) : Prop :=
  if isPlain then result = RetNull
  else exists e, result = Throw e /\ (e = TypeError SymbolToNumber \/ e = stackOverflow).

(** The sums the summing loop goes through, from [sum], are all finite. *)
Fixpoint sumsFinite (sum : num) (l : list num) : bool :=
  match l with
  | [] => true
  | n :: rest => isFinite (add sum n) && sumsFinite (add sum n) rest
  end.

(** The sum of the numbers, added up from 0, left to right. *)
Definition total (l : list num) : num := fold_left add l (ofNat 0).

End WithArith.

Arguments value num : clear implicits.
Arguments outcome num : clear implicits.

(** The messages of one engine. *)
Definition engineMessage (cause : typeErrorCause) : jsstring :=
  match cause with
  | DestructureNull =>
      str "Cannot destructure property 'skipInvalid' of 'options' as it is null."
  | SymbolToNumber => str "Cannot convert a Symbol value to a number"
  end.

Definition engineOverflow : error :=
  mkError (str "RangeError") (str "Maximum call stack size exceeded").

(** Whole-number arithmetic with a NaN, as an instance on which the
    operations can be run: [None] is NaN, division rounds down, and
    [toFixed] prints the integer. *)
Module Whole.

Definition num := option Z.

Definition printZ (z : Z) : jsstring :=
  if (z <? 0)%Z then 45%N :: decimal (Z.to_nat (- z)) else decimal (Z.to_nat z).

Definition digit (c : char) : option Z :=
  if in_range 48 57 c then Some (Z.of_N c - 48)%Z else None.

Fixpoint parseDigits (acc : Z) (s : jsstring) : option Z :=
  match s with
  | [] => Some acc
  | c :: s' =>
      match digit c with
      | Some d => parseDigits (10 * acc + d) s'
      | None => None
      end
  end.

Definition parseZ (s : jsstring) : num :=
  match s with
  | [] => Some 0%Z
  | 45%N :: ((_ :: _) as s') => option_map Z.opp (parseDigits 0 s')
  | _ => parseDigits 0 s
  end.

#[global] Instance arith : Arith num := {
  nan := None;
  ofNat n := Some (Z.of_nat n);
  add x y := match x, y with Some a, Some b => Some (a + b)%Z | _, _ => None end;
  div x y :=
    match x, y with
    | Some a, Some b => if (b =? 0)%Z then None else Some (a / b)%Z
    | _, _ => None
    end;
  isNaN x := match x with None => true | Some _ => false end;
  isFinite x := match x with None => false | Some _ => true end;
  toFixed x d :=
    if (0 <=? d)%Z && (d <=? 100)%Z
    then Some (match x with Some z => printZ z | None => str "NaN" end)
    else None;
  parse := parseZ
}.

End Whole.

End Average.

(** ** Notions used to state further properties *)

Module ApiClientTrace.

Import ApiClient.

Definition isFetch (ev : event) : bool :=
  match ev with Fetch _ => true | _ => false end.

(** The number of fetches in a trace. *)
Definition fetches (tr : list event) : nat := List.length (filter isFetch tr).

(** Two clients that differ at most in the counters of the breaker. *)
Definition sameConfiguration (c c' : client) : Prop :=
  baseURL c' = baseURL c /\ timeout c' = timeout c /\ maxRetries c' = maxRetries c
  /\ retryDelay c' = retryDelay c
  /\ threshold (breaker c') = threshold (breaker c)
  /\ resetTimeout (breaker c') = resetTimeout (breaker c).

(** A status that [request] reports as a server failure. *)
Definition serverFailure (status : Z) : bool :=
  (status =? 500)%Z || (status =? 502)%Z || (status =? 503)%Z || (status =? 504)%Z.

(** A service that answers a client with three retries by 502 each time,
    the answers arriving at times 2000, 3000 and 4000. *)
Definition fresh : client :=
  constructor (str "https://api.example.org")
    (mkClientOptions None None None (Some 3%Z) None).

Definition badGateway (k : Z) : attemptEnv :=
  browser true (FetchResolves (mkResponse 502 (str "Bad Gateway") None None))
    (1000 * (k + 1)).

Definition offline (k : Z) : attemptEnv :=
  browser false (FetchRejects (mkError (str "TypeError") (str "Failed to fetch"))) 0.

Definition notFound (k : Z) : attemptEnv :=
  browser true (FetchResolves (mkResponse 404 (str "Not Found") None None)) 0.

End ApiClientTrace.

Module RegexLang.

(** The strings a regular expression denotes. *)
Inductive lang : regex -> jsstring -> Prop :=
| LEps : lang Eps []
| LClass (p : char -> bool) (c : char) : p c = true -> lang (Class p) [c]
| LSeq r1 r2 s1 s2 : lang r1 s1 -> lang r2 s2 -> lang (Seq r1 r2) (s1 ++ s2)
| LAltL r1 r2 s : lang r1 s -> lang (Alt r1 r2) s
| LAltR r1 r2 s : lang r2 s -> lang (Alt r1 r2) s
| LStarNil r : lang (Star r) []
| LStarApp r s1 s2 : lang r s1 -> lang (Star r) s2 -> lang (Star r) (s1 ++ s2).

(** A non-empty run of code units that are neither whitespace nor ['@']:
    what [[^\s@]+] stands for. *)
Definition word (w : jsstring) : Prop :=
  w <> [] /\ Forall (fun c => is_space c = false /\ c <> 64%N) w.

(** The number of code units of [s] equal to [c]. *)
Definition occurrences (c : char) (s : jsstring) : nat :=
  List.length (filter (N.eqb c) s).

End RegexLang.

Module LoginRuns.

Import Login.

(** A server that fails on every attempt. *)
Definition serverDown (k : Z) : fetchOutcome :=
  FetchResolves (mkResponse 503 (str "Service Unavailable") None (inr VNull)).

(** A network that fails with an error without message. *)
Definition silentFailure (k : Z) : fetchOutcome :=
  FetchRejects (mkError (str "TypeError") []).

End LoginRuns.

Module DatabaseRuns.

Import Database.

(** A driver that loses the connection once and then answers. *)
Definition flaky (k : Z) : attemptEnv :=
  if (k =? 0)%Z
  then mkAttemptEnv None None
         (Rejects (mkDbError (Some (str "ECONNRESET")) (str "read ECONNRESET"))) None 75
  else mkAttemptEnv None None (Rows [VNumber 42]) None 75.

(** [resetConnection] as the sample has it: the method it calls is not
    defined, so the call is rejected with a [TypeError]. *)
Definition noFactory : dbError :=
  Error (str "this.createConnectionPool is not a function").

Definition cannotReset (k : Z) : attemptEnv :=
  mkAttemptEnv None None (Rows [VNumber 42]) (Some noFactory) 75.

(** The last call of a pass. *)
Definition lastCall (p : pass) : option event := last (map Some (calls p)) None.

(** A driver that rejects every query with the same error, while the pool
    can be set up anew. *)
Definition rejecting (e : dbError) (k : Z) : attemptEnv :=
  mkAttemptEnv None None (Rejects e) None 75.

(** A duplicate key, and one on a column whose name holds 'connection'. *)
Definition duplicate : dbError :=
  mkDbError (Some (str "ER_DUP_ENTRY")) (str "Duplicate entry '7' for key 'users.email'").

Definition duplicateConnection : dbError :=
  mkDbError (Some (str "ER_DUP_ENTRY"))
    (str "Duplicate entry '7' for key 'sessions.connection_id'").

(** A timeout reported for the connection, and one reported while a
    deadlock was being resolved. *)
Definition connectionTimeout : dbError :=
  mkDbError None (str "connection timeout").

Definition deadlockTimeout : dbError :=
  mkDbError None (str "Lock wait timeout exceeded while resolving a deadlock").

(** The number of releases in a pass. *)
Definition releases (p : pass) : nat :=
  List.length (filter (fun ev => match ev with Release => true | _ => false end) (calls p)).

(** Three operations of which the third has no parameters. *)
Definition incomplete : list operation :=
  transfer ++ [mkOperation (VString (str "DELETE FROM audit")) VUndefined].

End DatabaseRuns.

Module JSInvariants.

(** A matcher whose replacements satisfy [P] wherever it is applied to a
    text that satisfies [P]. *)
Definition keeps (P : char -> Prop) (m : matcher) : Prop :=
  forall t n rep, Forall P t -> m t = Some (n, rep) -> Forall P rep.

End JSInvariants.

Module PathSanitizerSteps.

Import PathSanitizer.

(** The path of [sanitizeFilePathRobust] as it stands when it is handed to
    [normalize]: separators normalized, traversal sequences removed,
    dangerous characters replaced, a reserved name prefixed, the length
    cut. *)
Definition prepared (o : options) (path : jsstring) : jsstring :=
  let path := replaceClass (N.eqb 92) 47%N path in
  let path :=
    if includes path (str "../") || includes path (str "..\") then
      if negb (allowRelativePaths o) then replaceAll traversal path else path
    else path in
  let path := replaceClass dangerousChars 95%N path in
  let pathParts := split 47%N path in
  let fileName := last pathParts [] in
  let path :=
    if reservedNames_test fileName
    then join 47%N (setLast pathParts (95%N :: fileName))
    else path in
  if (maxLength o <? jslength path)%Z then
    if preserveExtension o then
      let lastDot := lastIndexOf 46%N path in
      let extension :=
        match lastDot with Some (S i) => substringFrom path (S i) | _ => [] end in
      let nameWithoutExt :=
        match lastDot with Some (S i) => firstn (S i) path | _ => path end in
      let maxNameLength := (maxLength o - jslength extension)%Z in
      substring0 nameWithoutExt maxNameLength ++ extension
    else substring0 path (maxLength o)
  else path.

(** What [sanitizeFilePathRobust] does with the normalized path. *)
Definition finished (o : options) (path : jsstring) : jsstring :=
  let path := stripEnds path in
  if str_eqb path [] then str "unnamed_file"
  else if str_eqb (os o) (str "win32") then dropWhileEnd space_or_dot path
  else if str_eqb (os o) (str "darwin") then replaceClass (N.eqb 58) 95%N path
  else path.

(** A code unit that is neither a backslash nor one of the dangerous
    characters. *)
Definition safeChar (c : char) : Prop := dangerousChars c = false /\ c <> 92%N.

End PathSanitizerSteps.

Module TextProcessorSteps.

Import TextProcessor.

(** A code unit outside the class of control characters. *)
Definition noControl (c : char) : Prop := controlChar c = false.

(** A code unit that, if it is whitespace of any kind, is the plain
    space. *)
Definition plainSpace (c : char) : Prop := whitespaceLike c = true -> c = 32%N.

(** No space is followed by another space. *)
Fixpoint noDoubleSpace (s : jsstring) : bool :=
  match s with
  | [] => true
  | c :: t =>
      negb (N.eqb c 32 && match t with d :: _ => N.eqb d 32 | [] => false end)
      && noDoubleSpace t
  end.

Definition startsWithSpace (s : jsstring) : bool :=
  match s with c :: _ => N.eqb c 32 | [] => false end.

(** The options with [preserveLineBreaks] set to [b]. *)
Definition withLineBreaks (b : bool) (o : options) : options :=
  mkOptions (maxLength o) (normalizeWhitespace o) (stripHTML o) b
    (handleUnicode o) (removeControlChars o) (trimText o).

End TextProcessorSteps.

Module Phone.

(** The class [\d]. *)
Definition isDigit (c : char) : bool := in_range 48 57 c.

(** [\d{n}] at the start of [s]: the digits matched and what follows. *)
Definition digits (n : nat) (s : jsstring) : option (jsstring * jsstring) :=
  if (n <=? List.length s) && forallb isDigit (firstn n s)
  then Some (firstn n s, skipn n s) else None.

(** [s.match(/^(\d{3})(\d{3})(\d{4})$/)]. *)
Definition match334 (s : jsstring) : option (jsstring * jsstring * jsstring) :=
  match digits 3 s with
  | Some (a, r) =>
      match digits 3 r with
      | Some (b, r) =>
          match digits 4 r with
          | Some (c, []) => Some (a, b, c)
          | _ => None
          end
      | None => None
      end
  | None => None
  end.

(** [s.match(/^(\d{3})(\d{4})$/)]. *)
Definition match34 (s : jsstring) : option (jsstring * jsstring) :=
  match digits 3 s with
  | Some (a, r) =>
      match digits 4 r with
      | Some (b, []) => Some (a, b)
      | _ => None
      end
  | None => None
  end.

(** [s.match(/^(\d{5})(\d{6})$/)]. *)
Definition match56 (s : jsstring) : option (jsstring * jsstring) :=
  match digits 5 s with
  | Some (a, r) =>
      match digits 6 r with
      | Some (b, []) => Some (a, b)
      | _ => None
      end
  | None => None
  end.

(** [s.match(/^(020)(\d{4})(\d{4})$/)]. *)
Definition matchLondon (s : jsstring) : option (jsstring * jsstring * jsstring) :=
  if startsWith (str "020") s then
    match digits 4 (skipn 3 s) with
    | Some (b, r) =>
        match digits 4 r with
        | Some (c, []) => Some (str "020", b, c)
        | _ => None
        end
    | None => None
    end
  else None.

(** A string is truthy when it is not empty. *)
Definition truthyStr (s : jsstring) : bool :=
  match s with [] => false | _ :: _ => true end.

(** [a || b] on strings. *)
Definition orStr (a b : jsstring) : jsstring := if truthyStr a then a else b.

(** [if (extension) formatted += ` ext. ${extension}`]. *)
Definition withExtension (formatted extension : jsstring) : jsstring :=
  if truthyStr extension then formatted ++ str " ext. " ++ extension else formatted.

(** The result of the first version, which reads [match[1]] without a
    test: a [TypeError] when the match is [null]. *)
Inductive outcome :=
  | Return (formatted : jsstring)
  | ThrowTypeError.

Definition formatPhoneNumber (phone : jsstring) : outcome :=
  let cleaned := removeClass (fun c => negb (isDigit c)) phone in
  match match334 cleaned with
  | Some (a, b, c) => Return (str "(" ++ a ++ str ") " ++ b ++ str "-" ++ c)
  | None => ThrowTypeError
  end.

Definition formatUSPhone (cleaned countryCode extension : jsstring)
    (includeCountryCode : bool) (defaultCountryCode : jsstring) : jsstring :=
  match (if List.length cleaned =? 10 then match334 cleaned else None) with
  | Some (a, b, c) =>
      let formatted := str "(" ++ a ++ str ") " ++ b ++ str "-" ++ c in
      let formatted :=
        if includeCountryCode
        then orStr countryCode defaultCountryCode ++ str " " ++ formatted
        else formatted in
      withExtension formatted extension
  | None =>
      match (if List.length cleaned =? 7 then match34 cleaned else None) with
      | Some (a, b) => withExtension (a ++ str "-" ++ b) extension
      | None =>
          let result :=
            if truthyStr countryCode && includeCountryCode
            then countryCode ++ str " " ++ cleaned
            else cleaned in
          withExtension result extension
      end
  end.

Definition formatUKPhone (cleaned countryCode extension : jsstring)
    (includeCountryCode : bool) : jsstring :=
  match (if (List.length cleaned =? 11) && startsWith (str "07") cleaned
         then match56 cleaned else None) with
  | Some (a, b) =>
      let formatted := a ++ str " " ++ b in
      let formatted :=
        if includeCountryCode
        then orStr countryCode (str "+44") ++ str " " ++ formatted
        else formatted in
      withExtension formatted extension
  | None =>
      match (if (10 <=? List.length cleaned) && (List.length cleaned <=? 11) then
               if startsWith (str "020") cleaned || startsWith (str "20") cleaned then
                 let number :=
                   if startsWith (str "020") cleaned then cleaned else str "0" ++ cleaned in
                 matchLondon number
               else None
             else None) with
      | Some (a, b, c) =>
          let formatted := a ++ str " " ++ b ++ str " " ++ c in
          let formatted :=
            if includeCountryCode
            then orStr countryCode (str "+44") ++ str " " ++ substringFrom formatted 1
            else formatted in
          withExtension formatted extension
      | None =>
          let result :=
            if truthyStr countryCode && includeCountryCode
            then countryCode ++ str " " ++ cleaned
            else cleaned in
          withExtension result extension
      end
  end.

(** The loop of [formatInternationalPhone] that cuts [remaining] into
    groups; [fuel] bounds the number of iterations, and [None] says that it
    was not enough. *)
Fixpoint grouping (fuel : nat) (remaining : jsstring) : option (list jsstring) :=
  match remaining with
  | [] => Some []
  | _ :: _ =>
      match fuel with
      | O => None
      | S fuel' =>
          let groupSize :=
            if 7 <? List.length remaining then 3 else Nat.min 4 (List.length remaining) in
          option_map (cons (firstn groupSize remaining))
            (grouping fuel' (skipn groupSize remaining))
      end
  end.

Definition formatInternationalPhone (fuel : nat) (cleaned countryCode extension : jsstring)
    (includeCountryCode : bool) : option jsstring :=
  let spaced :=
    if 4 <? List.length cleaned
    then option_map (join 32%N) (grouping fuel cleaned)
    else Some cleaned in
  match spaced with
  | Some formatted =>
      let formatted :=
        if includeCountryCode && truthyStr countryCode
        then countryCode ++ str " " ++ formatted
        else formatted in
      Some (withExtension formatted extension)
  | None => None
  end.

End Phone.

(** * Properties *)

(** ** Lengths under the String methods *)

Module JSFacts.

Lemma startsWith_length p s : startsWith p s = true -> List.length p <= List.length s.
Proof.
  revert s; induction p as [|x p IH]; intros [|y s]; simpl; try lia; try discriminate.
  intros H; apply andb_prop in H as [_ H]. apply IH in H. lia.
Qed.

Lemma lit_shrinking pat rep :
  List.length rep <= List.length pat -> shrinking (lit pat rep).
Proof.
  intros Hle s n r. unfold lit. destruct pat as [|x pat]; [discriminate|].
  destruct (startsWith (x :: pat) s) eqn:E; [|discriminate].
  intros H; injection H as <- <-. apply startsWith_length in E. simpl in *. lia.
Qed.

Lemma replaceAllFrom_length m :
  shrinking m ->
  forall s k,
    List.length (replaceAllFrom m k s) + Nat.min k (List.length s) <= List.length s.
Proof.
  intros Hm; induction s as [|c s IH]; intros k; simpl; [lia|].
  destruct k as [|k].
  - destruct (m (c :: s)) as [[n rep]|] eqn:E.
    + apply Hm in E as [Hrep [Hn1 Hn2]]. simpl in Hn2.
      rewrite length_app. specialize (IH (Nat.pred n)). lia.
    + simpl. specialize (IH 0). lia.
  - specialize (IH k). lia.
Qed.

Lemma replaceAll_length m s :
  shrinking m -> List.length (replaceAll m s) <= List.length s.
Proof.
  intros Hm. unfold replaceAll. pose proof (replaceAllFrom_length Hm s 0). lia.
Qed.

Lemma replaceClass_length p rep s :
  List.length (replaceClass p rep s) = List.length s.
Proof. unfold replaceClass. apply length_map. Qed.

Lemma removeClass_length p s : List.length (removeClass p s) <= List.length s.
Proof. unfold removeClass. apply filter_length_le. Qed.

Lemma dropWhile_length p s : List.length (dropWhile p s) <= List.length s.
Proof.
  induction s as [|c s IH]; simpl; [lia|]. destruct (p c); simpl; lia.
Qed.

Lemma dropWhileEnd_length p s : List.length (dropWhileEnd p s) <= List.length s.
Proof.
  unfold dropWhileEnd. rewrite length_rev.
  pose proof (dropWhile_length p (rev s)) as H. rewrite length_rev in H. exact H.
Qed.

Lemma trim_length s : List.length (trim s) <= List.length s.
Proof.
  unfold trim. pose proof (dropWhileEnd_length is_space (dropWhile is_space s)).
  pose proof (dropWhile_length is_space s). lia.
Qed.

Lemma substring0_length s n :
  (jslength (substring0 s n) <= Z.max 0 n)%Z.
Proof.
  unfold jslength, substring0. pose proof (firstn_le_length (Z.to_nat n) s). lia.
Qed.

End JSFacts.

(** ** [sanitizeFilePathRobust] *)

Module PathSanitizerFacts.

Import PathSanitizer.

(** C3, at a failing input.  The traversal pattern is removed in one pass,
    so the pieces left around a removed match can join into a new
    ['../']: with the default options, ['a/....//b'] comes out as
    ['a/../b'], which still contains ['../'].  Normalization to NFC leaves
    this ASCII string as it is. *)
Theorem sanitizeFilePathRobust_leaves_traversal (normalizeNFC : jsstring -> jsstring) :
  normalizeNFC (str "a/../b") = str "a/../b" ->
  sanitizeFilePathRobust normalizeNFC (Some (str "a/....//b")) (defaultOptions (str "linux"))
    = str "a/../b"
  /\ allowRelativePaths (defaultOptions (str "linux")) = false
  /\ includes
       (sanitizeFilePathRobust normalizeNFC (Some (str "a/....//b"))
          (defaultOptions (str "linux")))
       (str "../") = true.
Proof.
  intros Hnfc.
  assert (E : sanitizeFilePathRobust normalizeNFC (Some (str "a/....//b"))
                (defaultOptions (str "linux")) = str "a/../b").
  { unfold sanitizeFilePathRobust.
    change (str_eqb (trim (str "a/....//b")) []) with false. cbv iota.
    set (p := normalizeNFC _).
    assert (Hp : p = str "a/../b") by (subst p; exact Hnfc).
    rewrite Hp. reflexivity. }
  rewrite E. repeat split; reflexivity.
Qed.

Lemma sanitizeFilePathRobust_leaves_traversal_witness :
  sanitizeFilePathRobust (fun s => s) (Some (str "a/....//b")) (defaultOptions (str "linux"))
    = str "a/../b"
  /\ allowRelativePaths (defaultOptions (str "linux")) = false
  /\ includes
       (sanitizeFilePathRobust (fun s => s) (Some (str "a/....//b"))
          (defaultOptions (str "linux")))
       (str "../") = true.
Proof.
  apply (@sanitizeFilePathRobust_leaves_traversal (fun s => s)). reflexivity.
Defined.

End PathSanitizerFacts.

(** ** [processTextRobust] *)

Module TextProcessorFacts.

Import JSFacts TextProcessor.

Lemma indexOf_lt c s j : indexOf c s = Some j -> j < List.length s.
Proof.
  revert j; induction s as [|x s IH]; simpl; intros j; [discriminate|].
  destruct (N.eqb x c).
  - intros H; injection H as <-. lia.
  - destruct (indexOf c s) as [i|]; simpl; [|discriminate].
    intros H; injection H as <-. specialize (IH i eq_refl). lia.
Qed.

Lemma tag_shrinking : shrinking tag.
Proof.
  intros s n rep. unfold tag.
  destruct s as [|c r]; [discriminate|].
  destruct (N.eq_dec c 60) as [->|Hc].
  - destruct (indexOf 62%N r) as [j|] eqn:E; [|discriminate].
    intros H; injection H as <- <-. apply indexOf_lt in E. simpl. lia.
  - destruct c as [|p]; [discriminate|].
    do 6 (destruct p as [p|p|]; try discriminate); congruence.
Qed.

Lemma countSpaces_le s : countSpaces s <= List.length s.
Proof.
  induction s as [|c s IH]; simpl; [lia|].
  destruct (N.eq_dec c 32) as [->|Hc]; [simpl; lia|].
  destruct c as [|p]; [lia|].
  do 6 (destruct p as [p|p|]; try lia).
Qed.

Lemma spaces_shrinking : shrinking spaces.
Proof.
  intros s n rep. unfold spaces.
  destruct (2 <=? countSpaces s) eqn:E; [|discriminate].
  intros H; injection H as <- <-. apply Nat.leb_le in E.
  pose proof (countSpaces_le s). simpl. lia.
Qed.

Lemma decodeEntities_length s : List.length (decodeEntities s) <= List.length s.
Proof.
  unfold decodeEntities.
  repeat match goal with
         | |- List.length (replaceAll (lit ?p ?r) ?t) <= _ =>
             apply Nat.le_trans with (List.length t);
             [apply replaceAll_length, lit_shrinking; simpl; lia|]
         end.
  apply Nat.le_refl.
Qed.

Lemma normalizeSpaces_length o s : List.length (normalizeSpaces o s) <= List.length s.
Proof.
  unfold normalizeSpaces.
  eapply Nat.le_trans; [apply replaceAll_length, spaces_shrinking|].
  assert (H : List.length
                (replaceClass (N.eqb 13) 10%N
                   (replaceAll (lit [13%N; 10%N] [10%N])
                      (replaceClass whitespaceLike 32%N s))) <= List.length s).
  { rewrite replaceClass_length.
    eapply Nat.le_trans; [apply replaceAll_length, lit_shrinking; simpl; lia|].
    rewrite replaceClass_length. apply Nat.le_refl. }
  destruct (negb (preserveLineBreaks o)); [rewrite replaceClass_length|]; exact H.
Qed.

Lemma truncated_length o s : (jslength (truncated o s) <= Z.max 0 (maxLength o))%Z.
Proof.
  unfold truncated. destruct (maxLength o <? jslength s)%Z eqn:E.
  - apply substring0_length.
  - apply Z.ltb_ge in E. lia.
Qed.

Lemma cleaned_length o s : (jslength (cleaned o s) <= Z.max 0 (maxLength o))%Z.
Proof.
  pose proof (truncated_length o s) as Ht. unfold cleaned, jslength in *. cbv zeta.
  set (t := truncated o s) in *.
  assert (H1 : List.length (if removeControlChars o then removeClass controlChar t else t)
               <= List.length t).
  { destruct (removeControlChars o); [apply removeClass_length | apply Nat.le_refl]. }
  set (t1 := if removeControlChars o then _ else _) in *.
  assert (H2 : List.length (if stripHTML o then decodeEntities (replaceAll tag t1) else t1)
               <= List.length t1).
  { destruct (stripHTML o); [|apply Nat.le_refl].
    eapply Nat.le_trans; [apply decodeEntities_length|].
    apply replaceAll_length, tag_shrinking. }
  set (t2 := if stripHTML o then _ else _) in *.
  assert (H3 : List.length (if normalizeWhitespace o then normalizeSpaces o t2 else t2)
               <= List.length t2).
  { destruct (normalizeWhitespace o); [apply normalizeSpaces_length | apply Nat.le_refl]. }
  set (t3 := if normalizeWhitespace o then _ else _) in *.
  clearbody t t1 t2 t3. unfold jsstring, char in *. lia.
Qed.

Lemma embedded_length s :
  List.length (embedded s) = if existsb rtlChar s then List.length s + 2 else List.length s.
Proof.
  unfold embedded. destruct (existsb rtlChar s); [|reflexivity].
  simpl. rewrite length_app. simpl. lia.
Qed.

(** What the steps after the embedding do to the length. *)
Lemma finished_length (o : options) (s : jsstring) :
  List.length
    (let s' := if trimText o then trim s else s in
     match s' with
     | [] => []
     | _ => if includes s' [0%N] then removeClass (N.eqb 0) s' else s'
     end) <= List.length s.
Proof.
  cbv zeta.
  assert (H : List.length (if trimText o then trim s else s) <= List.length s).
  { destruct (trimText o); [apply trim_length | apply Nat.le_refl]. }
  set (s' := if trimText o then _ else _) in *.
  destruct s' as [|c r] eqn:E; [simpl; lia|].
  destruct (includes (c :: r) [0%N]); [|exact H].
  eapply Nat.le_trans; [apply removeClass_length | exact H].
Qed.

(** C7, as the code has it.  A text longer than [maxLength] is cut to
    [maxLength] code units before anything else is done, and cleaning never
    lengthens it.  Two later steps can: NFC normalization, and the embedding
    of a text with right-to-left characters between two marker characters.
    So, when normalization is switched off or does not lengthen the cleaned
    text, the result has at most [max(maxLength, 0) + 2] code units, and at
    most [max(maxLength, 0)] when the text has no right-to-left character. *)
Theorem processTextRobust_length (normalizeNFC : jsstring -> jsstring)
    (text : option jsstring) (o : options) :
  (forall s, text = Some s -> handleUnicode o = true ->
     List.length (normalizeNFC (cleaned o s)) <= List.length (cleaned o s)) ->
  (forall s, text = Some s -> jslength (truncated o s) <= Z.max 0 (maxLength o))%Z
  /\ (jslength (processTextRobust normalizeNFC text o) <= Z.max 0 (maxLength o) + 2)%Z
  /\ ((forall s, text = Some s -> existsb rtlChar (normalized normalizeNFC o s) = false) ->
      (jslength (processTextRobust normalizeNFC text o) <= Z.max 0 (maxLength o))%Z).
Proof.
  intros Hnfc. split; [intros s _; apply truncated_length|].
  destruct text as [s|]; [|unfold jslength; simpl; split; intros; lia].
  assert (Hn : (jslength (normalized normalizeNFC o s) <= Z.max 0 (maxLength o))%Z).
  { pose proof (cleaned_length o s) as Hc. unfold normalized, jslength in *.
    destruct (handleUnicode o) eqn:E; [|exact Hc].
    specialize (Hnfc s eq_refl eq_refl). unfold jsstring, char in *. lia. }
  destruct s as [|c r]; [unfold jslength; simpl; split; intros; lia|].
  unfold processTextRobust.
  pose proof (finished_length o (embedded (normalized normalizeNFC o (c :: r)))) as Hf.
  cbv zeta in Hf. rewrite embedded_length in Hf. unfold jslength in *.
  set (n := normalized normalizeNFC o (c :: r)) in *.
  set (out := List.length _) in Hf |- *.
  split.
  - destruct (existsb rtlChar n); unfold jsstring, char in *; lia.
  - intros Hrtl. specialize (Hrtl _ eq_refl). fold n in Hrtl. rewrite Hrtl in Hf.
    unfold jsstring, char in *. lia.
Qed.

Lemma processTextRobust_length_witness :
  (forall s, Some (str "<b>a &amp;  b</b>") = Some s ->
     jslength (truncated (mkOptions 12 true true true true true true) s) <= Z.max 0 12)%Z
  /\ (jslength (processTextRobust (fun s => s) (Some (str "<b>a &amp;  b</b>"))
                  (mkOptions 12 true true true true true true)) <= Z.max 0 12 + 2)%Z
  /\ ((forall s, Some (str "<b>a &amp;  b</b>") = Some s ->
         existsb rtlChar
           (normalized (fun s => s) (mkOptions 12 true true true true true true) s) = false) ->
      (jslength (processTextRobust (fun s => s) (Some (str "<b>a &amp;  b</b>"))
                   (mkOptions 12 true true true true true true)) <= Z.max 0 12)%Z).
Proof.
  apply (@processTextRobust_length (fun s => s) (Some (str "<b>a &amp;  b</b>"))
           (mkOptions 12 true true true true true true)).
  intros s _ _. apply Nat.le_refl.
Defined.

(** C7 fails as stated: with [maxLength] 1 and normalization switched off,
    the one-letter Hebrew text U+05D0 is returned between the markers
    U+202B and U+202C, three code units in all. *)
Lemma processTextRobust_exceeds_maxLength :
  processTextRobust (fun s => s) (Some [1488%N]) (mkOptions 1 true false true false true true)
    = [8235%N; 1488%N; 8236%N]
  /\ ~ (jslength
          (processTextRobust (fun s => s) (Some [1488%N])
             (mkOptions 1 true false true false true true))
        <= maxLength (mkOptions 1 true false true false true true))%Z.
Proof.
  split; [reflexivity|]. vm_compute. intros H; apply H; reflexivity.
Qed.

End TextProcessorFacts.

(** ** [loginUserSecure] *)

Module LoginFacts.

Import Login.

Example emailRegex_accepts : matches emailRegex (str "ann@example.org") = true.
Proof. reflexivity. Qed.

Example emailRegex_rejects_no_dot : matches emailRegex (str "ann@example") = false.
Proof. reflexivity. Qed.

Example emailRegex_rejects_space : matches emailRegex (str "an n@example.org") = false.
Proof. reflexivity. Qed.

(** C5.  When the email is [null], empty, not a string or fails the
    regular expression, or the password is [null], not a string or shorter
    than 8 code units, [loginUserSecure] throws one of its three validation
    errors, and its trace is empty: no fetch is made. *)
Theorem loginUserSecure_validates_first (email password : value)
    (env : Z -> fetchOutcome) :
  (email = VNull \/ email = VString [] \/ isString email = false
   \/ (exists s, email = VString s /\ matches emailRegex s = false)
   \/ password = VNull \/ isString password = false
   \/ (exists s, password = VString s /\ (jslength s < 8)%Z)) ->
  exists msg,
    In msg [str "Valid email address is required";
            str "Password must be at least 8 characters long";
            str "Please enter a valid email address"]
    /\ loginUserSecure email password env = (Throw (Error msg), []).
Proof.
  intros H. unfold loginUserSecure.
  destruct (negb (truthy email) || negb (isString email)) eqn:E1.
  { eexists; split; [|reflexivity]. simpl; auto. }
  destruct (negb (truthy password) || negb (isString password)
            || (passwordLength password <? 8)%Z) eqn:E2.
  { eexists; split; [|reflexivity]. simpl; auto. }
  destruct (negb (validEmail email)) eqn:E3.
  { eexists; split; [|reflexivity]. simpl; auto. }
  exfalso.
  apply orb_false_elim in E1 as [E1a E1b].
  apply orb_false_elim in E2 as [E2 E2c]. apply orb_false_elim in E2 as [E2a E2b].
  apply negb_false_iff in E1a, E1b, E2a, E2b, E3. apply Z.ltb_ge in E2c.
  destruct H as [-> | [-> | [H | [[s [-> H]] | [-> | [H | [s [-> H]]]]]]]];
    simpl in *; try discriminate; try congruence; lia.
Qed.

Lemma loginUserSecure_validates_first_witness :
  exists msg,
    In msg [str "Valid email address is required";
            str "Password must be at least 8 characters long";
            str "Please enter a valid email address"]
    /\ loginUserSecure (VString (str "ann@example")) (VString (str "correct horse"))
         (fun _ => FetchRejects (mkError (str "TypeError") (str "Failed to fetch")))
       = (Throw (Error msg), []).
Proof.
  apply (@loginUserSecure_validates_first (VString (str "ann@example"))
           (VString (str "correct horse"))).
  right; right; right; left. exists (str "ann@example"). split; reflexivity.
Defined.

(** The loop leaves the schedule of as many fetches as it made. *)
Lemma attempts_schedule env todo attempt lastError :
  (Z.of_nat todo + attempt = maxRetries + 1)%Z ->
  exists n, n <= todo /\ (todo <> 0 -> 1 <= n)
            /\ snd (attempts env todo attempt lastError) = schedule n attempt.
Proof.
  revert attempt lastError; induction todo as [|todo IH]; intros attempt lastError Hinv.
  - exists 0; simpl; repeat split; lia.
  - simpl. destruct (tryLogin (env attempt)) as [e|s].
    2:{ exists 1; simpl; repeat split; lia. }
    destruct (noRetry e).
    { exists 1; simpl; repeat split; lia. }
    destruct (IH (attempt + 1)%Z (Some e)) as [n [Hn [Hpos Htr]]]; [lia|].
    destruct (attempts env todo (attempt + 1) (Some e)) as [res tr]; simpl in Htr.
    destruct (attempt <? maxRetries)%Z eqn:E.
    + apply Z.ltb_lt in E. assert (todo <> 0) as Hne by lia.
      specialize (Hpos Hne). exists (S n); simpl. repeat split; try lia.
      destruct n as [|n]; [lia|]. rewrite Htr. reflexivity.
    + apply Z.ltb_ge in E. assert (todo = 0) as -> by lia.
      assert (n = 0) as -> by lia. simpl in Htr. subst tr.
      exists 1; simpl; repeat split; lia.
Qed.

Lemma schedule_fetches n attempt :
  List.length (filter isFetch (schedule n attempt)) = n.
Proof.
  revert attempt; induction n as [|n IH]; intros attempt; [reflexivity|].
  destruct n as [|n]; [reflexivity|].
  change (schedule (S (S n)) attempt)
    with (Fetch attempt :: Sleep (backoff attempt) :: schedule (S n) (attempt + 1)).
  cbn [filter isFetch List.length]. rewrite IH. reflexivity.
Qed.

Lemma schedule_numbers n attempt j :
  In (Fetch j) (schedule n attempt) -> (attempt <= j)%Z.
Proof.
  revert attempt; induction n as [|n IH]; intros attempt; [intros []|].
  destruct n as [|n]; [simpl; intros [H|[]]; injection H as <-; lia|].
  change (schedule (S (S n)) attempt)
    with (Fetch attempt :: Sleep (backoff attempt) :: schedule (S n) (attempt + 1)).
  intros [H|[H|H]]; [injection H as <-; lia|discriminate|].
  apply IH in H. lia.
Qed.

Lemma schedule_starts n attempt :
  1 <= n -> exists rest, schedule n attempt = Fetch attempt :: rest.
Proof.
  destruct n as [|[|n]]; [lia| |]; intros _; eexists; reflexivity.
Qed.

(** After a fetch the schedule ends, or the backoff delay of that attempt
    and the next fetch follow. *)
Lemma schedule_spacing n attempt pre a post :
  schedule n attempt = pre ++ Fetch a :: post ->
  post = [] \/ exists post', post = Sleep (backoff a) :: Fetch (a + 1) :: post'.
Proof.
  revert attempt pre; induction n as [|n IH]; intros attempt pre H.
  - destruct pre; discriminate.
  - destruct n as [|n].
    + destruct pre as [|x [|y pre]]; simpl in H; try discriminate.
      injection H as -> <-. left; reflexivity.
    + change (schedule (S (S n)) attempt)
        with (Fetch attempt :: Sleep (backoff attempt) :: schedule (S n) (attempt + 1)) in H.
      destruct pre as [|x pre]; cbn [app] in H.
      * injection H as -> <-. right. destruct n; eexists; reflexivity.
      * injection H as <- H. destruct pre as [|y pre]; cbn [app] in H; [discriminate|].
        injection H as <- H. eapply IH; eassumption.
Qed.

(** An attempt whose error is not retried is the last one. *)
Lemma attempts_stop env k e :
  tryLogin (env k) = inl e -> noRetry e = true ->
  forall todo attempt lastError j,
    (attempt <= k)%Z ->
    In (Fetch j) (snd (attempts env todo attempt lastError)) -> (j <= k)%Z.
Proof.
  intros Hk He; induction todo as [|todo IH]; intros attempt lastError j Hle; simpl.
  - intros [].
  - destruct (Z.eq_dec attempt k) as [->|Hne].
    + rewrite Hk, He. simpl. intros [H|[]]. injection H as <-. lia.
    + destruct (tryLogin (env attempt)) as [e'|s].
      2:{ simpl. intros [H|[]]. injection H as <-. lia. }
      destruct (noRetry e').
      { simpl. intros [H|[]]. injection H as <-. lia. }
      specialize (IH (attempt + 1)%Z (Some e') j).
      destruct (attempts env todo (attempt + 1) (Some e')) as [res tr]; simpl in IH.
      destruct (attempt <? maxRetries)%Z; simpl;
        intros H; repeat (destruct H as [H|H]; try discriminate);
        try (injection H as <-; lia); apply IH; auto; lia.
Qed.

Lemma tryLogin_unauthorized r :
  status r = 401%Z \/ status r = 429%Z ->
  exists e, tryLogin (FetchResolves r) = inl e /\ noRetry e = true.
Proof.
  intros [H|H]; unfold tryLogin; rewrite H; simpl; eexists; split; reflexivity.
Qed.

(** Inputs that pass validation lead to the retry loop. *)
Lemma loginUserSecure_valid email password env :
  truthy email = true -> validEmail email = true ->
  isString password = true -> (8 <= passwordLength password)%Z ->
  loginUserSecure email password env = attempts env (Z.to_nat maxRetries) 1 None.
Proof.
  intros He Hv Hp Hl. unfold loginUserSecure.
  destruct email as [| | | | |e| |]; try discriminate.
  destruct password as [| | | | |p| |]; try discriminate.
  destruct e as [|c e]; [discriminate|].
  destruct p as [|d p]; [unfold passwordLength, jslength in Hl; simpl in Hl; lia|].
  cbn [truthy isString negb orb].
  apply Z.ltb_ge in Hl. rewrite Hl. rewrite Hv. reflexivity.
Qed.

(** C6.  With inputs that pass validation, the calls of [loginUserSecure]
    start with a fetch and number at most [maxRetries] = 3 fetches; no fetch
    is made for an attempt later than one answered with status 401 or 429;
    and each fetch is either the last call or is followed by a delay of
    [min(1000 * 2^(attempt-1), 5000)] ms and then by the next attempt's
    fetch. *)
Theorem loginUserSecure_retry_schedule (email password : value)
    (env : Z -> fetchOutcome) :
  truthy email = true -> validEmail email = true ->
  isString password = true -> (8 <= passwordLength password)%Z ->
  let tr := snd (loginUserSecure email password env) in
  maxRetries = 3%Z
  /\ List.length (filter isFetch tr) <= 3
  /\ (forall k r, In (Fetch k) tr -> env k = FetchResolves r ->
      status r = 401%Z \/ status r = 429%Z ->
      forall j, In (Fetch j) tr -> (j <= k)%Z)
  /\ (forall pre a post, tr = pre ++ Fetch a :: post ->
      post = []
      \/ exists post',
           post = Sleep (Z.min (1000 * 2 ^ (a - 1)) 5000) :: Fetch (a + 1) :: post').
Proof.
  intros He Hv Hp Hl tr.
  assert (Htr : tr = snd (attempts env (Z.to_nat maxRetries) 1 None)).
  { subst tr. rewrite loginUserSecure_valid by assumption. reflexivity. }
  destruct (@attempts_schedule env (Z.to_nat maxRetries) 1 None) as [n [Hn [_ Hs]]];
    [reflexivity|].
  rewrite <- Htr in Hs. change (Z.to_nat maxRetries) with 3 in Hn.
  split; [reflexivity|]. split; [|split].
  - rewrite Hs, schedule_fetches. exact Hn.
  - intros k r Hink Hk Hst j Hin.
    destruct (tryLogin_unauthorized r Hst) as [e [He1 He2]].
    assert (1 <= k)%Z as Hk1 by (rewrite Hs in Hink; apply schedule_numbers in Hink; lia).
    rewrite Htr in Hin. eapply attempts_stop; try eassumption. rewrite Hk. exact He1.
  - intros pre a post Hd. rewrite Hs in Hd.
    apply schedule_spacing in Hd. exact Hd.
Qed.

Lemma loginUserSecure_retry_schedule_witness :
  let tr :=
    snd (loginUserSecure (VString (str "ann@example.org")) (VString (str "correct horse"))
           (fun k =>
              if (k =? 1)%Z
              then FetchRejects (mkError (str "TypeError") (str "Failed to fetch"))
              else FetchResolves (mkResponse 401 (str "Unauthorized") None (inr VNull)))) in
  maxRetries = 3%Z
  /\ List.length (filter isFetch tr) <= 3
  /\ (forall k r, In (Fetch k) tr ->
      (if (k =? 1)%Z
       then FetchRejects (mkError (str "TypeError") (str "Failed to fetch"))
       else FetchResolves (mkResponse 401 (str "Unauthorized") None (inr VNull)))
      = FetchResolves r ->
      status r = 401%Z \/ status r = 429%Z ->
      forall j, In (Fetch j) tr -> (j <= k)%Z)
  /\ (forall pre a post, tr = pre ++ Fetch a :: post ->
      post = []
      \/ exists post',
           post = Sleep (Z.min (1000 * 2 ^ (a - 1)) 5000) :: Fetch (a + 1) :: post').
Proof.
  apply (@loginUserSecure_retry_schedule
           (VString (str "ann@example.org")) (VString (str "correct horse"))
           (fun k =>
              if (k =? 1)%Z
              then FetchRejects (mkError (str "TypeError") (str "Failed to fetch"))
              else FetchResolves (mkResponse 401 (str "Unauthorized") None (inr VNull)))).
  - reflexivity.
  - reflexivity.
  - reflexivity.
  - unfold passwordLength, jslength. simpl. lia.
Defined.

(** A run: a network failure, one second of backoff, then
    the answer 401, after which no third attempt is made. *)
Example loginUserSecure_run :
  loginUserSecure (VString (str "ann@example.org")) (VString (str "correct horse"))
    (fun k =>
       if (k =? 1)%Z
       then FetchRejects (mkError (str "TypeError") (str "Failed to fetch"))
       else FetchResolves (mkResponse 401 (str "Unauthorized") None (inr VNull)))
  = (Throw (Error (str "Invalid email or password")), [Fetch 1; Sleep 1000; Fetch 2]).
Proof. reflexivity. Qed.

End LoginFacts.

(** ** [ApiClient] *)

Module ApiClientFacts.

Import ApiClient.

(** The default that stands in for omitted options changes nothing in the
    building of the configuration. *)
Lemma configError_orEmpty options a :
  configError (orEmpty options) a = configError options a.
Proof.
  destruct options; reflexivity.
Qed.

(** A fetch is made in an attempt exactly when the browser is online and
    the configuration could be built, and it bears the attempt's number. *)
Lemma tryRequest_fetch options a attempt j :
  In (Fetch j) (snd (tryRequest options a attempt))
  <-> j = attempt /\ online a = true /\ configError options a = None.
Proof.
  unfold tryRequest. destruct (online a); cbn [negb].
  2:{ simpl. split; [intros [] | intros [_ [H _]]; discriminate]. }
  destruct (configError options a) as [cause|].
  { simpl. split; [intros [] | intros [_ [_ H]]; discriminate]. }
  assert (Hin : forall tr, tr = [Fetch attempt] \/ tr = [Fetch attempt; Logout] ->
                  (In (Fetch j) tr <-> j = attempt /\ true = true /\ @None typeErrorCause = None)).
  { intros tr [-> | ->]; simpl; split;
      try (intros [H|H]; [injection H as <-; auto | try destruct H as [H|H];
                                                    try discriminate; contradiction]);
      intros [-> _]; auto. }
  destruct (fetched a) as [e|r]; [apply Hin; auto|].
  destruct (negb (statusOk (status r))); [|apply Hin; auto].
  destruct (status r =? 401)%Z; apply Hin; auto.
Qed.

(** The fetches of the loop bear the numbers of its attempts. *)
Lemma attempts_fetch_from options env todo :
  forall attempt c lastError j,
    In (Fetch j) (snd (attempts options env todo attempt c lastError)) -> (attempt <= j)%Z.
Proof.
  induction todo as [|todo IH]; intros attempt c lastError j; simpl; [intros []|].
  pose proof (tryRequest_fetch options (env attempt) attempt j) as Hone.
  destruct (tryRequest options (env attempt) attempt) as [[e|d] tr]; simpl in *.
  2:{ intros H. apply Hone in H as [-> _]. lia. }
  destruct (shouldNotRetry e); simpl.
  { intros H. apply Hone in H as [-> _]. lia. }
  match goal with
  | |- context [attempts options env todo ?a ?c' ?l] =>
      specialize (IH a c' l j); destruct (attempts options env todo a c' l) as [[res c''] tr']
  end.
  simpl in IH.
  destruct (attempt <? maxRetries _)%Z; simpl; intros H;
    apply in_app_iff in H as [H|H]; try (apply Hone in H as [-> _]; lia);
    try (destruct H as [H|H]; [discriminate|]); apply IH in H; lia.
Qed.

Lemma attempts_first_fetch options env todo attempt c lastError :
  todo <> 0 ->
  (In (Fetch attempt) (snd (attempts options env todo attempt c lastError))
   <-> online (env attempt) = true /\ configError options (env attempt) = None).
Proof.
  intros Htodo. destruct todo as [|todo]; [congruence|]. simpl.
  pose proof (tryRequest_fetch options (env attempt) attempt attempt) as Hone.
  assert (Hhere : forall tr,
            In (Fetch attempt) tr
            <-> attempt = attempt /\ online (env attempt) = true
                /\ configError options (env attempt) = None ->
            (In (Fetch attempt) tr
             <-> online (env attempt) = true /\ configError options (env attempt) = None)).
  { intros tr H. rewrite H. tauto. }
  destruct (tryRequest options (env attempt) attempt) as [[e|d] tr]; simpl in Hone;
    [|simpl; apply Hhere; exact Hone].
  destruct (shouldNotRetry e); [simpl; apply Hhere; exact Hone|].
  match goal with
  | |- context [attempts options env todo ?a ?c' ?l] =>
      pose proof (@attempts_fetch_from options env todo a c' l attempt) as Hlater;
      destruct (attempts options env todo a c' l) as [[res c''] tr']
  end.
  simpl in Hlater.
  assert (Hno : ~ In (Fetch attempt) tr') by (intros H; apply Hlater in H; lia).
  apply Hhere in Hone. rewrite <- Hone.
  destruct (attempt <? maxRetries _)%Z; simpl; rewrite in_app_iff; simpl;
    split; auto; intros [H|H]; auto; try contradiction.
  destruct H as [H|H]; [discriminate | contradiction].
Qed.

(** C1.  Let the last failure be recorded at time [t].  While the failures
    have reached the threshold and fewer than [resetTimeout] ms have passed
    since [t], [request] throws 'Service temporarily unavailable. Please
    try again later.', leaves the client as it is and makes no call at all.
    Once [resetTimeout] ms have passed, the breaker is no longer open and
    [request] goes on to what follows the breaker check: the endpoint check
    and the loop of attempts.  There, given an endpoint that is a non-empty
    string and at least one attempt allowed, the fetch of the first attempt
    is made exactly when the browser is online and the configuration for
    [fetch] can be put together from the options. *)
Theorem request_circuit_breaker (c : client) (now t : Z) (endpoint options : value)
    (env : Z -> attemptEnv) :
  lastFailure (breaker c) = Some t ->
  ((threshold (breaker c) <= failures (breaker c))%Z ->
   (now - t < resetTimeout (breaker c))%Z ->
   request c now endpoint options env
   = (Throw (Error (str "Service temporarily unavailable. Please try again later.")), c, []))
  /\ ((resetTimeout (breaker c) <= now - t)%Z ->
      isCircuitOpen c now = false
      /\ request c now endpoint options env = attemptRequest c endpoint (orEmpty options) env
      /\ (truthy endpoint = true -> isString endpoint = true -> (1 <= maxRetries c)%Z ->
          (In (Fetch 1) (snd (request c now endpoint options env))
           <-> online (env 1%Z) = true /\ configError options (env 1%Z) = None))).
Proof.
  intros Hlast. split.
  - intros Hth Hel. unfold request, isCircuitOpen. rewrite Hlast.
    apply Z.leb_le in Hth. rewrite Hth. apply Z.ltb_lt in Hel. rewrite Hel. reflexivity.
  - intros Hel.
    assert (Hopen : isCircuitOpen c now = false).
    { unfold isCircuitOpen. rewrite Hlast. apply Z.ltb_ge in Hel. rewrite Hel.
      destruct (threshold (breaker c) <=? failures (breaker c))%Z; reflexivity. }
    split; [exact Hopen|]. unfold request. rewrite Hopen. split; [reflexivity|].
    intros Htr Hstr Hmax. unfold attemptRequest. rewrite Htr, Hstr. cbn [negb orb].
    rewrite <- (configError_orEmpty options). apply attempts_first_fetch. lia.
Qed.

Lemma request_circuit_breaker_witness :
  request tripped 60999 (VString (str "/users")) VUndefined alwaysDown
  = (Throw (Error (str "Service temporarily unavailable. Please try again later.")),
     tripped, [])
  /\ In (Fetch 1) (snd (request tripped 61000 (VString (str "/users")) VUndefined alwaysDown)).
Proof.
  split.
  - apply (proj1 (@request_circuit_breaker tripped 60999 1000 (VString (str "/users"))
                    VUndefined alwaysDown eq_refl)); simpl; lia.
  - apply (proj2 (@request_circuit_breaker tripped 61000 1000 (VString (str "/users"))
                    VUndefined alwaysDown eq_refl)); try reflexivity; try (simpl; lia).
    split; reflexivity.
Defined.

(** The tripped breaker one millisecond before and at the end of
    the reset timeout. *)
Example request_blocked :
  request tripped 60999 (VString (str "/users")) VUndefined alwaysDown
  = (Throw unavailable, tripped, []).
Proof. reflexivity. Qed.

Example request_let_through :
  snd (request tripped 61000 (VString (str "/users")) VUndefined alwaysDown)
  = [Fetch 1; Sleep 1000; Fetch 2; Sleep 2000; Fetch 3].
Proof. reflexivity. Qed.

(** With [null] for options no attempt gets as far as [fetch]: each one
    ends in the [TypeError] of reading [options.headers]. *)
Example request_null_options :
  request tripped 61000 (VString (str "/users")) VNull alwaysDown
  = (Throw (mkError (str "TypeError")
              (str "Cannot read properties of null (reading 'headers')")),
     tripped, [Sleep 1000; Sleep 2000]).
Proof. reflexivity. Qed.

(** A truthy message of the error body that is not a string is turned into
    one: the 400 answer below is not taken for an invalid request, and is
    tried three times. *)
Example request_numeric_message :
  request tripped 61000 (VString (str "/users")) VUndefined
    (fun _ => browser true
                (FetchResolves
                   (mkResponse 400 (str "Bad Request") None
                      (Some (VObject [(str "message", VNumber 42)])))) 0)
  = (Throw (Error (str "42")), tripped, [Fetch 1; Sleep 1000; Fetch 2; Sleep 2000; Fetch 3]).
Proof. reflexivity. Qed.

(** [parseInt] on an expiry time, a signed hexadecimal number, a number
    followed by letters, and two strings without a digit. *)
Example parseInt_reads :
  parseInt (str "1767225600000") = Some 1767225600000%Z
  /\ parseInt (str "  -0x1F") = Some (-31)%Z
  /\ parseInt (str "12px") = Some 12%Z
  /\ parseInt (str "soon") = None
  /\ parseInt (str "0x") = None.
Proof. repeat split. Qed.

(** With a token that is still valid, the authentication header is set on
    [config.headers], which is [options.headers] when the options have
    any: a string there makes every attempt end in a [TypeError] before
    the fetch, an object does not. *)
Example request_headers_not_object :
  let signedIn (_ : Z) :=
    mkAttemptEnv true (Some (str "abc.def.ghi")) (Some (str "1767225600000"))
      1700000000000
      (FetchResolves (mkResponse 200 (str "OK") None (Some (VObject [])))) 0 engineMessage in
  request tripped 61000 (VString (str "/users"))
    (VObject [(str "headers", VString (str "X-Trace: 1"))]) signedIn
  = (Throw (mkError (str "TypeError") (str "Cannot create property 'Authorization'")),
     tripped, [Sleep 1000; Sleep 2000])
  /\ request tripped 61000 (VString (str "/users"))
       (VObject [(str "headers", VObject [(str "X-Trace", VString (str "1"))])]) signedIn
     = (Return (Some (VObject [])), resetBreaker tripped, [Fetch 1]).
Proof. split; reflexivity. Qed.

End ApiClientFacts.


(** ** [DatabaseService.executeQuery] *)

Module ExecuteQueryFacts.

Import Database DatabaseRuns.

(** The class of an error, by the tests of the [catch] block. *)
Lemma classify_tests e :
  match classify e with
  | Deadlock => isDeadlockError e = true
  | Connection => isDeadlockError e = false /\ isConnectionError e = true
  | Constraint =>
      isDeadlockError e = false /\ isConnectionError e = false
      /\ isConstraintError e = true
  | Timeout =>
      isDeadlockError e = false /\ isConnectionError e = false
      /\ isConstraintError e = false /\ isTimeoutError e = true
  | Generic =>
      isDeadlockError e = false /\ isConnectionError e = false
      /\ isConstraintError e = false /\ isTimeoutError e = false
  end.
Proof.
  unfold classify.
  destruct (isDeadlockError e); [reflexivity|].
  destruct (isConnectionError e); [split; reflexivity|].
  destruct (isConstraintError e); [repeat split|].
  destruct (isTimeoutError e); repeat split.
Qed.

(** The pool, once there, stays. *)
Lemma tryQuery_pool s s' a :
  hasPool s = true -> hasPool s' = true -> tryQuery s' a = tryQuery s a.
Proof. intros H H'. unfold tryQuery, getConnection. rewrite H, H'. reflexivity. Qed.

(** A loop with a pass to make makes one. *)
Lemma attempts_nonempty env todo attempt s conn :
  snd (attempts env (S todo) attempt s conn) <> [].
Proof.
  cbn [attempts]. cbv zeta.
  destruct (tryQuery s (env attempt)) as [[e|r] got]; [|discriminate].
  destruct (classify e);
    try discriminate;
    destruct (attempt + 1 <? retryAttempts s)%Z; try discriminate.
  - destruct (attempts env todo (attempt + 1) s (conn || got)); discriminate.
  - destruct (reset (env attempt)); [discriminate|].
    destruct (attempts env todo (attempt + 1) (withPool s) (conn || got)); discriminate.
Qed.

(** What one pass is: the first pass of the loop, and the loop that
    follows it, if one does. *)
Lemma attempts_step env todo attempt s conn res passes :
  attempts env (S todo) attempt s conn = (res, passes) ->
  exists p rest,
    passes = p :: rest /\ failuresBefore p = attempt /\
    match caught p with
    | None =>
        rest = [] /\ exists r, fst (tryQuery s (env attempt)) = inr r /\ res = Return r
    | Some e =>
        fst (tryQuery s (env attempt)) = inl e
        /\ ((rest = [] /\ ~ retried (retryAttempts s) attempt (env attempt) e
             /\ stopped (retryAttempts s) attempt (env attempt) e res)
            \/ (retried (retryAttempts s) attempt (env attempt) e
                /\ exists s' conn',
                     retryAttempts s' = retryAttempts s
                     /\ (hasPool s = true -> hasPool s' = true)
                     /\ attempts env todo (attempt + 1) s' conn' = (res, rest)))
    end.
Proof.
  cbn [attempts]. cbv zeta.
  destruct (tryQuery s (env attempt)) as [[e|r] got].
  2:{ intros H; injection H as <- <-. do 2 eexists. split; [reflexivity|].
      split; [reflexivity|]. cbn [caught fst]. split; [reflexivity|]. eauto. }
  pose proof (classify_tests e) as Htests.
  assert (Hlast : forall thrown cs,
            ~ retried (retryAttempts s) attempt (env attempt) e ->
            stopped (retryAttempts s) attempt (env attempt) e (Throw thrown) ->
            (Throw thrown, [mkPass attempt (Some e) cs]) = (res, passes) ->
            exists p rest,
              passes = p :: rest /\ failuresBefore p = attempt /\
              match caught p with
              | None =>
                  rest = [] /\ exists r, @inl dbError rows e = inr r /\ res = Return r
              | Some e0 =>
                  @inl dbError rows e = inl e0
                  /\ ((rest = [] /\ ~ retried (retryAttempts s) attempt (env attempt) e0
                       /\ stopped (retryAttempts s) attempt (env attempt) e0 res)
                      \/ (retried (retryAttempts s) attempt (env attempt) e0
                          /\ exists s' conn',
                               retryAttempts s' = retryAttempts s
                               /\ (hasPool s = true -> hasPool s' = true)
                               /\ attempts env todo (attempt + 1) s' conn' = (res, rest)))
              end).
  { intros thrown cs Hnot Hstop H; injection H as <- <-. do 2 eexists.
    split; [reflexivity|]. split; [reflexivity|]. cbn [caught].
    split; [reflexivity|]. left. split; [reflexivity|]. split; assumption. }
  cbn [fst].
  destruct (classify e) eqn:Ec.
  - destruct (attempt + 1 <? retryAttempts s)%Z eqn:El.
    + destruct (attempts env todo (attempt + 1) s (conn || got)) as [res' tr] eqn:Er.
      intros H; injection H as <- <-. do 2 eexists. split; [reflexivity|].
      split; [reflexivity|]. cbn [caught]. split; [reflexivity|]. right.
      apply Z.ltb_lt in El. split; [split; [exact El | left; exact Htests]|].
      exists s, (conn || got). split; [reflexivity|]. split; [trivial | exact Er].
    + apply Z.ltb_ge in El. apply Hlast.
      * intros [H _]. lia.
      * unfold stopped. rewrite Ec. split; [lia | reflexivity].
  - destruct Htests as [Hd Hc].
    destruct (attempt + 1 <? retryAttempts s)%Z eqn:El.
    + apply Z.ltb_lt in El. destruct (reset (env attempt)) as [e'|] eqn:Hreset.
      * apply Hlast.
        -- intros [_ [H|[_ [_ H]]]]; congruence.
        -- unfold stopped. rewrite Ec. right. split; [exact El|]. eauto.
      * destruct (attempts env todo (attempt + 1) (withPool s) (conn || got))
          as [res' tr] eqn:Er.
        intros H; injection H as <- <-. do 2 eexists. split; [reflexivity|].
        split; [reflexivity|]. cbn [caught]. split; [reflexivity|]. right.
        split; [split; [exact El | right; auto]|].
        exists (withPool s), (conn || got). split; [reflexivity|].
        split; [reflexivity | exact Er].
    + apply Z.ltb_ge in El. apply Hlast.
      * intros [H _]. lia.
      * unfold stopped. rewrite Ec. left. split; [lia | reflexivity].
  - destruct Htests as [Hd [Hc _]]. apply Hlast.
    + intros [_ [H|[_ [H _]]]]; congruence.
    + unfold stopped. rewrite Ec. reflexivity.
  - destruct Htests as [Hd [Hc _]]. apply Hlast.
    + intros [_ [H|[_ [H _]]]]; congruence.
    + unfold stopped. rewrite Ec. reflexivity.
  - destruct Htests as [Hd [Hc _]]. apply Hlast.
    + intros [_ [H|[_ [H _]]]]; congruence.
    + unfold stopped. rewrite Ec. reflexivity.
Qed.

(** The passes of the loop, by induction on the passes that remain: what
    each pass caught is what the driver did in it, and whether another
    pass follows is decided by the error and the number of failures. *)
Lemma attempts_passes env todo :
  forall attempt s conn res passes,
    todo = Z.to_nat (retryAttempts s - attempt) ->
    attempts env todo attempt s conn = (res, passes) ->
    List.length passes <= todo
    /\ forall pre p post,
         passes = pre ++ p :: post ->
         failuresBefore p = (attempt + Z.of_nat (List.length pre))%Z
         /\ exists s',
              (hasPool s = true -> hasPool s' = true)
              /\ match caught p with
                 | None =>
                     post = []
                     /\ exists r, fst (tryQuery s' (env (failuresBefore p))) = inr r
                                  /\ res = Return r
                 | Some e =>
                     fst (tryQuery s' (env (failuresBefore p))) = inl e
                     /\ (post <> []
                         <-> retried (retryAttempts s) (failuresBefore p)
                               (env (failuresBefore p)) e)
                     /\ (post = [] ->
                         stopped (retryAttempts s) (failuresBefore p)
                           (env (failuresBefore p)) e res)
                 end.
Proof.
  induction todo as [|todo IH]; intros attempt s conn res passes Hinv Hrun.
  - simpl in Hrun. injection Hrun as <- <-. split; [simpl; lia|].
    intros [|x pre] p post H; discriminate.
  - pose proof Hrun as Hstep.
    apply attempts_step in Hstep as [p0 [rest [-> [Hno Hcase]]]].
    destruct (caught p0) as [e0|] eqn:Ec0.
    2:{ destruct Hcase as [-> [r [Hr ->]]]. split; [simpl; lia|].
        intros [|x [|y pre]] p post H; try discriminate.
        injection H as <- <-. split; [simpl; lia|].
        exists s. split; [trivial|]. rewrite Ec0, Hno. split; [reflexivity|]. eauto. }
    destruct Hcase as [Htry [[-> [Hnot Hstop]] | [Hre [s' [conn' [Hs' [Hpool Hrun']]]]]]].
    + split; [simpl; lia|].
      intros [|x [|y pre]] p post H; try discriminate.
      injection H as <- <-. split; [simpl; lia|].
      exists s. split; [trivial|]. rewrite Ec0, Hno. split; [exact Htry|].
      split; [split; [congruence | intros H; contradiction]|]. intros _. exact Hstop.
    + pose proof Hrun' as Hnext.
      assert (Htodo : todo = Z.to_nat (retryAttempts s' - (attempt + 1)))
        by (rewrite Hs'; lia).
      apply IH in Hrun' as [Hlen Hrest]; [|exact Htodo].
      split; [simpl; lia|].
      intros [|x pre] p post H; simpl in H; injection H as <- H.
      * subst post. split; [simpl; lia|].
        exists s. split; [trivial|]. rewrite Ec0, Hno. split; [exact Htry|].
        split; [split; [intros _; exact Hre|]|].
        -- intros _ Hnil. subst rest. destruct Hre as [Hlt _].
           destruct todo as [|todo]; [lia|].
           apply (@attempts_nonempty env todo (attempt + 1) s' conn').
           rewrite Hnext. reflexivity.
        -- intros Hnil. exfalso. subst rest. destruct Hre as [Hlt _].
           destruct todo as [|todo]; [lia|].
           apply (@attempts_nonempty env todo (attempt + 1) s' conn').
           rewrite Hnext. reflexivity.
      * destruct (Hrest _ _ _ H) as [Hnum [s'' [Hpool' Hp]]]. split.
        { rewrite Hnum. simpl List.length. lia. }
        exists s''. split; [auto|]. rewrite <- Hs'. exact Hp.
Qed.

(** C4, amended.  The [catch] block makes its tests in the order deadlock,
    connection, constraint violation, timeout, and takes an error by the
    first that holds.  For a non-empty query string and acceptable
    parameters, [executeQuery] makes at most [retryAttempts] passes, three
    for a service as constructed, and at least one if a pass is allowed.
    What a pass catches is what the driver did in it.  A pass that caught
    an error is followed by another exactly when fewer than [retryAttempts]
    failures have occurred and either the error passes the deadlock test or
    it passes the connection test and the pool could be set up anew.  An
    error that fails the deadlock and the connection test and passes the
    constraint test, or only the timeout test, ends the call in the pass
    that caught it, with 'Database constraint violation: ...' or 'Database
    query timed out - operation took too long'.  A deadlock that is not
    followed by another pass has used all [retryAttempts] passes and ends
    the call with 'Database deadlock - operation failed after retries'; a
    connection error likewise, with 'Database connection failed after
    retries', unless the pool could not be set up anew, whose error is then
    thrown. *)
Theorem executeQuery_retry_policy (s : service) (query params : value)
    (env : Z -> attemptEnv) :
  truthy query = true -> isString query = true -> badParams params = false ->
  let res := fst (executeQuery s query params env) in
  let passes := snd (executeQuery s query params env) in
  let limit := retryAttempts s in
  retryAttempts constructor = 3%Z
  /\ List.length passes <= Z.to_nat limit
  /\ ((1 <= limit)%Z -> passes <> [])
  /\ forall pre p post,
       passes = pre ++ p :: post ->
       let a := env (failuresBefore p) in
       failuresBefore p = Z.of_nat (List.length pre)
       /\ (hasPool s = true ->
           match caught p with
           | None => exists r, fst (tryQuery s a) = inr r /\ res = Return r /\ post = []
           | Some e => fst (tryQuery s a) = inl e
           end)
       /\ forall e, caught p = Some e ->
            (post <> []
             <-> (failuresBefore p + 1 < limit)%Z
                 /\ (isDeadlockError e = true
                     \/ (isDeadlockError e = false /\ isConnectionError e = true
                         /\ reset a = None)))
            /\ (isDeadlockError e = false -> isConnectionError e = false ->
                isConstraintError e = true ->
                post = []
                /\ res = Throw (Error (str "Database constraint violation: "
                                       ++ parseConstraintError e)))
            /\ (isDeadlockError e = false -> isConnectionError e = false ->
                isConstraintError e = false -> isTimeoutError e = true ->
                post = []
                /\ res = Throw (Error (str "Database query timed out - operation took too long")))
            /\ (isDeadlockError e = true -> post = [] ->
                List.length passes = Z.to_nat limit
                /\ res = Throw (Error (str "Database deadlock - operation failed after retries")))
            /\ (isDeadlockError e = false -> isConnectionError e = true -> post = [] ->
                (List.length passes = Z.to_nat limit
                 /\ res = Throw (Error (str "Database connection failed after retries")))
                \/ (exists e', reset a = Some e' /\ res = Throw e')).
Proof.
  intros Hq Hs Hp res passes limit. subst limit. split; [reflexivity|].
  assert (Hrun : attempts env (Z.to_nat (retryAttempts s)) 0 s false = (res, passes)).
  { subst res passes. unfold executeQuery. rewrite Hq, Hs, Hp. simpl.
    destruct (attempts env (Z.to_nat (retryAttempts s)) 0 s false); reflexivity. }
  assert (Hfirst : (1 <= retryAttempts s)%Z -> passes <> []).
  { intros Hl. destruct (Z.to_nat (retryAttempts s)) as [|n] eqn:En; [lia|].
    pose proof (@attempts_nonempty env n 0 s false) as H. rewrite Hrun in H. exact H. }
  apply attempts_passes in Hrun as [Hlen Hall]; [|f_equal; lia].
  split; [exact Hlen|]. split; [exact Hfirst|].
  intros pre p post Hd a. destruct (Hall _ _ _ Hd) as [Hnum [s' [Hpool Hp']]]. clear Hall.
  split; [lia|]. split.
  { intros Hhas. specialize (Hpool Hhas).
    destruct (caught p) as [e|].
    - destruct Hp' as [Htry _]. rewrite <- (@tryQuery_pool s s' _ Hhas Hpool). exact Htry.
    - destruct Hp' as [Hnil [r [Hr Hres]]]. exists r.
      rewrite <- (@tryQuery_pool s s' _ Hhas Hpool). auto. }
  intros e Hc. rewrite Hc in Hp'. destruct Hp' as [_ [Hiff Hlast]].
  fold a in Hiff, Hlast.
  assert (Hempty : isDeadlockError e = false -> isConnectionError e = false -> post = []).
  { intros H1 H2. destruct post as [|x post]; [reflexivity|]. exfalso.
    assert (Hne : x :: post <> []) by discriminate.
    apply Hiff in Hne as [_ [H|[_ [H _]]]]; congruence. }
  pose proof (classify_tests e) as Htests. unfold stopped in Hlast.
  split; [exact Hiff|]. split; [|split; [|split]].
  - intros H1 H2 H3. split; [auto|]. specialize (Hlast (Hempty H1 H2)).
    destruct (classify e); try exact Hlast; intuition congruence.
  - intros H1 H2 H3 H4. split; [auto|]. specialize (Hlast (Hempty H1 H2)).
    destruct (classify e); try exact Hlast; intuition congruence.
  - intros H1 Hnil. specialize (Hlast Hnil).
    destruct (classify e); try (exfalso; intuition congruence).
    destruct Hlast as [Hlim Hres]. split; [|exact Hres].
    subst post. rewrite Hd, length_app in *. simpl in *. lia.
  - intros H1 H2 Hnil. specialize (Hlast Hnil).
    destruct (classify e); try (exfalso; intuition congruence).
    destruct Hlast as [[Hlim Hres] | [_ Hres]]; [left | right; exact Hres].
    split; [|exact Hres]. subst post. rewrite Hd, length_app in *. simpl in *. lia.
Qed.

Lemma executeQuery_retry_policy_witness :
  (List.length (snd (executeQuery ready (VString (str "SELECT 1")) (VArray []) deadlocked))
   = Z.to_nat (retryAttempts ready)
   /\ fst (executeQuery ready (VString (str "SELECT 1")) (VArray []) deadlocked)
      = Throw (Error (str "Database deadlock - operation failed after retries")))
  /\ (snd (executeQuery ready (VString (str "INSERT INTO users VALUES (7)")) (VArray [])
             (rejecting duplicate))
      = [mkPass 0 (Some duplicate) [Release]]
      /\ fst (executeQuery ready (VString (str "INSERT INTO users VALUES (7)")) (VArray [])
                (rejecting duplicate))
         = Throw (Error (str "Database constraint violation: "
                         ++ parseConstraintError duplicate))).
Proof.
  split.
  - destruct (@executeQuery_retry_policy ready (VString (str "SELECT 1")) (VArray [])
                deadlocked eq_refl eq_refl eq_refl) as [_ [_ [_ H]]].
    destruct (H [mkPass 0 (Some deadlock) [Delay 75; Release];
                 mkPass 1 (Some deadlock) [Delay 75; Release]]
                (mkPass 2 (Some deadlock) [Release]) [] eq_refl) as [_ [_ He]].
    destruct (He deadlock eq_refl) as [_ [_ [_ [Hd _]]]].
    apply Hd; reflexivity.
  - destruct (@executeQuery_retry_policy ready (VString (str "INSERT INTO users VALUES (7)"))
                (VArray []) (rejecting duplicate) eq_refl eq_refl eq_refl) as [_ [_ [_ H]]].
    split; [reflexivity|].
    destruct (H [] (mkPass 0 (Some duplicate) [Release]) [] eq_refl) as [_ [_ He]].
    destruct (He duplicate eq_refl) as [_ [Hc _]].
    apply Hc; reflexivity.
Defined.

(** C4 fails as stated.  A timeout error whose message holds the word
    'deadlock' is taken by the deadlock test, which is made first: the
    query is tried three times, and the call ends with 'Database deadlock -
    operation failed after retries'.  A duplicate key is a constraint
    violation, by its code; when its message holds the word 'connection',
    the connection test takes it: with a pool that can be set up anew the
    query is tried three times and the call ends with 'Database connection
    failed after retries'.  Neither is thrown on its first occurrence. *)
Lemma executeQuery_retries_constraint_violation :
  isTimeoutError deadlockTimeout = true
  /\ executeQuery ready (VString (str "UPDATE accounts SET balance = 0")) (VArray [])
       (rejecting deadlockTimeout)
     = (Throw (Error (str "Database deadlock - operation failed after retries")),
        [mkPass 0 (Some deadlockTimeout) [Delay 75; Release];
         mkPass 1 (Some deadlockTimeout) [Delay 75; Release];
         mkPass 2 (Some deadlockTimeout) [Release]])
  /\ isConstraintError duplicateConnection = true
  /\ executeQuery ready (VString (str "INSERT INTO sessions VALUES (7)")) (VArray [])
       (rejecting duplicateConnection)
     = (Throw (Error (str "Database connection failed after retries")),
        [mkPass 0 (Some duplicateConnection) [Reset; Delay 1000; Release];
         mkPass 1 (Some duplicateConnection) [Reset; Delay 2000; Release];
         mkPass 2 (Some duplicateConnection) [Release]])
  /\ isTimeoutError connectionTimeout = true
  /\ List.length (snd (executeQuery ready (VString (str "SELECT 1")) (VArray [])
                         (rejecting connectionTimeout))) = 3.
Proof. repeat split. Qed.

(** Three deadlocks in a row use up the three passes. *)
Example executeQuery_deadlocked :
  executeQuery ready (VString (str "SELECT 1")) (VArray []) deadlocked
  = (Throw (Error (str "Database deadlock - operation failed after retries")),
     [mkPass 0 (Some deadlock) [Delay 75; Release];
      mkPass 1 (Some deadlock) [Delay 75; Release];
      mkPass 2 (Some deadlock) [Release]]).
Proof. reflexivity. Qed.

(** A duplicate key is not tried again. *)
Example executeQuery_duplicate :
  executeQuery ready (VString (str "INSERT INTO t VALUES (1)")) (VArray [])
    (rejecting duplicate)
  = (Throw (Error (str "Database constraint violation: Duplicate entry - record already exists")),
     [mkPass 0 (Some duplicate) [Release]]).
Proof. reflexivity. Qed.

End ExecuteQueryFacts.

(** ** [DatabaseService.transaction] *)

Module TransactionFacts.

Import Database.

(** The loop makes [execute] calls only. *)
Lemma runOperations_calls e ops i ev :
  In ev (snd (runOperations e i ops)) -> exists j, ev = Execute j.
Proof.
  revert i; induction ops as [|op ops IH]; intros i; simpl; [intros []|].
  destruct (negb (validOperation op)); [intros []|].
  destruct (txExecute e i) as [err|r].
  - simpl. intros [<-|[]]. eexists; reflexivity.
  - specialize (IH (S i)). destruct (runOperations e (S i) ops) as [[err|rs] tr];
      simpl in *; (intros [<-|H]; [eexists; reflexivity | auto]).
Qed.

(** When the loop completes, every operation was well formed and executed,
    in order, and the results are those of the executions, in order. *)
Lemma runOperations_completes e ops i rs tr :
  runOperations e i ops = (inr rs, tr) ->
  tr = map Execute (seq i (List.length ops))
  /\ Forall2 (fun j r => txExecute e j = inr r) (seq i (List.length ops)) rs
  /\ forallb validOperation ops = true.
Proof.
  revert i rs tr; induction ops as [|op ops IH]; intros i rs tr; simpl.
  - intros H; injection H as <- <-. repeat split; constructor.
  - destruct (validOperation op); simpl; [|discriminate].
    destruct (txExecute e i) as [err|r] eqn:Ei; [discriminate|].
    destruct (runOperations e (S i) ops) as [[err|rs'] tr'] eqn:Er; [discriminate|].
    intros H; injection H as <- <-.
    destruct (IH _ _ _ Er) as [-> [Hall Hvalid]].
    repeat split; [constructor; assumption | assumption].
Qed.

Lemma Forall2_executed (e : txEnv) (js : list nat) rs j :
  Forall2 (fun j r => txExecute e j = inr r) js rs -> In j js ->
  exists r, txExecute e j = inr r.
Proof.
  induction 1 as [|x r js rs Hx _ IH]; [intros []|].
  intros [<-|Hin]; [eexists; exact Hx | auto].
Qed.

(** Membership in a trace written with [::] and [++]. *)
Ltac members := repeat (rewrite in_app_iff in * || cbn [In] in * ).

(** An event that is not in an explicit list. *)
Ltac absent :=
  simpl; let H := fresh "H" in
  intros H; repeat (destruct H as [H|H]; try discriminate); try contradiction.

(** The loop ends in an error as soon as one operation is not well formed
    or is rejected by the driver. *)
Lemma runOperations_fails e ops i :
  (exists op, In op ops /\ validOperation op = false)
  \/ (exists j err, j < List.length ops /\ txExecute e (i + j) = inl err) ->
  exists err tr, runOperations e i ops = (inl err, tr).
Proof.
  intros Hbad. destruct (runOperations e i ops) as [[err|rs] tr] eqn:Er; [eauto|].
  exfalso. destruct (runOperations_completes _ _ _ Er) as [_ [Hall Hvalid]].
  destruct Hbad as [[op [Hin Hop]] | [j [err [Hj Herr]]]].
  - rewrite forallb_forall in Hvalid. rewrite (Hvalid _ Hin) in Hop. discriminate.
  - assert (Hin : In (i + j) (seq i (List.length ops))) by (apply in_seq; lia).
    destruct (@Forall2_executed e _ _ _ Hall Hin) as [r Hr]. congruence.
Qed.

(** The loop runs through when every operation is well formed and
    accepted by the driver. *)
Lemma runOperations_succeeds e ops : forall i,
  forallb validOperation ops = true ->
  (forall j, j < List.length ops -> exists r, txExecute e (i + j) = inr r) ->
  exists rs, runOperations e i ops = (inr rs, map Execute (seq i (List.length ops))).
Proof.
  induction ops as [|op ops IH]; intros i Hvalid Hexec; [exists []; reflexivity|].
  cbn [forallb] in Hvalid. apply andb_true_iff in Hvalid as [Hop Hvalid].
  cbn [runOperations]. rewrite Hop. cbn [negb].
  destruct (Hexec 0) as [r Hr]; [simpl; lia|]. rewrite Nat.add_0_r in Hr. rewrite Hr.
  destruct (IH (S i) Hvalid) as [rs Hrs].
  { intros j Hj. destruct (Hexec (S j)) as [r' Hr']; [simpl; lia|].
    exists r'. rewrite <- Hr'. f_equal. lia. }
  rewrite Hrs. exists (r :: rs). reflexivity.
Qed.

(** C2.  For a non-empty list of operations: [transaction] calls [commit]
    only after every operation has been executed with success, and when it
    returns, it returns the results of the executions in the order of the
    operations, after a [commit] and with no [rollback].  With a connection
    at hand: if some operation lacks its query or params, or is one that
    the driver rejects, or if [beginTransaction] or [commit] is rejected,
    then [rollback] is called and an error is thrown, and [commit] is not
    called in the first two cases; if every operation is well formed and
    accepted and the driver accepts [beginTransaction] and [commit], the
    results are returned after the calls begin, execute for each operation
    in order, commit and release.  Without a connection no call is made,
    and an error is thrown. *)
Theorem transaction_atomic (s : service) (ops : list operation) (e : txEnv) :
  ops <> [] ->
  let res := fst (transaction s ops e) in
  let tr := snd (transaction s ops e) in
  (In Commit tr ->
   forall j, j < List.length ops -> In (Execute j) tr /\ exists r, txExecute e j = inr r)
  /\ (forall j err, In (Execute j) tr -> txExecute e j = inl err ->
      In Rollback tr /\ ~ In Commit tr /\ exists e', res = TxThrow e')
  /\ (In Begin tr -> (exists op, In op ops /\ validOperation op = false) ->
      In Rollback tr /\ ~ In Commit tr /\ exists e', res = TxThrow e')
  /\ (forall rs, res = TxReturn rs ->
      Forall2 (fun j r => txExecute e j = inr r) (seq 0 (List.length ops)) rs
      /\ In Commit tr /\ ~ In Rollback tr)
  /\ (hasPool s = true -> txAcquire e = None ->
      ((exists op, In op ops /\ validOperation op = false)
       \/ (exists j err, j < List.length ops /\ txExecute e j = inl err) ->
       In Rollback tr /\ ~ In Commit tr /\ exists e', res = TxThrow e')
      /\ (txBegin e <> None \/ txCommit e <> None ->
          In Rollback tr /\ exists e', res = TxThrow e')
      /\ (forallb validOperation ops = true ->
          (forall j, j < List.length ops -> exists r, txExecute e j = inr r) ->
          txBegin e = None -> txCommit e = None ->
          exists rs,
            res = TxReturn rs
            /\ Forall2 (fun j r => txExecute e j = inr r) (seq 0 (List.length ops)) rs
            /\ tr = Begin :: map Execute (seq 0 (List.length ops)) ++ [Commit; TxRelease]))
  /\ (hasPool s = false \/ txAcquire e <> None ->
      tr = [] /\ exists e', res = TxThrow e').
Proof.
  intros Hne res tr. subst res tr. unfold transaction.
  destruct ops as [|op0 ops0]; [congruence|]. cbv beta iota. clear Hne.
  remember (op0 :: ops0) as ops eqn:Hops. clear Hops op0 ops0.
  unfold tryTransaction.
  destruct (getConnection s (txAcquire e)) as [err|] eqn:Hconn.
  { simpl. split; [intros []|]. split; [intros j err' []|]. split; [intros []|].
    split; [intros rs H; discriminate|]. split; [|intros _; split; eauto].
    intros Hp Ha. unfold getConnection in Hconn. rewrite Hp, Ha in Hconn. discriminate. }
  assert (Hhave : hasPool s = false \/ txAcquire e <> None -> False).
  { unfold getConnection in Hconn. destruct (hasPool s); [|discriminate].
    intros [H|H]; [discriminate | contradiction]. }
  destruct (txBegin e) as [err|] eqn:Hbegin.
  { simpl. split; [absent|]. split; [intros j err'; absent|].
    split; [intros _ _; split; [auto|]; split; [absent | eauto]|].
    split; [intros rs H; discriminate|].
    split; [|intros H; contradiction (Hhave H)].
    intros _ _. split; [intros _; split; [auto|]; split; [absent | eauto]|].
    split; [intros _; split; [auto | eauto]|]. intros _ _ H; discriminate. }
  destruct (runOperations e 0 ops) as [[err|rs] tr0] eqn:Er.
  - assert (Hcalls : forall ev, In ev tr0 -> exists j, ev = Execute j).
    { intros ev Hin. apply (@runOperations_calls e ops 0). rewrite Er. exact Hin. }
    assert (Hnc : ~ In Commit ((Begin :: tr0) ++ [Rollback; TxRelease])).
    { simpl. intros [H|H]; [discriminate|]. apply in_app_iff in H as [H|H].
      - apply Hcalls in H as [j H]; discriminate.
      - simpl in H. destruct H as [H|[H|[]]]; discriminate. }
    assert (Hrb : In Rollback ((Begin :: tr0) ++ [Rollback; TxRelease])).
    { apply in_app_iff. right. simpl. auto. }
    simpl fst. simpl snd. split; [intros H; contradiction|].
    split; [intros; split; [exact Hrb | split; [exact Hnc | eauto]]|].
    split; [intros; split; [exact Hrb | split; [exact Hnc | eauto]]|].
    split; [intros rs H; discriminate|].
    split; [|intros H; contradiction (Hhave H)].
    intros _ _. split; [intros _; split; [exact Hrb | split; [exact Hnc | eauto]]|].
    split; [intros _; split; [exact Hrb | eauto]|].
    intros Hvalid Hexec _ _. exfalso.
    destruct (@runOperations_succeeds e ops 0 Hvalid Hexec) as [rs Hrs]. congruence.
  - destruct (runOperations_completes _ _ _ Er) as [-> [Hall Hvalid]].
    assert (Hexec : forall j, j < List.length ops ->
                      In (Execute j) (map Execute (seq 0 (List.length ops)))
                      /\ exists r, txExecute e j = inr r).
    { intros j Hj. assert (In j (seq 0 (List.length ops))) as Hin by (apply in_seq; lia).
      split; [apply in_map; exact Hin | eapply Forall2_executed; eassumption]. }
    assert (Hok : forall j err, In (Execute j) (map Execute (seq 0 (List.length ops))) ->
                    txExecute e j = inl err -> False).
    { intros j err Hin Herr. apply in_map_iff in Hin as [j' [Hj' Hin]].
      injection Hj' as ->. destruct (@Forall2_executed e _ _ j Hall Hin) as [r Hr]. congruence. }
    assert (Hinvalid : (exists op, In op ops /\ validOperation op = false) -> False).
    { intros [op [Hin Hop]]. rewrite forallb_forall in Hvalid.
      rewrite (Hvalid _ Hin) in Hop. discriminate. }
    assert (Hgood : (exists op, In op ops /\ validOperation op = false)
                    \/ (exists j err, j < List.length ops /\ txExecute e j = inl err) ->
                    False).
    { intros [H|[j [err [Hj Herr]]]]; [exact (Hinvalid H)|].
      destruct (Hexec j Hj) as [_ [r Hr]]. congruence. }
    assert (Hnr : ~ In Rollback (map Execute (seq 0 (List.length ops)))).
    { rewrite in_map_iff. intros [j [H _]]. discriminate. }
    destruct (txCommit e) as [err|] eqn:Hcommit; simpl fst; simpl snd.
    + split.
      { intros _ j Hj. destruct (Hexec j Hj) as [H1 H2].
        split; [members; tauto | exact H2]. }
      split.
      { intros j err' Hin Herr. exfalso. apply (Hok j err'); [|exact Herr].
        members. intuition discriminate. }
      split; [intros _ H; exfalso; auto|].
      split; [intros rs' H; discriminate|].
      split; [|intros H; contradiction (Hhave H)].
      intros _ _. split; [intros H; contradiction (Hgood H)|].
      split; [intros _; split; [members; tauto | eauto]|].
      intros _ _ _ H; discriminate.
    + split.
      { intros _ j Hj. destruct (Hexec j Hj) as [H1 H2].
        split; [members; tauto | exact H2]. }
      split.
      { intros j err' Hin Herr. exfalso. apply (Hok j err'); [|exact Herr].
        members. intuition discriminate. }
      split; [intros _ H; exfalso; auto|].
      split.
      { intros rs' H; injection H as <-. split; [exact Hall|]. split.
        * members. tauto.
        * intros H. members. intuition discriminate. }
      split; [|intros H; contradiction (Hhave H)].
      intros _ _. split; [intros H; contradiction (Hgood H)|].
      split; [intros [H|H]; congruence|].
      intros _ _ _ _. exists rs. split; [reflexivity|]. split; [exact Hall|].
      cbn [app]. rewrite <- app_assoc. reflexivity.
Qed.

Lemma transaction_atomic_witness :
  (exists rs,
     fst (transaction ready transfer allGood) = TxReturn rs
     /\ Forall2 (fun j r => txExecute allGood j = inr r) (seq 0 (List.length transfer)) rs
     /\ snd (transaction ready transfer allGood)
        = Begin :: map Execute (seq 0 (List.length transfer)) ++ [Commit; TxRelease])
  /\ (In Rollback (snd (transaction ready transfer secondFails))
      /\ ~ In Commit (snd (transaction ready transfer secondFails))
      /\ exists e', fst (transaction ready transfer secondFails) = TxThrow e')
  /\ (In Rollback (snd (transaction ready DatabaseRuns.incomplete allGood))
      /\ ~ In Commit (snd (transaction ready DatabaseRuns.incomplete allGood))
      /\ exists e', fst (transaction ready DatabaseRuns.incomplete allGood) = TxThrow e').
Proof.
  split; [|split].
  - destruct (@transaction_atomic ready transfer allGood) as [_ [_ [_ [_ [H _]]]]];
      [discriminate|].
    destruct H as [_ [_ H]]; [reflexivity | reflexivity |].
    apply H; [reflexivity | | reflexivity | reflexivity].
    intros j _. eexists. reflexivity.
  - destruct (@transaction_atomic ready transfer secondFails) as [_ [_ [_ [_ [H _]]]]];
      [discriminate|].
    destruct H as [H _]; [reflexivity | reflexivity |].
    apply H. right. exists 1, (Error (str "Lock wait exceeded")).
    split; [simpl; lia | reflexivity].
  - destruct (@transaction_atomic ready DatabaseRuns.incomplete allGood)
      as [_ [_ [_ [_ [H _]]]]]; [discriminate|].
    destruct H as [H _]; [reflexivity | reflexivity |].
    apply H. left. exists (mkOperation (VString (str "DELETE FROM audit")) VUndefined).
    split; [simpl; auto | reflexivity].
Defined.

(** Two updates that both succeed are committed; when the second one is
    rejected, the first is rolled back with it. *)
Example transaction_commits :
  transaction ready transfer allGood
  = (TxReturn [[VNumber 0]; [VNumber 1]],
     [Begin; Execute 0; Execute 1; Commit; TxRelease]).
Proof. reflexivity. Qed.

Example transaction_rolls_back :
  transaction ready transfer secondFails
  = (TxThrow (Error (str "Transaction failed at operation 2: Lock wait exceeded")),
     [Begin; Execute 0; Execute 1; Rollback; TxRelease]).
Proof. reflexivity. Qed.

End TransactionFacts.

(** ** [BlogApiService] *)

Module BlogFacts.

Import Blog.

(** The shape of a well-formed response. *)
Lemma well_formed_success d m :
  let r := mkApiResponse true d m [] in
  (success r = true -> errors r = [])
  /\ (success r = false -> data r = VNull /\ exists msg, errors r = [msg]).
Proof. simpl. split; [reflexivity | discriminate]. Qed.

Lemma well_formed_failure m msg :
  let r := mkApiResponse false VNull m [msg] in
  (success r = true -> errors r = [])
  /\ (success r = false -> data r = VNull /\ exists msg', errors r = [msg']).
Proof. simpl. split; [discriminate | intros _; eauto]. Qed.

(** C9.  Whatever [fetch] does (it rejects, it answers with a status that
    is not ok, the body does not parse), [getPosts] and [getPost] return a
    response and do not throw; a response with [success = true] has no
    errors, and one with [success = false] has [data = null] and exactly one
    error message. *)
Theorem blog_getters_never_throw (typeErrorMessage : jsstring)
    (fetched : result response) :
  (exists r,
     getPosts typeErrorMessage fetched = inr r
     /\ (success r = true -> errors r = [])
     /\ (success r = false -> data r = VNull /\ exists msg, errors r = [msg]))
  /\ (exists r,
        getPost fetched = inr r
        /\ (success r = true -> errors r = [])
        /\ (success r = false -> data r = VNull /\ exists msg, errors r = [msg])).
Proof.
  split.
  - unfold getPosts, tryCatch, bind.
    destruct fetched as [t|r]; [eexists; split; [reflexivity | apply well_formed_failure]|].
    unfold checkOk. destruct (negb (statusOk (status r)));
      [eexists; split; [reflexivity | apply well_formed_failure]|].
    destruct (json r) as [t|d];
      [eexists; split; [reflexivity | apply well_formed_failure]|].
    destruct (readProp typeErrorMessage d (str "posts")) as [t|posts];
      eexists; (split; [reflexivity|]);
      [apply well_formed_failure | apply well_formed_success].
  - unfold getPost, tryCatch, bind.
    destruct fetched as [t|r]; [eexists; split; [reflexivity | apply well_formed_failure]|].
    unfold checkOk. destruct (negb (statusOk (status r)));
      [eexists; split; [reflexivity | apply well_formed_failure]|].
    destruct (json r) as [t|d]; eexists; (split; [reflexivity|]);
      [apply well_formed_failure | apply well_formed_success].
Qed.

(** A body that parses to [null] makes [data.posts] throw inside the
    [try], and the failure response carries the engine's message. *)
Example getPosts_null_body :
  getPosts (str "Cannot read properties of null")
    (inr (mkResponse 200 (str "OK") (inr VNull)))
  = inr (mkApiResponse false VNull (str "Failed to retrieve posts")
           [str "Cannot read properties of null"]).
Proof. reflexivity. Qed.

Example getPost_not_found :
  getPost (inr (mkResponse 404 (str "Not Found") (inr VNull)))
  = inr (mkApiResponse false VNull (str "Failed to retrieve post")
           [str "HTTP 404: Not Found"]).
Proof. reflexivity. Qed.

End BlogFacts.

(** ** [calculateAverageRobust] *)

Module AverageFacts.

Import Average.

#[global] Instance wholeLaws : ArithLaws Whole.num.
Proof.
  constructor.
  - reflexivity.
  - intros [z|]; [reflexivity | discriminate].
  - intros [z|] n; [|discriminate]. intros _. simpl.
    destruct (Z.of_nat (S n) =? 0)%Z eqn:E; [|reflexivity].
    apply Z.eqb_eq in E. lia.
  - intros x d Hd. simpl.
    destruct (0 <=? d)%Z eqn:E1; [|apply Z.leb_gt in E1; lia].
    destruct (d <=? 100)%Z eqn:E2; [|apply Z.leb_gt in E2; lia].
    simpl. discriminate.
Qed.

Section WithArith.

Context {num : Type} {A : Arith num} {L : ArithLaws num}.

Variable typeErrorMessage : typeErrorCause -> jsstring.
Variable stackOverflow : error.

Local Abbreviation value := (Average.value num).
Local Abbreviation outcome := (Average.outcome num).
Local Abbreviation symbolError := (TypeError typeErrorMessage SymbolToNumber).
Local Abbreviation average := (Average.average typeErrorMessage stackOverflow).
Local Abbreviation calculateAverageRobust :=
  (Average.calculateAverageRobust typeErrorMessage stackOverflow).

(** Induction on values, with the hypothesis for every element of an
    array. *)
Lemma value_nested_ind (P : value -> Prop) :
  P Undefined -> P Null -> (forall b, P (Bool b)) -> (forall n, P (Num n)) ->
  (forall n, P (BigInt n)) -> (forall s, P (Str s)) -> P Symbol -> P Func -> P Obj ->
  (forall items, Forall P items -> P (Arr items)) -> P Cyclic ->
  forall v, P v.
Proof.
  intros HU HN HB HNum HBig HS HSym HF HO HA HC.
  fix IH 1. intros v. destruct v as [| |b|n|n|s| | | |items|].
  - exact HU.
  - exact HN.
  - apply HB.
  - apply HNum.
  - apply HBig.
  - apply HS.
  - exact HSym.
  - exact HF.
  - exact HO.
  - apply HA. induction items as [|v items IHitems];
      constructor; [apply IH | exact IHitems].
  - exact HC.
Qed.

Lemma collect_numbers (nested : value -> outcome) o ns acc :
  (forall n, In n ns -> isFinite n = true) ->
  collect typeErrorMessage nested o (map Num ns) acc = inr (acc ++ ns).
Proof.
  revert acc; induction ns as [|n ns IH]; intros acc Hfin; simpl.
  - rewrite app_nil_r. reflexivity.
  - assert (isFinite n = true) as Hn by (apply Hfin; left; reflexivity).
    rewrite (finite_not_nan n Hn), Hn. simpl.
    rewrite IH by (intros m Hm; apply Hfin; right; exact Hm).
    rewrite <- app_assoc. reflexivity.
Qed.

Lemma sumLoop_finite o sum l :
  sumsFinite sum l = true -> sumLoop o sum l = inr (fold_left add l sum).
Proof.
  revert sum; induction l as [|n l IH]; intros sum; simpl; [reflexivity|].
  intros H; apply andb_prop in H as [H1 H2]. rewrite H1.
  rewrite andb_false_r. apply IH. exact H2.
Qed.

Lemma sumsFinite_last sum l :
  l <> [] -> sumsFinite sum l = true -> isFinite (fold_left add l sum) = true.
Proof.
  revert sum; induction l as [|n l IH]; intros sum Hne; [congruence|]. simpl.
  intros H; apply andb_prop in H as [H1 H2].
  destruct l as [|m l]; [exact H1|]. apply IH; [discriminate | exact H2].
Qed.

Lemma not_contributing (b1 b2 : bool) : negb b1 && b2 = false -> b1 || negb b2 = true.
Proof. destruct b1, b2; simpl; congruence. Qed.

(** Elements that contribute nothing leave [validNumbers] as it is, up to
    the first Symbol or cyclic array, at which the loop ends in an error. *)
Lemma collect_nothing items :
  Forall (fun v => forall xs, v = Arr xs -> existsb contributes xs = false ->
                   answered typeErrorMessage stackOverflow (forallb plain xs)
                     (average v defaultOptions)) items ->
  existsb contributes items = false ->
  forall acc,
    nothing typeErrorMessage stackOverflow (forallb plain items) acc
      (collect typeErrorMessage (fun v => average v defaultOptions) defaultOptions items acc).
Proof.
  induction 1 as [|v items Hv _ IH]; intros Hnone acc; [reflexivity|].
  simpl in Hnone. apply orb_false_elim in Hnone as [Hv' Hrest].
  specialize (IH Hrest).
  assert (Hthrow : forall e, e = symbolError \/ e = stackOverflow ->
            nothing typeErrorMessage stackOverflow false acc
              (@inl outcome (list num) (Throw e)))
    by (intros e He; exists e; split; [reflexivity | exact He]).
  destruct v as [| |b|n|n|s| | | |xs|]; cbn [contributes toNumber] in Hv';
    try (destruct b);
    try (apply not_contributing in Hv'; cbn [collect toNumber]; rewrite Hv');
    cbn [collect toNumber treatNullAsZero defaultOptions forallb plain andb];
    unfold invalid; cbn [skipInvalid defaultOptions negb]; try apply IH.
  - apply Hthrow; auto.
  - specialize (Hv xs eq_refl Hv'). unfold answered in Hv.
    destruct (forallb plain xs); cbn [andb].
    + rewrite Hv. apply IH.
    + destruct Hv as [e [-> He]]. apply Hthrow. exact He.
  - change (average Cyclic defaultOptions) with (@Throw num stackOverflow).
    apply Hthrow; auto.
Qed.

Lemma no_valid_number (v : value) :
  forall xs, v = Arr xs -> existsb contributes xs = false ->
  answered typeErrorMessage stackOverflow (forallb plain xs) (average v defaultOptions).
Proof.
  induction v as [| |b|n|n|s| | | |items IH|] using value_nested_ind;
    intros xs Hx; try discriminate.
  injection Hx as ->. intros Hnone.
  destruct xs as [|x xs]; [reflexivity|].
  pose proof (collect_nothing IH Hnone []) as H. unfold nothing, answered in *.
  cbn [Average.average].
  destruct (forallb plain (x :: xs)).
  - rewrite H. reflexivity.
  - destruct H as [e [-> He]]. exists e. split; [reflexivity | exact He].
Qed.


End WithArith.



(** In whole numbers the mean of 4, 6 and 11 is 7; strings that are not
    numbers, objects and empty arrays are passed over. *)
Example calculateAverageRobust_whole :
  calculateAverageRobust engineMessage engineOverflow
    (Arr (map Num [Some 4; Some 6; Some 11]%Z)) (Some defaultOptions)
  = RetNum (Some 7%Z).
Proof. reflexivity. Qed.

Example calculateAverageRobust_mixed :
  calculateAverageRobust engineMessage engineOverflow
    (Arr [Null; Str (str "12"); Obj; Arr [Num (Some 2%Z); Str (str "abc")]; Bool true])
    (Some defaultOptions)
  = RetNum (Some 5%Z).
Proof. reflexivity. Qed.

(** What converts to a finite number counts as one: [true] is 1 and the
    empty string is 0. *)
Example calculateAverageRobust_true_and_empty :
  calculateAverageRobust engineMessage engineOverflow (@Arr Whole.num [Bool true])
      (Some defaultOptions)
  = RetNum (Some 1%Z)
  /\ calculateAverageRobust engineMessage engineOverflow (@Arr Whole.num [Str []])
       (Some defaultOptions)
     = RetNum (Some 0%Z).
Proof. split; reflexivity. Qed.

(** An array that holds itself uses up the stack, whatever else it
    holds. *)
Example calculateAverageRobust_cyclic :
  calculateAverageRobust engineMessage engineOverflow
    (@Arr Whole.num [Num (Some 1%Z); Cyclic]) (Some defaultOptions)
  = Throw (mkError (str "RangeError") (str "Maximum call stack size exceeded")).
Proof. reflexivity. Qed.

End AverageFacts.

(** ** [ApiClient.request]: retries, breaker accounting *)

Module ApiClientRetryFacts.

Import ApiClient ApiClientTrace.

Lemma tryRequest_one_fetch options a attempt :
  fetches (snd (tryRequest options a attempt)) <= 1.
Proof.
  unfold tryRequest, fetches. destruct (online a); simpl; [|lia].
  destruct (configError options a); simpl; [lia|].
  destruct (fetched a) as [e|r]; simpl; [lia|].
  destruct (negb (statusOk (status r))); simpl; [|lia].
  destruct (status r =? 401)%Z; simpl; lia.
Qed.

Lemma fetches_app tr1 tr2 : fetches (tr1 ++ tr2) = fetches tr1 + fetches tr2.
Proof. unfold fetches. rewrite filter_app, length_app. reflexivity. Qed.

Lemma attempts_fetch_bound options env todo :
  forall attempt c lastError,
    fetches (snd (attempts options env todo attempt c lastError)) <= todo.
Proof.
  induction todo as [|todo IH]; intros attempt c lastError; simpl; [unfold fetches; simpl; lia|].
  pose proof (tryRequest_one_fetch options (env attempt) attempt) as H1.
  destruct (tryRequest options (env attempt) attempt) as [[e|d] tr]; simpl in *; [|lia].
  destruct (shouldNotRetry e); simpl; [lia|].
  match goal with
  | |- context [attempts options env todo ?a ?c' ?l] =>
      specialize (IH a c' l); destruct (attempts options env todo a c' l) as [[res c''] tr']
  end.
  simpl in IH.
  destruct (attempt <? maxRetries _)%Z; simpl; rewrite fetches_app;
    [change (Sleep ?d :: tr') with ([Sleep d] ++ tr'); rewrite fetches_app;
     unfold fetches at 2; simpl|]; lia.
Qed.

(** X1.  Whatever the network does, one call of [request] makes at most
    [maxRetries] fetches. *)
Theorem request_fetch_bound (c : client) (now : Z) (endpoint options : value)
    (env : Z -> attemptEnv) :
  fetches (snd (request c now endpoint options env)) <= Z.to_nat (maxRetries c).
Proof.
  unfold request. destruct (isCircuitOpen c now); [unfold fetches; simpl; lia|].
  unfold attemptRequest.
  destruct (negb (truthy endpoint) || negb (isString endpoint));
    [unfold fetches; simpl; lia|].
  apply attempts_fetch_bound.
Qed.

Lemma sameConfiguration_refl c : sameConfiguration c c.
Proof. unfold sameConfiguration. repeat split; reflexivity. Qed.

Lemma sameConfiguration_trans c1 c2 c3 :
  sameConfiguration c1 c2 -> sameConfiguration c2 c3 -> sameConfiguration c1 c3.
Proof.
  unfold sameConfiguration. intros [A1 [A2 [A3 [A4 [A5 A6]]]]] [B1 [B2 [B3 [B4 [B5 B6]]]]].
  repeat split; congruence.
Qed.

Lemma attempts_configuration options env todo :
  forall attempt c lastError,
    let '(res, c', _) := attempts options env todo attempt c lastError in
    sameConfiguration c c'
    /\ forall d, res = Return d ->
         failures (breaker c') = 0%Z /\ lastFailure (breaker c') = None.
Proof.
  induction todo as [|todo IH]; intros attempt c lastError; simpl.
  - split; [apply sameConfiguration_refl|]. destruct lastError; intros d H; discriminate.
  - destruct (tryRequest options (env attempt) attempt) as [[e|d] tr].
    2:{ split; [unfold sameConfiguration; simpl; repeat split | intros d' _; split; reflexivity]. }
    set (c1 := if isServerError e then recordFailure c (failedAt (env attempt)) else c).
    assert (H1 : sameConfiguration c c1).
    { subst c1. destruct (isServerError e); [|apply sameConfiguration_refl].
      unfold sameConfiguration; simpl; repeat split. }
    destruct (shouldNotRetry e).
    { split; [exact H1 | intros d H; discriminate]. }
    specialize (IH (attempt + 1)%Z c1 (Some e)).
    destruct (attempts options env todo (attempt + 1) c1 (Some e)) as [[res c'] tr'].
    destruct IH as [H2 H3].
    destruct (attempt <? maxRetries c1)%Z;
      (split; [eapply sameConfiguration_trans; eassumption | exact H3]).
Qed.

(** X2.  A call of [request] leaves the configuration of the client alone
    (base URL, timeout, retry settings, threshold and reset timeout of the
    breaker); and when it returns a response, the breaker is back to no
    failures and no last failure. *)
Theorem request_keeps_configuration (c : client) (now : Z) (endpoint options : value)
    (env : Z -> attemptEnv) :
  let res := fst (fst (request c now endpoint options env)) in
  let c' := snd (fst (request c now endpoint options env)) in
  sameConfiguration c c'
  /\ forall d, res = Return d ->
       failures (breaker c') = 0%Z /\ lastFailure (breaker c') = None.
Proof.
  unfold request. destruct (isCircuitOpen c now).
  { simpl. split; [apply sameConfiguration_refl | intros d H; discriminate]. }
  unfold attemptRequest.
  destruct (negb (truthy endpoint) || negb (isString endpoint)).
  { simpl. split; [apply sameConfiguration_refl | intros d H; discriminate]. }
  pose proof (attempts_configuration (orEmpty options) env (Z.to_nat (maxRetries c)) 1 c None) as H.
  destruct (attempts (orEmpty options) env (Z.to_nat (maxRetries c)) 1 c None) as [[res c'] tr].
  exact H.
Qed.

End ApiClientRetryFacts.

Module ApiClientBreakerFacts.

Import ApiClient ApiClientTrace.

(** An attempt whose error is not retried is the last one. *)
Lemma attempts_no_later_fetch options env k e tr0 :
  tryRequest options (env k) k = (inl e, tr0) -> shouldNotRetry e = true ->
  forall todo attempt c lastError j,
    (attempt <= k)%Z ->
    In (Fetch j) (snd (attempts options env todo attempt c lastError)) -> (j <= k)%Z.
Proof.
  intros Hk He; induction todo as [|todo IH]; intros attempt c lastError j Hle; simpl.
  - intros [].
  - assert (Hone : forall a i, In (Fetch i) (snd (tryRequest options (env a) a)) -> i = a).
    { intros a i. unfold tryRequest. destruct (online (env a)); [|intros []].
      destruct (configError options (env a)); [intros []|].
      destruct (fetched (env a)) as [e'|r];
        [|destruct (negb (statusOk (status r))); [destruct (status r =? 401)%Z|]];
        simpl; intros H; repeat (destruct H as [H|H]);
        try discriminate; try contradiction; congruence. }
    destruct (Z.eq_dec attempt k) as [->|Hne].
    + specialize (Hone k j). rewrite Hk in *. rewrite He. simpl in *.
      intros H. apply Hone in H. lia.
    + specialize (Hone attempt j).
      destruct (tryRequest options (env attempt) attempt) as [[e'|d] tr]; simpl in *.
      2:{ intros H. apply Hone in H. lia. }
      destruct (shouldNotRetry e'); simpl.
      { intros H. apply Hone in H. lia. }
      match goal with
      | |- context [attempts options env todo ?a ?c' ?l] =>
          specialize (IH a c' l j); destruct (attempts options env todo a c' l) as [[res c''] tr']
      end.
      simpl in IH.
      destruct (attempt <? maxRetries _)%Z; simpl; intros H;
        apply in_app_iff in H as [H|H]; try (apply Hone in H; lia);
        try (destruct H as [H|H]; [discriminate|]); apply IH; auto; lia.
Qed.

Lemma tryRequest_final_status options a k r :
  online a = true -> configError options a = None -> fetched a = FetchResolves r ->
  status r = 401%Z \/ status r = 403%Z \/ status r = 404%Z ->
  exists e tr, tryRequest options a k = (inl e, tr) /\ shouldNotRetry e = true
               /\ (status r = 401%Z -> In Logout tr).
Proof.
  intros Hon Hc Hf Hs. unfold tryRequest. rewrite Hon, Hc, Hf. simpl.
  destruct Hs as [H|[H|H]]; rewrite H; simpl; do 2 eexists;
    (split; [unfold statusError; rewrite H; reflexivity|]);
    (split; [reflexivity|]); intros; simpl; auto; discriminate.
Qed.

(** X3.  An attempt answered with status 401, 403 or 404 is the last one:
    no fetch is made for a later attempt.  That the attempt is answered
    supposes that its fetch is made: the browser is online and the
    configuration is put together. *)
Theorem request_stops_on_final_status (c : client) (now : Z) (endpoint options : value)
    (env : Z -> attemptEnv) (k : Z) (r : response) :
  (1 <= k)%Z -> online (env k) = true -> configError options (env k) = None ->
  fetched (env k) = FetchResolves r ->
  status r = 401%Z \/ status r = 403%Z \/ status r = 404%Z ->
  forall j, In (Fetch j) (snd (request c now endpoint options env)) -> (j <= k)%Z.
Proof.
  intros Hk Hon Hc Hf Hs j. unfold request.
  destruct (isCircuitOpen c now); [intros []|]. unfold attemptRequest.
  destruct (negb (truthy endpoint) || negb (isString endpoint)); [intros []|].
  rewrite <- (ApiClientFacts.configError_orEmpty options) in Hc.
  destruct (@tryRequest_final_status (orEmpty options) (env k) k r Hon Hc Hf Hs)
    as [e [tr [H1 [H2 _]]]].
  eapply attempts_no_later_fetch; eassumption.
Qed.

Lemma request_stops_on_final_status_witness :
  online (notFound 1) = true
  /\ (forall j,
        In (Fetch j)
          (snd (request fresh 0 (VString (str "/users/7"))
                  (VObject [(str "method", VString (str "GET"))]) notFound)) ->
        (j <= 1)%Z).
Proof.
  split; [reflexivity|].
  apply (@request_stops_on_final_status fresh 0 (VString (str "/users/7"))
           (VObject [(str "method", VString (str "GET"))]) notFound 1
           (mkResponse 404 (str "Not Found") None None)).
  - lia.
  - reflexivity.
  - reflexivity.
  - reflexivity.
  - right; right; reflexivity.
Defined.

(** A run in which every attempt meets a server failure. *)
Lemma attempts_all_fail options env todo :
  forall attempt c lastError,
    (Z.of_nat todo + attempt = maxRetries c + 1)%Z ->
    (forall k, (attempt <= k <= maxRetries c)%Z ->
       online (env k) = true /\ configError options (env k) = None
       /\ exists r, fetched (env k) = FetchResolves r /\ serverFailure (status r) = true) ->
    let '(res, c', tr) := attempts options env todo attempt c lastError in
    failures (breaker c') = (failures (breaker c) + Z.of_nat todo)%Z
    /\ match todo with
       | O => c' = c /\ res = rethrow lastError
       | S _ => lastFailure (breaker c') = Some (failedAt (env (maxRetries c)))
                /\ exists e, res = Throw e /\ isServerError e = true
       end
    /\ fetches tr = todo.
Proof.
  induction todo as [|todo IH]; intros attempt c lastError Hinv Hall.
  - simpl. repeat split. lia.
  - cbn [attempts]. destruct (Hall attempt) as [Hon [Hc [r [Hf Hs]]]]; [lia|].
    unfold tryRequest. rewrite Hon, Hc, Hf. cbn [negb].
    set (a := env attempt).
    assert (Hst : isServerError (statusError a r) = true
                  /\ shouldNotRetry (statusError a r) = false
                  /\ negb (statusOk (status r)) = true
                  /\ (status r =? 401)%Z = false).
    { unfold serverFailure in Hs. unfold statusError.
      repeat (apply orb_prop in Hs as [Hs|Hs]); apply Z.eqb_eq in Hs; rewrite Hs;
        repeat split; reflexivity. }
    destruct Hst as [Hse [Hnr [Hok H401]]].
    rewrite Hok, H401, Hse, Hnr.
    set (c1 := recordFailure c (failedAt a)).
    assert (Hm : maxRetries c1 = maxRetries c) by reflexivity.
    specialize (IH (attempt + 1)%Z c1 (Some (statusError a r))).
    destruct (attempts options env todo (attempt + 1) c1 (Some (statusError a r)))
      as [[res c'] tr'].
    destruct IH as [Hfail [Hlast Hcount]];
      [rewrite Hm; lia | intros k Hk; apply Hall; rewrite Hm in Hk; lia |].
    assert (Hfinal : failures (breaker c') = (failures (breaker c) + Z.of_nat (S todo))%Z)
      by (rewrite Hfail; subst c1; simpl; lia).
    assert (Hrest : lastFailure (breaker c') = Some (failedAt (env (maxRetries c)))
                    /\ exists e, res = Throw e /\ isServerError e = true).
    { destruct todo as [|todo].
      - destruct Hlast as [-> ->]. assert (attempt = maxRetries c) as -> by lia.
        split; [reflexivity|]. eexists; split; [reflexivity | exact Hse].
      - rewrite Hm in Hlast. exact Hlast. }
    destruct (attempt <? maxRetries c1)%Z; (split; [exact Hfinal|]; split; [exact Hrest|]).
    + change ([Fetch attempt] ++ Sleep (retryDelay c1 * pow2 (attempt - 1)) :: tr')
        with ([Fetch attempt; Sleep (retryDelay c1 * pow2 (attempt - 1))] ++ tr').
      rewrite ApiClientRetryFacts.fetches_app, Hcount. reflexivity.
    + rewrite ApiClientRetryFacts.fetches_app, Hcount. reflexivity.
Qed.



(** X5.  When the browser is offline at the first attempt, a request that
    passed the breaker and the endpoint check makes no fetch, is not retried
    and does not count as a failure: the client is unchanged. *)
Theorem request_offline (c : client) (now : Z) (endpoint options : value)
    (env : Z -> attemptEnv) :
  isCircuitOpen c now = false ->
  truthy endpoint = true -> isString endpoint = true -> (1 <= maxRetries c)%Z ->
  online (env 1%Z) = false ->
  request c now endpoint options env
  = (Throw (Error (str "No internet connection. Please check your network and try again.")),
     c, []).
Proof.
  intros Hopen Htr Hstr Hmax Hoff. unfold request. rewrite Hopen. unfold attemptRequest.
  rewrite Htr, Hstr. cbn [negb orb].
  destruct (Z.to_nat (maxRetries c)) as [|n] eqn:En; [lia|].
  cbn [attempts]. unfold tryRequest. rewrite Hoff. reflexivity.
Qed.

Lemma request_offline_witness :
  request fresh 0 (VString (str "/users")) VUndefined offline
  = (Throw (Error (str "No internet connection. Please check your network and try again.")),
     fresh, []).
Proof.
  apply (@request_offline fresh 0 (VString (str "/users")) VUndefined offline);
    try reflexivity. simpl. lia.
Defined.



End ApiClientBreakerFacts.

(** ** Regular expressions: the matcher against the language *)

Module RegexFacts.

Import RegexLang.

Lemma nullable_lang r : nullable r = true <-> lang r [].
Proof.
  induction r as [| |p|r1 IH1 r2 IH2|r1 IH1 r2 IH2|r IH]; simpl.
  - split; [discriminate | intros H; inversion H].
  - split; [constructor | reflexivity].
  - split; [discriminate | intros H; inversion H].
  - rewrite andb_true_iff, IH1, IH2. split.
    + intros [H1 H2]. change (@nil char) with (@nil char ++ []). constructor; assumption.
    + intros H. inversion H as [| |? ? s1 s2 H1 H2 E1 E2| | | |]; subst.
      apply app_eq_nil in E2 as [-> ->]. split; assumption.
  - rewrite orb_true_iff, IH1, IH2. split.
    + intros [H|H]; [apply LAltL | apply LAltR]; exact H.
    + intros H. inversion H; subst; auto.
  - split; [constructor | reflexivity].
Qed.

(** A non-empty string of a star starts with a non-empty piece. *)
Lemma lang_star_cons r c s :
  lang (Star r) (c :: s) ->
  exists s1 s2, s = s1 ++ s2 /\ lang r (c :: s1) /\ lang (Star r) s2.
Proof.
  intros H. remember (Star r) as r' eqn:Er. remember (c :: s) as t eqn:Et.
  revert c s Et. induction H as [| | | | | |r0 s1 s2 H1 _ H2 IH2]; try discriminate.
  injection Er as ->. intros c s Et. destruct s1 as [|x s1].
  - simpl in Et. apply IH2; [reflexivity | exact Et].
  - simpl in Et. injection Et as -> <-. exists s1, s2. repeat split; assumption.
Qed.

Lemma deriv_lang c r : forall s, lang (deriv c r) s <-> lang r (c :: s).
Proof.
  induction r as [| |p|r1 IH1 r2 IH2|r1 IH1 r2 IH2|r IH]; intros s; simpl.
  - split; intros H; inversion H.
  - split; intros H; inversion H.
  - destruct (p c) eqn:E; split; intros H.
    + inversion H; subst. constructor; exact E.
    + inversion H; subst. constructor.
    + inversion H.
    + inversion H; subst. congruence.
  - assert (Hseq : lang (Seq (deriv c r1) r2) s ->
                   lang (Seq r1 r2) (c :: s)).
    { intros H. inversion H as [| |? ? s1 s2 H1 H2| | | |]; subst.
      apply IH1 in H1. change (c :: s1 ++ s2) with ((c :: s1) ++ s2).
      constructor; assumption. }
    assert (Hback : lang (Seq r1 r2) (c :: s) ->
                    lang (Seq (deriv c r1) r2) s
                    \/ (lang r1 [] /\ lang (deriv c r2) s)).
    { intros H. inversion H as [| |? ? s1 s2 H1 H2 E1 E| | | |]; subst.
      destruct s1 as [|x s1]; simpl in E.
      - right. subst s2. split; [exact H1 | apply IH2; exact H2].
      - injection E as -> <-. left. constructor; [apply IH1; exact H1 | exact H2]. }
    destruct (nullable r1) eqn:En; split; intros H.
    + inversion H; subst; [apply Hseq; assumption|].
      change (c :: s) with ([] ++ c :: s). constructor;
        [apply nullable_lang; exact En | apply IH2; assumption].
    + destruct (Hback H) as [H'|[_ H']]; [apply LAltL | apply LAltR]; exact H'.
    + apply Hseq; exact H.
    + destruct (Hback H) as [H'|[H' _]]; [exact H'|].
      apply nullable_lang in H'. congruence.
  - split; intros H; inversion H; subst.
    + apply LAltL, IH1; assumption.
    + apply LAltR, IH2; assumption.
    + apply LAltL, IH1; assumption.
    + apply LAltR, IH2; assumption.
  - split; intros H.
    + inversion H as [| |? ? s1 s2 H1 H2| | | |]; subst.
      apply IH in H1. change (c :: s1 ++ s2) with ((c :: s1) ++ s2).
      constructor; assumption.
    + apply lang_star_cons in H as [s1 [s2 [-> [H1 H2]]]].
      constructor; [apply IH; exact H1 | exact H2].
Qed.

(** The matcher decides the language. *)
Lemma matches_lang r s : matches r s = true <-> lang r s.
Proof.
  revert r; induction s as [|c s IH]; intros r; simpl.
  - apply nullable_lang.
  - rewrite IH. apply deriv_lang.
Qed.

Lemma lang_star_class p s : lang (Star (Class p)) s <-> Forall (fun c => p c = true) s.
Proof.
  split.
  - intros H. remember (Star (Class p)) as r eqn:Er.
    induction H as [| | | | | |r0 s1 s2 H1 _ H2 IH2]; try discriminate; [constructor|].
    injection Er as ->. inversion H1; subst. simpl. constructor; [assumption|].
    apply IH2. reflexivity.
  - induction 1 as [|c s Hc _ IH]; [constructor|].
    change (c :: s) with ([c] ++ s). constructor; [constructor; exact Hc | exact IH].
Qed.

Lemma lang_plus_class p s :
  lang (Plus (Class p)) s <-> s <> [] /\ Forall (fun c => p c = true) s.
Proof.
  unfold Plus. split.
  - intros H. inversion H as [| |? ? s1 s2 H1 H2| | | |]; subst.
    inversion H1; subst. simpl. split; [discriminate|].
    constructor; [assumption | apply lang_star_class; exact H2].
  - intros [Hne Hall]. destruct s as [|c s]; [congruence|].
    inversion Hall; subst. change (c :: s) with ([c] ++ s).
    constructor; [constructor; assumption | apply lang_star_class; assumption].
Qed.

Lemma lang_char (k : char) s : lang (Class (N.eqb k)) s <-> s = [k].
Proof.
  split.
  - intros H. inversion H; subst. f_equal. symmetry. apply N.eqb_eq. assumption.
  - intros ->. constructor. apply N.eqb_refl.
Qed.

Lemma lang_seq r1 r2 s :
  lang (Seq r1 r2) s <-> exists s1 s2, s = s1 ++ s2 /\ lang r1 s1 /\ lang r2 s2.
Proof.
  split.
  - intros H. inversion H; subst. do 2 eexists. repeat split; eassumption.
  - intros [s1 [s2 [-> [H1 H2]]]]. constructor; assumption.
Qed.

Lemma word_class w :
  (w <> [] /\ Forall (fun c => negb (is_space c || N.eqb c 64) = true) w) <-> word w.
Proof.
  unfold word. split; intros [Hne Hall]; (split; [exact Hne|]);
    eapply Forall_impl; try exact Hall; intros c; simpl.
  - rewrite negb_true_iff, orb_false_iff, N.eqb_neq. tauto.
  - rewrite negb_true_iff, orb_false_iff, N.eqb_neq. tauto.
Qed.

Lemma emailRegex_parts (s : jsstring) :
  matches Login.emailRegex s = true ->
  exists local domain tld,
    s = local ++ 64%N :: domain ++ 46%N :: tld
    /\ word local /\ word domain /\ word tld.
Proof.
  rewrite matches_lang. unfold Login.emailRegex. cbv zeta.
  rewrite lang_seq.
  intros [l [rest [-> [Hl H]]]].
  apply lang_seq in H as [at_ [rest1 [-> [Hat H]]]].
  apply lang_seq in H as [d [rest2 [-> [Hd H]]]].
  apply lang_seq in H as [dot [t [-> [Hdot Ht]]]].
  apply lang_char in Hat, Hdot. subst at_ dot.
  apply lang_plus_class, word_class in Hl, Hd, Ht.
  exists l, d, t. split; [reflexivity|]. split; [exact Hl|]. split; [exact Hd | exact Ht].
Qed.

(** X7.  The email test of [loginUserSecure] accepts exactly the strings
    made of a word, ['@'], a word, ['.'] and a word, a word being a
    non-empty run of code units that are neither whitespace nor ['@']. *)
Theorem emailRegex_accepts_exactly (s : jsstring) :
  matches Login.emailRegex s = true
  <-> exists local domain tld,
        s = local ++ 64%N :: domain ++ 46%N :: tld
        /\ word local /\ word domain /\ word tld.
Proof.
  split; [apply emailRegex_parts|].
  rewrite matches_lang. unfold Login.emailRegex. cbv zeta. rewrite lang_seq.
  - intros [l [d [t [-> [Hl [Hd Ht]]]]]].
    apply word_class, lang_plus_class in Hl, Hd, Ht.
    exists l, (64%N :: d ++ 46%N :: t). split; [reflexivity|]. split; [exact Hl|].
    apply lang_seq. exists [64%N], (d ++ 46%N :: t). split; [reflexivity|].
    split; [apply lang_char; reflexivity|].
    apply lang_seq. exists d, (46%N :: t). split; [reflexivity|]. split; [exact Hd|].
    apply lang_seq. exists [46%N], t. split; [reflexivity|].
    split; [apply lang_char; reflexivity | exact Ht].
Qed.

Lemma word_no_at w : word w -> occurrences 64%N w = 0.
Proof.
  intros [_ Hall]. unfold occurrences. induction Hall as [|c w [_ Hc] _ IH]; [reflexivity|].
  cbn [filter]. destruct (N.eqb_spec 64%N c) as [E|E]; [congruence | exact IH].
Qed.

Lemma word_no_space w : word w -> existsb is_space w = false.
Proof.
  intros [_ Hall]. induction Hall as [|c w [Hc _] _ IH]; [reflexivity|].
  simpl. rewrite Hc, IH. reflexivity.
Qed.

Lemma occurrences_app c s1 s2 :
  occurrences c (s1 ++ s2) = occurrences c s1 + occurrences c s2.
Proof. unfold occurrences. rewrite filter_app, length_app. reflexivity. Qed.

(** X8.  An address that passes the email test has exactly one ['@'], no
    whitespace, and at least five code units. *)
Theorem emailRegex_one_at (s : jsstring) :
  matches Login.emailRegex s = true ->
  occurrences 64%N s = 1 /\ existsb is_space s = false /\ 5 <= List.length s.
Proof.
  intros H. apply emailRegex_parts in H as [l [d [t [-> [Hl [Hd Ht]]]]]].
  split; [|split].
  - change (l ++ 64%N :: d ++ 46%N :: t) with (l ++ [64%N] ++ d ++ [46%N] ++ t).
    rewrite !occurrences_app, (word_no_at Hl), (word_no_at Hd), (word_no_at Ht).
    reflexivity.
  - pose proof (word_no_space Hl) as El. pose proof (word_no_space Hd) as Ed.
    pose proof (word_no_space Ht) as Et.
    rewrite existsb_app. apply orb_false_iff. split; [exact El|].
    cbn [existsb]. apply orb_false_iff. split; [reflexivity|].
    rewrite existsb_app. apply orb_false_iff. split; [exact Ed|].
    cbn [existsb]. apply orb_false_iff. split; [reflexivity | exact Et].
  - destruct Hl as [Hl _], Hd as [Hd _], Ht as [Ht _].
    destruct l; [exfalso; apply Hl; reflexivity|].
    destruct d; [exfalso; apply Hd; reflexivity|].
    destruct t; [exfalso; apply Ht; reflexivity|].
    rewrite length_app. simpl. rewrite length_app. simpl. lia.
Qed.

Lemma emailRegex_one_at_witness :
  occurrences 64%N (str "ann@example.org") = 1
  /\ existsb is_space (str "ann@example.org") = false
  /\ 5 <= List.length (str "ann@example.org").
Proof.
  apply (@emailRegex_one_at (str "ann@example.org")). reflexivity.
Defined.

End RegexFacts.

(** ** [loginUserSecure]: what it returns and what it throws *)

Module LoginOutcomeFacts.

Import Login LoginRuns.

Lemma tryLogin_session f s :
  tryLogin f = inr s ->
  List.length (split 46%N (token s)) = 3
  /\ token s <> [] /\ truthy (user s) = true /\ isObject (user s) = true.
Proof.
  unfold tryLogin. destruct f as [e|r]; [discriminate|].
  destruct (negb (statusOk (status r))).
  { destruct (status r =? 401)%Z; [discriminate|].
    destruct (status r =? 429)%Z; [discriminate|].
    destruct (500 <=? status r)%Z; discriminate. }
  destruct (contentType r) as [ct|]; [|discriminate].
  destruct (negb (includes ct (str "application/json"))); [discriminate|].
  destruct (json r) as [e|data]; [discriminate|].
  destruct (negb (truthy data) || negb (isObject data)); [discriminate|].
  destruct (getProp data (str "token")) as [| | | | |tok| |]; try discriminate.
  destruct tok as [|c tok]; [discriminate|].
  destruct (negb (truthy (getProp data (str "user")))
            || negb (isObject (getProp data (str "user")))) eqn:Eu; [discriminate|].
  destruct (negb (List.length (split 46%N (c :: tok)) =? 3)) eqn:El; [discriminate|].
  intros H; injection H as <-. cbn [token user].
  apply orb_false_elim in Eu as [Eu1 Eu2].
  apply negb_false_iff in Eu1, Eu2, El. apply Nat.eqb_eq in El.
  repeat split; try assumption. discriminate.
Qed.

Lemma giveUp_plain lastError :
  exists m, giveUp lastError = Throw (Error m) /\ m <> [].
Proof.
  unfold giveUp. destruct lastError as [[n [|c m]]|]; eexists; split;
    try reflexivity; discriminate.
Qed.

Lemma attempts_outcome env todo :
  forall attempt lastError,
    match fst (attempts env todo attempt lastError) with
    | Return s =>
        List.length (split 46%N (token s)) = 3
        /\ token s <> [] /\ truthy (user s) = true /\ isObject (user s) = true
    | Throw e => exists m, e = Error m /\ m <> []
    end.
Proof.
  induction todo as [|todo IH]; intros attempt lastError; cbn [attempts].
  - cbn [fst]. destruct (giveUp_plain lastError) as [m [-> Hm]]. eauto.
  - destruct (tryLogin (env attempt)) as [e|s] eqn:Et.
    2:{ cbn [fst]. eapply tryLogin_session; eassumption. }
    destruct (noRetry e).
    { cbn [fst]. destruct (giveUp_plain (Some e)) as [m [-> Hm]]. eauto. }
    specialize (IH (attempt + 1)%Z (Some e)).
    destruct (attempts env todo (attempt + 1) (Some e)) as [res tr].
    destruct (attempt <? maxRetries)%Z; exact IH.
Qed.

(** X9.  Whatever arguments it gets and whatever the network does, a
    session returned by [loginUserSecure] has a non-empty token of exactly
    three parts separated by ['.'] and a user that is an object; and an
    error it throws is a plain [Error] with a non-empty message, so that the
    name of a network error ([TypeError], [AbortError]) is not passed on. *)
Theorem loginUserSecure_outcome (email password : value) (env : Z -> fetchOutcome) :
  match fst (loginUserSecure email password env) with
  | Return s =>
      List.length (split 46%N (token s)) = 3
      /\ token s <> [] /\ truthy (user s) = true /\ isObject (user s) = true
  | Throw e => exists m, e = Error m /\ m <> []
  end.
Proof.
  unfold loginUserSecure.
  destruct (negb (truthy email) || negb (isString email));
    [simpl; eexists; split; [reflexivity | discriminate]|].
  destruct (negb (truthy password) || negb (isString password)
            || (passwordLength password <? 8)%Z);
    [simpl; eexists; split; [reflexivity | discriminate]|].
  destruct (negb (validEmail email));
    [simpl; eexists; split; [reflexivity | discriminate]|].
  apply attempts_outcome.
Qed.

Lemma attempts_server_errors env todo :
  forall attempt lastError,
    (Z.of_nat todo + attempt = maxRetries + 1)%Z ->
    (forall k, (attempt <= k <= maxRetries)%Z ->
       exists r, env k = FetchResolves r /\ (500 <= status r)%Z) ->
    todo <> 0 ->
    attempts env todo attempt lastError
    = (Throw (Error (str "Server error. Please try again later")), schedule todo attempt).
Proof.
  induction todo as [|todo IH]; intros attempt lastError Hinv Hall Hne; [congruence|].
  cbn [attempts]. destruct (Hall attempt) as [r [Hr Hs]]; [lia|].
  assert (Ht : tryLogin (env attempt)
               = inl (Error (str "Server error. Please try again later"))).
  { rewrite Hr. unfold tryLogin.
    assert (E1 : negb (statusOk (status r)) = true).
    { unfold statusOk. destruct (status r <=? 299)%Z eqn:E; [apply Z.leb_le in E; lia|].
      rewrite andb_false_r. reflexivity. }
    assert (E2 : (status r =? 401)%Z = false) by (apply Z.eqb_neq; lia).
    assert (E3 : (status r =? 429)%Z = false) by (apply Z.eqb_neq; lia).
    assert (E4 : (500 <=? status r)%Z = true) by (apply Z.leb_le; lia).
    rewrite E1, E2, E3, E4. reflexivity. }
  rewrite Ht.
  change (noRetry (Error (str "Server error. Please try again later"))) with false.
  cbv iota.
  destruct todo as [|todo].
  - assert (attempt = maxRetries) as -> by lia. reflexivity.
  - rewrite IH; [|lia | intros k Hk; apply Hall; lia | discriminate].
    assert (E : (attempt <? maxRetries)%Z = true) by (apply Z.ltb_lt; lia).
    rewrite E. reflexivity.
Qed.

(** X10.  When the server answers every attempt with a status of 500 or
    more, [loginUserSecure], given valid arguments, makes all three
    attempts, waits 1000 ms and then 2000 ms between them, and throws
    'Server error. Please try again later'. *)
Theorem loginUserSecure_server_errors (email password : value)
    (env : Z -> fetchOutcome) :
  truthy email = true -> validEmail email = true ->
  isString password = true -> (8 <= passwordLength password)%Z ->
  (forall k, (1 <= k <= 3)%Z -> exists r, env k = FetchResolves r /\ (500 <= status r)%Z) ->
  loginUserSecure email password env
  = (Throw (Error (str "Server error. Please try again later")),
     [Fetch 1; Sleep 1000; Fetch 2; Sleep 2000; Fetch 3]).
Proof.
  intros He Hv Hp Hl Hall.
  rewrite LoginFacts.loginUserSecure_valid by assumption.
  rewrite attempts_server_errors; [reflexivity | reflexivity | exact Hall | discriminate].
Qed.

Lemma loginUserSecure_server_errors_witness :
  loginUserSecure (VString (str "ann@example.org")) (VString (str "correct horse")) serverDown
  = (Throw (Error (str "Server error. Please try again later")),
     [Fetch 1; Sleep 1000; Fetch 2; Sleep 2000; Fetch 3]).
Proof.
  apply (@loginUserSecure_server_errors (VString (str "ann@example.org"))
           (VString (str "correct horse")) serverDown); try reflexivity.
  - unfold passwordLength, jslength. simpl. lia.
  - intros k _. eexists. split; [reflexivity|]. simpl. lia.
Defined.

(** A network error without message is reported with the fallback text. *)
Example loginUserSecure_silent_failure :
  fst (loginUserSecure (VString (str "ann@example.org")) (VString (str "correct horse"))
         silentFailure)
  = Throw (Error (str "Login failed after multiple attempts")).
Proof. reflexivity. Qed.

End LoginOutcomeFacts.

(** ** [DatabaseService.executeQuery]: connections, results, waits *)

Module ExecuteQueryMoreFacts.

Import Database DatabaseRuns.

Lemma tryQuery_acquires s a :
  hasPool s = true -> acquire a = None -> snd (tryQuery s a) = true.
Proof.
  intros Hp Ha. unfold tryQuery, getConnection. rewrite Hp, Ha.
  destruct (setTimeout a); [reflexivity|]. destruct (execute a); reflexivity.
Qed.

Lemma attempts_release env todo :
  forall attempt s conn,
    hasPool s = true -> (forall k, acquire (env k) = None) ->
    forall p, In p (snd (attempts env todo attempt s conn)) ->
      lastCall p = Some Release /\ releases p = 1.
Proof.
  induction todo as [|todo IH]; intros attempt s conn Hp Ha p; cbn [attempts].
  - intros [].
  - pose proof (@tryQuery_acquires s (env attempt) Hp (Ha attempt)) as Hgot.
    destruct (tryQuery s (env attempt)) as [[e|r] got]; cbn [snd] in Hgot; subst got.
    2:{ rewrite orb_true_r. intros [<-|[]]. split; reflexivity. }
    rewrite orb_true_r.
    destruct (classify e).
    + destruct (attempt + 1 <? retryAttempts s)%Z.
      * specialize (IH (attempt + 1)%Z s true Hp Ha p).
        destruct (attempts env todo (attempt + 1) s true) as [res tr].
        intros [<-|H]; [split; reflexivity | apply IH; exact H].
      * intros [<-|[]]. split; reflexivity.
    + destruct (attempt + 1 <? retryAttempts s)%Z.
      * destruct (reset (env attempt)).
        -- intros [<-|[]]. split; reflexivity.
        -- specialize (IH (attempt + 1)%Z (withPool s) true eq_refl Ha p).
           destruct (attempts env todo (attempt + 1) (withPool s) true) as [res tr].
           intros [<-|H]; [split; reflexivity | apply IH; exact H].
      * intros [<-|[]]. split; reflexivity.
    + intros [<-|[]]. split; reflexivity.
    + intros [<-|[]]. split; reflexivity.
    + intros [<-|[]]. split; reflexivity.
Qed.

(** X11.  With a pool in place that hands out connections, every pass of
    [executeQuery], however it ends, releases its connection exactly once,
    as the last thing it does. *)
Theorem executeQuery_releases (s : service) (query params : value)
    (env : Z -> attemptEnv) :
  hasPool s = true -> (forall k, acquire (env k) = None) ->
  forall p, In p (snd (executeQuery s query params env)) ->
    lastCall p = Some Release /\ releases p = 1.
Proof.
  intros Hp Ha p. unfold executeQuery.
  destruct (negb (truthy query) || negb (isString query)); [intros []|].
  destruct (badParams params); [intros []|].
  apply attempts_release; assumption.
Qed.

Lemma executeQuery_releases_witness :
  hasPool ready = true
  /\ (forall p, In p (snd (executeQuery ready (VString (str "SELECT 1")) (VArray []) flaky)) ->
         lastCall p = Some Release /\ releases p = 1).
Proof.
  split; [reflexivity|].
  apply (@executeQuery_releases ready (VString (str "SELECT 1")) (VArray []) flaky).
  - reflexivity.
  - intros k. unfold flaky. destruct (k =? 0)%Z; reflexivity.
Defined.

Lemma tryQuery_rows s a r got :
  tryQuery s a = (inr r, got) -> execute a = Rows r.
Proof.
  unfold tryQuery. destruct (getConnection s (acquire a)); [discriminate|].
  destruct (setTimeout a); [discriminate|].
  destruct (execute a); try discriminate. intros H; injection H as <- _. reflexivity.
Qed.

Lemma attempts_returns env todo :
  forall attempt s conn r,
    fst (attempts env todo attempt s conn) = Return r ->
    exists pre p,
      snd (attempts env todo attempt s conn) = pre ++ [p]
      /\ caught p = None /\ execute (env (failuresBefore p)) = Rows r
      /\ forall q, In q pre -> caught q <> None.
Proof.
  induction todo as [|todo IH]; intros attempt s conn r; cbn [attempts].
  - discriminate.
  - destruct (tryQuery s (env attempt)) as [[e|r'] got] eqn:Et.
    2:{ cbn [fst snd]. intros H; injection H as <-.
        exists [], (mkPass attempt None (release (conn || got))).
        repeat split; [eapply tryQuery_rows; eassumption | intros q []]. }
    destruct (classify e).
    + destruct (attempt + 1 <? retryAttempts s)%Z; [|discriminate].
      specialize (IH (attempt + 1)%Z s (conn || got) r).
      destruct (attempts env todo (attempt + 1) s (conn || got)) as [res tr].
      cbn [fst snd] in *. intros H.
      destruct (IH H) as [pre [p [-> [H1 [H2 H3]]]]].
      eexists (_ :: pre), p. split; [reflexivity|]. split; [exact H1|].
      split; [exact H2|]. intros q [<-|Hq]; [discriminate | auto].
    + destruct (attempt + 1 <? retryAttempts s)%Z; [|discriminate].
      destruct (reset (env attempt)); [discriminate|].
      specialize (IH (attempt + 1)%Z (withPool s) (conn || got) r).
      destruct (attempts env todo (attempt + 1) (withPool s) (conn || got)) as [res tr].
      cbn [fst snd] in *. intros H.
      destruct (IH H) as [pre [p [-> [H1 [H2 H3]]]]].
      eexists (_ :: pre), p. split; [reflexivity|]. split; [exact H1|].
      split; [exact H2|]. intros q [<-|Hq]; [discriminate | auto].
    + discriminate.
    + discriminate.
    + discriminate.
Qed.

(** X12.  When [executeQuery] returns, what it returns are the rows the
    driver gave in the last pass, the only pass that caught no error. *)
Theorem executeQuery_returns_driver_rows (s : service) (query params : value)
    (env : Z -> attemptEnv) (r : rows) :
  fst (executeQuery s query params env) = Return r ->
  exists pre p,
    snd (executeQuery s query params env) = pre ++ [p]
    /\ caught p = None /\ execute (env (failuresBefore p)) = Rows r
    /\ forall q, In q pre -> caught q <> None.
Proof.
  unfold executeQuery.
  destruct (negb (truthy query) || negb (isString query)); [discriminate|].
  destruct (badParams params); [discriminate|].
  apply attempts_returns.
Qed.

Lemma executeQuery_returns_driver_rows_witness :
  exists pre p,
    snd (executeQuery ready (VString (str "SELECT 1")) (VArray []) flaky) = pre ++ [p]
    /\ caught p = None /\ execute (flaky (failuresBefore p)) = Rows [VNumber 42]
    /\ forall q, In q pre -> caught q <> None.
Proof.
  apply (@executeQuery_returns_driver_rows ready (VString (str "SELECT 1")) (VArray [])
           flaky [VNumber 42]).
  reflexivity.
Defined.

(** X13.  On a service whose pool was never set up, with at least two
    passes allowed, the first pass of [executeQuery] does not reach the
    driver: it catches 'Database connection pool not initialized', which
    counts as a connection error, and calls [resetConnection]; when that
    call is rejected, its error is what [executeQuery] throws, after this
    one pass and without any release. *)
Theorem executeQuery_without_pool (s : service) (query params : value)
    (env : Z -> attemptEnv) (e' : dbError) :
  truthy query = true -> isString query = true -> badParams params = false ->
  hasPool s = false -> (2 <= retryAttempts s)%Z -> reset (env 0%Z) = Some e' ->
  executeQuery s query params env
  = (Throw e',
     [mkPass 0 (Some (Error (str "Database connection pool not initialized"))) [Reset]]).
Proof.
  intros Hq Hs Hb Hp Hr Hreset. unfold executeQuery. rewrite Hq, Hs, Hb. cbn [negb orb].
  destruct (Z.to_nat (retryAttempts s)) as [|n] eqn:En; [lia|].
  cbn [attempts]. unfold tryQuery, getConnection. rewrite Hp.
  change (classify (Error (str "Database connection pool not initialized")))
    with Connection.
  cbv iota.
  assert (E : (0 + 1 <? retryAttempts s)%Z = true) by (apply Z.ltb_lt; lia).
  rewrite E, Hreset. reflexivity.
Qed.

Lemma executeQuery_without_pool_witness :
  executeQuery constructor (VString (str "SELECT 1")) (VArray []) cannotReset
  = (Throw noFactory,
     [mkPass 0 (Some (Error (str "Database connection pool not initialized"))) [Reset]]).
Proof.
  apply (@executeQuery_without_pool constructor (VString (str "SELECT 1")) (VArray [])
           cannotReset noFactory); try reflexivity. simpl. lia.
Defined.

Lemma attempts_waits env todo :
  forall attempt s conn pre p post e,
    snd (attempts env todo attempt s conn) = pre ++ p :: post ->
    post <> [] -> caught p = Some e ->
    (classify e = Deadlock /\ exists rel,
       calls p = Delay (jitter (env (failuresBefore p))) :: rel
       /\ ~ In Reset rel /\ forall d, ~ In (Delay d) rel)
    \/ (classify e = Connection /\ exists rel,
          calls p = Reset :: Delay (1000 * (failuresBefore p + 1)) :: rel
          /\ ~ In Reset rel /\ forall d, ~ In (Delay d) rel).
Proof.
  assert (Hrel : forall b, ~ In Reset (release b) /\ forall d, ~ In (Delay d) (release b)).
  { intros [|]; simpl; (split; [intros H | intros d H]);
      repeat (destruct H as [H|H]; try discriminate); contradiction. }
  induction todo as [|todo IH]; intros attempt s conn pre p post e; cbn [attempts].
  - intros H. destruct pre; discriminate.
  - assert (Hsingle : forall (x : pass), [x] = pre ++ p :: post -> post <> [] -> False).
    { intros x H Hne. destruct pre as [|y [|z pre]]; simpl in H; try discriminate.
      injection H as _ <-. congruence. }
    destruct (tryQuery s (env attempt)) as [[e0|r] got].
    2:{ cbn [snd]. intros H Hne. exfalso. eapply Hsingle; eassumption. }
    destruct (classify e0) eqn:Ec.
    + destruct (attempt + 1 <? retryAttempts s)%Z.
      2:{ cbn [snd]. intros H Hne. exfalso. eapply Hsingle; eassumption. }
      specialize (IH (attempt + 1)%Z s (conn || got)).
      destruct (attempts env todo (attempt + 1) s (conn || got)) as [res tr].
      cbn [snd] in *. intros H Hne Hc. destruct pre as [|x pre]; simpl in H.
      * injection H as <- <-. cbn [caught] in Hc. injection Hc as <-.
        left. split; [exact Ec|]. eexists. split; [reflexivity | apply Hrel].
      * injection H as _ H. eapply IH; eassumption.
    + destruct (attempt + 1 <? retryAttempts s)%Z.
      2:{ cbn [snd]. intros H Hne. exfalso. eapply Hsingle; eassumption. }
      destruct (reset (env attempt)).
      { cbn [snd]. intros H Hne. exfalso. eapply Hsingle; eassumption. }
      specialize (IH (attempt + 1)%Z (withPool s) (conn || got)).
      destruct (attempts env todo (attempt + 1) (withPool s) (conn || got)) as [res tr].
      cbn [snd] in *. intros H Hne Hc. destruct pre as [|x pre]; simpl in H.
      * injection H as <- <-. cbn [caught] in Hc. injection Hc as <-.
        right. split; [exact Ec|]. eexists. split; [reflexivity | apply Hrel].
      * injection H as _ H. eapply IH; eassumption.
    + cbn [snd]. intros H Hne. exfalso. eapply Hsingle; eassumption.
    + cbn [snd]. intros H Hne. exfalso. eapply Hsingle; eassumption.
    + cbn [snd]. intros H Hne. exfalso. eapply Hsingle; eassumption.
Qed.



End ExecuteQueryMoreFacts.

(** ** [DatabaseService.transaction]: where it stops, what it releases *)

Module TransactionMoreFacts.

Import Database DatabaseRuns.

(** The loop up to its first operation that fails. *)
Lemma runOperations_first_failure e :
  forall good i bad rest,
    forallb validOperation good = true ->
    (forall j, j < List.length good -> exists r, txExecute e (i + j) = inr r) ->
    (validOperation bad = false
     /\ runOperations e i (good ++ bad :: rest)
        = (inl (Error (str "Invalid operation at index " ++ decimal (i + List.length good)
                       ++ str ": missing query or params")),
           map Execute (seq i (List.length good))))
    \/ (validOperation bad = true
        /\ forall err, txExecute e (i + List.length good) = inl err ->
           runOperations e i (good ++ bad :: rest)
           = (inl (Error (str "Transaction failed at operation "
                          ++ decimal (i + List.length good + 1)
                          ++ str ": " ++ message err)),
              map Execute (seq i (S (List.length good))))).
Proof.
  induction good as [|op good IH]; intros i bad rest Hvalid Hexec.
  - cbn [app List.length]. rewrite Nat.add_0_r. cbn [runOperations].
    destruct (validOperation bad) eqn:Eb.
    + right. split; [reflexivity|]. intros err Herr. cbn [negb]. rewrite Herr. reflexivity.
    + left. split; [reflexivity|]. reflexivity.
  - cbn [forallb] in Hvalid. apply andb_prop in Hvalid as [Hop Hvalid].
    cbn [app runOperations]. rewrite Hop. cbn [negb].
    destruct (Hexec 0) as [r Hr]; [simpl; lia|]. rewrite Nat.add_0_r in Hr. rewrite Hr.
    specialize (IH (S i) bad rest Hvalid).
    assert (Hexec' : forall j, j < List.length good -> exists r, txExecute e (S i + j) = inr r).
    { intros j Hj. destruct (Hexec (S j)) as [r' Hr']; [simpl; lia|].
      exists r'. rewrite <- Hr'. f_equal. lia. }
    specialize (IH Hexec').
    replace (S i + List.length good) with (i + List.length (op :: good)) in IH
      by (simpl; lia).
    destruct IH as [[Hb Hrun]|[Hb Hrun]].
    + left. split; [exact Hb|]. rewrite Hrun. reflexivity.
    + right. split; [exact Hb|]. intros err Herr. rewrite (Hrun err Herr). reflexivity.
Qed.

(** X15.  Once the transaction has begun, the operations are executed in
    order up to the first that fails, and no further: an operation rejected
    by the driver is reported as 'Transaction failed at operation n: ...'
    with its position counted from 1, one without query or params as
    'Invalid operation at index i: ...' with its position counted from 0
    and without being executed.  Either way [rollback] and [release]
    follow. *)
Theorem transaction_stops_at_first_failure (s : service) (e : txEnv)
    (good : list operation) (bad : operation) (rest : list operation) :
  hasPool s = true -> txAcquire e = None -> txBegin e = None ->
  forallb validOperation good = true ->
  (forall j, j < List.length good -> exists r, txExecute e j = inr r) ->
  (validOperation bad = false ->
   transaction s (good ++ bad :: rest) e
   = (TxThrow (Error (str "Invalid operation at index " ++ decimal (List.length good)
                      ++ str ": missing query or params")),
      Begin :: map Execute (seq 0 (List.length good)) ++ [Rollback; TxRelease]))
  /\ (validOperation bad = true ->
      forall err, txExecute e (List.length good) = inl err ->
      transaction s (good ++ bad :: rest) e
      = (TxThrow (Error (str "Transaction failed at operation "
                         ++ decimal (List.length good + 1) ++ str ": " ++ message err)),
         Begin :: map Execute (seq 0 (S (List.length good))) ++ [Rollback; TxRelease])).
Proof.
  intros Hp Ha Hb Hvalid Hexec.
  assert (Hshape : forall res tr,
            runOperations e 0 (good ++ bad :: rest) = (inl res, tr) ->
            transaction s (good ++ bad :: rest) e
            = (TxThrow res, Begin :: tr ++ [Rollback; TxRelease])).
  { intros res tr Hrun. unfold transaction, tryTransaction, getConnection.
    rewrite Hp, Ha, Hb, Hrun. destruct (good ++ bad :: rest) eqn:E; [|reflexivity].
    destruct good; discriminate. }
  destruct (@runOperations_first_failure e good 0 bad rest Hvalid Hexec)
    as [[Hbad Hrun]|[Hbad Hrun]]; cbn [Nat.add] in Hrun.
  - split; [|congruence]. intros _. apply Hshape. exact Hrun.
  - split; [congruence|]. intros _ err Herr. apply Hshape. apply Hrun. exact Herr.
Qed.

Lemma transaction_stops_at_first_failure_witness :
  transaction ready incomplete allGood
  = (TxThrow (Error (str "Invalid operation at index 2: missing query or params")),
     [Begin; Execute 0; Execute 1; Rollback; TxRelease]).
Proof.
  apply (proj1 (@transaction_stops_at_first_failure ready allGood transfer
                  (mkOperation (VString (str "DELETE FROM audit")) VUndefined) []
                  eq_refl eq_refl eq_refl eq_refl
                  (fun j _ => ex_intro _ [VNumber (Z.of_nat j)] eq_refl))).
  reflexivity.
Defined.

(** X16.  [transaction] makes no call at all when the list of operations
    is empty or the pool is missing.  When it has obtained a connection, its
    calls start with [beginTransaction] and end with the one [release] of
    that connection, however the transaction went. *)
Theorem transaction_connection (s : service) (ops : list operation) (e : txEnv) :
  (ops = [] -> snd (transaction s ops e) = [])
  /\ (hasPool s = false ->
      transaction s ops e
      = (TxThrow (Error (if match ops with [] => true | _ => false end
                         then str "Transaction operations must be a non-empty array"
                         else str "Database connection pool not initialized")), []))
  /\ (ops <> [] -> hasPool s = true -> txAcquire e = None ->
      exists mid,
        snd (transaction s ops e) = Begin :: mid ++ [TxRelease]
        /\ ~ In TxRelease mid /\ ~ In Begin mid).
Proof.
  split; [intros ->; reflexivity|]. split.
  - intros Hp. unfold transaction, tryTransaction, getConnection. rewrite Hp.
    destruct ops; reflexivity.
  - intros Hne Hp Ha. unfold transaction, tryTransaction, getConnection. rewrite Hp, Ha.
    destruct ops as [|op0 ops0]; [congruence|]. remember (op0 :: ops0) as ops. clear Heqops.
    assert (Hcalls : forall ev, In ev (snd (runOperations e 0 ops)) ->
                       ev <> TxRelease /\ ev <> Begin).
    { intros ev H. apply TransactionFacts.runOperations_calls in H as [j ->].
      split; discriminate. }
    destruct (txBegin e).
    { exists [Rollback]. cbn [snd app]. split; [reflexivity|].
      split; intros [H|[]]; discriminate. }
    destruct (runOperations e 0 ops) as [[err|rs] tr]; cbn [snd] in Hcalls.
    + exists (tr ++ [Rollback]). cbn [snd]. split.
      { cbn [app]. rewrite <- app_assoc. reflexivity. }
      split; intros H; apply in_app_iff in H as [H|[H|[]]]; try discriminate;
        apply Hcalls in H; destruct H; congruence.
    + destruct (txCommit e); cbn [snd].
      * exists (tr ++ [Commit; Rollback]). split.
        { cbn [app]. rewrite <- !app_assoc. reflexivity. }
        split; intros H; apply in_app_iff in H as [H|[H|[H|[]]]]; try discriminate;
          apply Hcalls in H; destruct H; congruence.
      * exists (tr ++ [Commit]). split; [reflexivity|].
        split; intros H; apply in_app_iff in H as [H|[H|[]]]; try discriminate;
          apply Hcalls in H; destruct H; congruence.
Qed.

Lemma transaction_connection_witness :
  exists mid,
    snd (transaction ready transfer secondFails) = Begin :: mid ++ [TxRelease]
    /\ ~ In TxRelease mid /\ ~ In Begin mid.
Proof.
  apply (@transaction_connection ready transfer secondFails);
    [discriminate | reflexivity | reflexivity].
Defined.

End TransactionMoreFacts.

(** ** What the String methods preserve *)

Module JSInvariantFacts.

Import JSInvariants.

Section Preserved.

Variable P : char -> Prop.

Lemma Forall_dropWhile p s : Forall P s -> Forall P (dropWhile p s).
Proof.
  induction 1 as [|c s Hc Hs IH]; simpl; [constructor|].
  destruct (p c); [exact IH | constructor; assumption].
Qed.

Lemma Forall_dropWhileEnd p s : Forall P s -> Forall P (dropWhileEnd p s).
Proof.
  intros H. unfold dropWhileEnd. apply Forall_rev, Forall_dropWhile, Forall_rev, H.
Qed.

Lemma Forall_trim s : Forall P s -> Forall P (trim s).
Proof. intros H. unfold trim. apply Forall_dropWhileEnd, Forall_dropWhile, H. Qed.

Lemma Forall_firstn n (s : jsstring) : Forall P s -> Forall P (firstn n s).
Proof.
  revert n; induction s as [|c s IH]; intros [|n] H; simpl; try constructor;
    inversion H; subst; auto.
Qed.

Lemma Forall_skipn n (s : jsstring) : Forall P s -> Forall P (skipn n s).
Proof.
  revert n; induction s as [|c s IH]; intros [|n] H; simpl; try assumption.
  inversion H; subst; auto.
Qed.

Lemma Forall_replaceClass p rep s :
  (forall c, P c -> p c = true -> P rep) -> Forall P s -> Forall P (replaceClass p rep s).
Proof.
  intros Hrep. unfold replaceClass. induction 1 as [|c s Hc _ IH]; simpl; constructor;
    [|exact IH].
  destruct (p c) eqn:E; [eapply Hrep; eassumption | exact Hc].
Qed.

Lemma Forall_removeClass p s : Forall P s -> Forall P (removeClass p s).
Proof.
  unfold removeClass. induction 1 as [|c s Hc _ IH]; simpl; [constructor|].
  destruct (negb (p c)); [constructor; assumption | exact IH].
Qed.

Lemma Forall_replaceAllFrom m :
  keeps P m -> forall s k, Forall P s -> Forall P (replaceAllFrom m k s).
Proof.
  intros Hm; induction s as [|c s IH]; intros k H; simpl; [constructor|].
  inversion H as [|? ? Hc Hs]; subst. destruct k as [|k]; [|apply IH; exact Hs].
  destruct (m (c :: s)) as [[n rep]|] eqn:E.
  - apply Forall_app. split; [exact (Hm (c :: s) n rep H E) | apply IH; exact Hs].
  - constructor; [exact Hc | apply IH; exact Hs].
Qed.

Lemma Forall_replaceAll m s : keeps P m -> Forall P s -> Forall P (replaceAll m s).
Proof. intros Hm H. unfold replaceAll. apply Forall_replaceAllFrom; assumption. Qed.

Lemma keeps_lit pat rep : Forall P rep -> keeps P (lit pat rep).
Proof.
  intros Hrep t n r _. unfold lit. destruct pat; [discriminate|].
  destruct (startsWith _ t); [|discriminate]. intros H; injection H as _ <-. exact Hrep.
Qed.

Lemma keeps_orElse m1 m2 : keeps P m1 -> keeps P m2 -> keeps P (orElse m1 m2).
Proof.
  intros H1 H2 t n rep Ht. unfold orElse. destruct (m1 t) as [[n1 r1]|] eqn:E.
  - intros H; injection H as <- <-. exact (H1 t n1 r1 Ht E).
  - apply H2; exact Ht.
Qed.

Lemma Forall_split sep s : Forall P s -> Forall (Forall P) (split sep s).
Proof.
  induction 1 as [|c s Hc _ IH]; simpl; [repeat constructor|].
  destruct (N.eqb c sep); [constructor; [constructor | exact IH]|].
  destruct (split sep s) as [|p ps]; [repeat constructor; exact Hc|].
  inversion IH; subst. constructor; [constructor; assumption | assumption].
Qed.

Lemma Forall_join sep parts : P sep -> Forall (Forall P) parts -> Forall P (join sep parts).
Proof.
  intros Hsep. induction 1 as [|p ps Hp Hps IH]; simpl; [constructor|].
  destruct ps as [|q ps]; [exact Hp|].
  apply Forall_app. split; [exact Hp | constructor; [exact Hsep | exact IH]].
Qed.

Lemma Forall_last (parts : list jsstring) :
  Forall (Forall P) parts -> Forall P (last parts []).
Proof.
  induction 1 as [|p ps Hp Hps IH]; simpl; [constructor|].
  destruct ps; [exact Hp | exact IH].
Qed.

Lemma Forall_setLast parts v :
  Forall P v -> Forall (Forall P) parts -> Forall (Forall P) (PathSanitizer.setLast parts v).
Proof.
  intros Hv. induction 1 as [|p ps Hp Hps IH]; simpl; [constructor|].
  destruct ps; constructor; auto.
Qed.

End Preserved.

Lemma str_eqb_eq a b : str_eqb a b = true <-> a = b.
Proof.
  revert b; induction a as [|x a IH]; intros [|y b]; simpl;
    try (split; [discriminate | intros H; discriminate]); [split; reflexivity|].
  rewrite andb_true_iff, N.eqb_eq, IH. split; [intros [-> ->]; reflexivity|].
  intros H; injection H as -> ->. split; reflexivity.
Qed.

Lemma dropWhile_idempotent p s : dropWhile p (dropWhile p s) = dropWhile p s.
Proof.
  induction s as [|c s IH]; simpl; [reflexivity|].
  destruct (p c) eqn:E; [exact IH | simpl; rewrite E; reflexivity].
Qed.

Lemma dropWhileEnd_idempotent p s : dropWhileEnd p (dropWhileEnd p s) = dropWhileEnd p s.
Proof.
  unfold dropWhileEnd. rewrite rev_involutive, dropWhile_idempotent. reflexivity.
Qed.

End JSInvariantFacts.

(** ** [sanitizeFilePathRobust]: when it is empty, what it contains *)

Module PathSanitizerMoreFacts.

Import JSFacts JSInvariants JSInvariantFacts PathSanitizer PathSanitizerSteps.

Lemma sanitize_steps normalizeNFC path o :
  sanitizeFilePathRobust normalizeNFC (Some path) o
  = if str_eqb (trim path) [] then []
    else finished o (normalizeNFC (prepared o path)).
Proof. reflexivity. Qed.

Lemma finished_nonempty o p : finished o p <> [].
Proof.
  unfold finished. cbv zeta.
  destruct (str_eqb (stripEnds p) []) eqn:E; [discriminate|].
  assert (Hne : stripEnds p <> []).
  { intros H. rewrite H in E. discriminate. }
  destruct (str_eqb (os o) (str "win32")).
  { unfold stripEnds in *. rewrite dropWhileEnd_idempotent. exact Hne. }
  destruct (str_eqb (os o) (str "darwin")); [|exact Hne].
  intros H. apply Hne. apply length_zero_iff_nil.
  rewrite <- (replaceClass_length (N.eqb 58) 95%N). rewrite H. reflexivity.
Qed.


Lemma safe_slash : safeChar 47%N.
Proof. split; [reflexivity | discriminate]. Qed.

Lemma safe_underscore : safeChar 95%N.
Proof. split; [reflexivity | discriminate]. Qed.

Lemma prepared_safe o path : Forall safeChar (prepared o path).
Proof.
  unfold prepared. cbv zeta.
  set (p1 := replaceClass (N.eqb 92) 47%N path).
  set (p2 := if includes p1 (str "../") || includes p1 (str "..\")
             then if negb (allowRelativePaths o) then replaceAll traversal p1 else p1
             else p1).
  set (p3 := replaceClass dangerousChars 95%N p2).
  assert (H1 : Forall (fun c => c <> 92%N) p1).
  { subst p1. unfold replaceClass. apply Forall_forall. intros c Hc.
    apply in_map_iff in Hc as [x [<- _]].
    destruct (N.eqb_spec 92 x) as [E|E]; [discriminate | congruence]. }
  assert (H2 : Forall (fun c => c <> 92%N) p2).
  { subst p2. destruct (includes p1 (str "../") || includes p1 (str "..\")); [|exact H1].
    destruct (negb (allowRelativePaths o)); [|exact H1].
    apply Forall_replaceAll; [|exact H1].
    unfold traversal. repeat apply keeps_orElse; apply keeps_lit; constructor. }
  assert (H3 : Forall safeChar p3).
  { subst p3. unfold replaceClass. apply Forall_forall. intros c Hc.
    apply in_map_iff in Hc as [x [<- Hx]].
    destruct (dangerousChars x) eqn:E; [apply safe_underscore|].
    split; [exact E|]. rewrite Forall_forall in H2. apply H2. exact Hx. }
  set (p4 := if reservedNames_test (last (split 47%N p3) [])
             then join 47%N (setLast (split 47%N p3) (95%N :: last (split 47%N p3) []))
             else p3).
  assert (H4 : Forall safeChar p4).
  { subst p4. destruct (reservedNames_test _); [|exact H3].
    pose proof (Forall_split 47%N H3) as Hs.
    apply Forall_join; [apply safe_slash|].
    apply Forall_setLast; [|exact Hs].
    constructor; [apply safe_underscore | apply Forall_last; exact Hs]. }
  destruct (maxLength o <? jslength p4)%Z; [|exact H4].
  destruct (preserveExtension o); [|apply Forall_firstn; exact H4].
  apply Forall_app. split.
  - unfold substring0. apply Forall_firstn.
    destruct (lastIndexOf 46%N p4) as [[|i]|]; try exact H4. apply Forall_firstn; exact H4.
  - destruct (lastIndexOf 46%N p4) as [[|i]|]; try constructor.
    unfold substringFrom. apply Forall_skipn; exact H4.
Qed.

Lemma finished_safe o p : Forall safeChar p -> Forall safeChar (finished o p).
Proof.
  intros H. unfold finished. cbv zeta.
  assert (Hs : Forall safeChar (stripEnds p))
    by (unfold stripEnds; apply Forall_dropWhileEnd, Forall_dropWhile, H).
  destruct (str_eqb (stripEnds p) []).
  { repeat constructor; discriminate. }
  destruct (str_eqb (os o) (str "win32")); [apply Forall_dropWhileEnd; exact Hs|].
  destruct (str_eqb (os o) (str "darwin")); [|exact Hs].
  apply Forall_replaceClass; [intros; apply safe_underscore | exact Hs].
Qed.

(** X18.  Provided normalization brings in no backslash and no dangerous
    character where there was none, as NFC does, the path returned by
    [sanitizeFilePathRobust] contains no backslash and none of the
    characters less-than, greater-than, colon, double quote, bar, question
    mark, star and 0x00 to 0x1f, whatever the options. *)
Theorem sanitizeFilePathRobust_safe_chars (normalizeNFC : jsstring -> jsstring)
    (filePath : option jsstring) (o : options) :
  (forall s, Forall safeChar s -> Forall safeChar (normalizeNFC s)) ->
  Forall safeChar (sanitizeFilePathRobust normalizeNFC filePath o).
Proof.
  intros Hnfc. destruct filePath as [path|]; [|constructor].
  rewrite sanitize_steps. destruct (str_eqb (trim path) []); [constructor|].
  apply finished_safe, Hnfc, prepared_safe.
Qed.

Lemma sanitizeFilePathRobust_safe_chars_witness :
  Forall safeChar
    (sanitizeFilePathRobust (fun s => s) (Some (str "C:\temp\a<b>?.txt"))
       (defaultOptions (str "win32"))).
Proof.
  apply (@sanitizeFilePathRobust_safe_chars (fun s => s)). intros s H. exact H.
Defined.

(** X19.  When the extension is not to be preserved and normalization does
    not lengthen the prepared path, the path returned has at most
    [maxLength] code units, or the 12 of 'unnamed_file' if that is more. *)
Theorem sanitizeFilePathRobust_length (normalizeNFC : jsstring -> jsstring)
    (path : jsstring) (o : options) :
  preserveExtension o = false ->
  List.length (normalizeNFC (prepared o path)) <= List.length (prepared o path) ->
  (jslength (sanitizeFilePathRobust normalizeNFC (Some path) o)
   <= Z.max 12 (maxLength o))%Z.
Proof.
  intros Hpe Hnfc. rewrite sanitize_steps.
  destruct (str_eqb (trim path) []); [unfold jslength; simpl; lia|].
  assert (Hp : (jslength (prepared o path) <= Z.max 0 (maxLength o))%Z).
  { unfold prepared. cbv zeta. rewrite Hpe.
    match goal with
    | |- context [if (maxLength o <? jslength ?p)%Z then _ else _] =>
        destruct (maxLength o <? jslength p)%Z eqn:E;
        [apply substring0_length | apply Z.ltb_ge in E; lia]
    end. }
  unfold finished. cbv zeta.
  assert (Hs : List.length (stripEnds (normalizeNFC (prepared o path)))
               <= List.length (normalizeNFC (prepared o path))).
  { unfold stripEnds. eapply Nat.le_trans; [apply dropWhileEnd_length|].
    apply dropWhile_length. }
  set (n := normalizeNFC (prepared o path)) in *.
  destruct (str_eqb (stripEnds n) []); [unfold jslength; simpl; lia|].
  destruct (str_eqb (os o) (str "win32")).
  { pose proof (dropWhileEnd_length space_or_dot (stripEnds n)).
    unfold jslength in *. unfold jsstring, char in *. lia. }
  destruct (str_eqb (os o) (str "darwin")).
  { unfold jslength in *. rewrite replaceClass_length. unfold jsstring, char in *. lia. }
  unfold jslength in *. unfold jsstring, char in *. lia.
Qed.

Lemma sanitizeFilePathRobust_length_witness :
  (jslength
     (sanitizeFilePathRobust (fun s => s) (Some (str "reports/2024/summary-of-the-year.txt"))
        (mkOptions 16 false false (str "linux")))
   <= Z.max 12 16)%Z.
Proof.
  apply (@sanitizeFilePathRobust_length (fun s => s)
           (str "reports/2024/summary-of-the-year.txt")
           (mkOptions 16 false false (str "linux"))).
  - reflexivity.
  - apply Nat.le_refl.
Defined.

End PathSanitizerMoreFacts.


(** ** [processTextRobust]: what is left of control characters and
    whitespace *)

Module TextProcessorMoreFacts.

Import JSFacts JSInvariants JSInvariantFacts TextProcessor TextProcessorSteps.

Lemma replaceClass_id p rep s :
  Forall (fun c => p c = false) s -> replaceClass p rep s = s.
Proof.
  unfold replaceClass. induction 1 as [|c s Hc _ IH]; simpl; [reflexivity|].
  rewrite Hc, IH. reflexivity.
Qed.

Lemma removeClass_id p s : Forall (fun c => p c = false) s -> removeClass p s = s.
Proof.
  unfold removeClass. induction 1 as [|c s Hc _ IH]; simpl; [reflexivity|].
  rewrite Hc, IH. reflexivity.
Qed.

Lemma plainSpace_replaced s : Forall plainSpace (replaceClass whitespaceLike 32%N s).
Proof.
  unfold replaceClass. apply Forall_forall. intros c Hc.
  apply in_map_iff in Hc as [x [<- _]]. unfold plainSpace.
  destruct (whitespaceLike x) eqn:E; [reflexivity | congruence].
Qed.

Lemma plainSpace_not c d : plainSpace c -> whitespaceLike d = true -> d <> 32%N ->
  N.eqb d c = false.
Proof.
  intros Hc Hd Hne. destruct (N.eqb_spec d c) as [->|]; [|reflexivity].
  elim Hne. apply Hc. exact Hd.
Qed.

Lemma crlf_absent s : Forall plainSpace s -> replaceAll (lit [13; 10] [10])%N s = s.
Proof.
  unfold replaceAll. induction 1 as [|c s Hc _ IH]; [reflexivity|].
  cbn [replaceAllFrom]. unfold lit at 1. cbn [startsWith].
  rewrite (@plainSpace_not c 13%N Hc); [|reflexivity|discriminate].
  cbn [andb]. rewrite IH. reflexivity.
Qed.

(** With the whitespace class replaced first, the two line-ending
    replacements and the line-break replacement find nothing to do. *)
Lemma normalizeSpaces_eq o s :
  normalizeSpaces o s = replaceAll spaces (replaceClass whitespaceLike 32%N s).
Proof.
  unfold normalizeSpaces. cbv zeta.
  pose proof (plainSpace_replaced s) as H.
  set (s1 := replaceClass whitespaceLike 32%N s) in *.
  rewrite (crlf_absent H).
  assert (H13 : replaceClass (N.eqb 13) 10%N s1 = s1).
  { apply replaceClass_id. eapply Forall_impl; [|exact H].
    intros c Hc. apply plainSpace_not; [exact Hc | reflexivity | discriminate]. }
  rewrite H13.
  assert (H10 : replaceClass (N.eqb 10) 32%N s1 = s1).
  { apply replaceClass_id. eapply Forall_impl; [|exact H].
    intros c Hc. apply plainSpace_not; [exact Hc | reflexivity | discriminate]. }
  rewrite H10. destruct (negb (preserveLineBreaks o)); reflexivity.
Qed.

(** X20.  When whitespace is normalized, [preserveLineBreaks] has no effect
    on the result of [processTextRobust]: line feeds and carriage returns
    belong to the whitespace class that is replaced by spaces first. *)
Theorem processTextRobust_ignores_preserveLineBreaks
    (normalizeNFC : jsstring -> jsstring) (text : option jsstring) (o : options) (b : bool) :
  normalizeWhitespace o = true ->
  processTextRobust normalizeNFC text (withLineBreaks b o)
  = processTextRobust normalizeNFC text o.
Proof.
  intros Hw.
  assert (Hc : forall s, cleaned (withLineBreaks b o) s = cleaned o s).
  { intros s. unfold cleaned, truncated, withLineBreaks. cbn.
    rewrite Hw. rewrite !normalizeSpaces_eq. reflexivity. }
  destruct text as [[|c s]|]; try reflexivity.
  unfold processTextRobust, normalized. rewrite Hc. reflexivity.
Qed.

Lemma processTextRobust_ignores_preserveLineBreaks_witness :
  processTextRobust (fun s => s) (Some (10 :: str "one" ++ 13 :: 10 :: str "two"))%N
    (withLineBreaks false defaultOptions)
  = processTextRobust (fun s => s) (Some (10 :: str "one" ++ 13 :: 10 :: str "two"))%N
      defaultOptions.
Proof.
  apply (@processTextRobust_ignores_preserveLineBreaks (fun s => s)
           (Some (10 :: str "one" ++ 13 :: 10 :: str "two"))%N defaultOptions false).
  reflexivity.
Defined.

Lemma noControl_lit pat rep : Forall noControl rep -> keeps noControl (lit pat rep).
Proof. apply keeps_lit. Qed.

Ltac plain := repeat constructor; try reflexivity; try discriminate.

Lemma decodeEntities_noControl s : Forall noControl s -> Forall noControl (decodeEntities s).
Proof.
  intros H. unfold decodeEntities. cbv zeta.
  repeat (apply Forall_replaceAll; [apply keeps_lit; plain|]). exact H.
Qed.

Lemma spaces_keeps (P : char -> Prop) : P 32%N -> keeps P spaces.
Proof.
  intros H t n rep _. unfold spaces. cbv zeta.
  destruct (2 <=? countSpaces t); [|discriminate].
  intros E; injection E as _ <-. constructor; [exact H | constructor].
Qed.

Lemma normalizeSpaces_noControl o s :
  Forall noControl s -> Forall noControl (normalizeSpaces o s).
Proof.
  intros H. rewrite normalizeSpaces_eq.
  apply Forall_replaceAll; [apply spaces_keeps; reflexivity|].
  apply Forall_replaceClass; [intros; reflexivity | exact H].
Qed.

Lemma removeClass_absent p s : Forall (fun c => p c = false) (removeClass p s).
Proof.
  unfold removeClass. apply Forall_forall. intros c Hc.
  apply filter_In in Hc as [_ Hc]. destruct (p c); [discriminate | reflexivity].
Qed.

Lemma cleaned_noControl o s :
  removeControlChars o = true -> Forall noControl (cleaned o s).
Proof.
  intros Hr. unfold cleaned. cbv zeta. rewrite Hr.
  assert (H1 : Forall noControl (removeClass controlChar (truncated o s)))
    by apply removeClass_absent.
  set (s1 := removeClass controlChar (truncated o s)) in *.
  assert (H2 : Forall noControl (if stripHTML o then decodeEntities (replaceAll tag s1) else s1)).
  { destruct (stripHTML o); [|exact H1]. apply decodeEntities_noControl.
    apply Forall_replaceAll; [|exact H1].
    intros t n rep _. unfold tag. destruct t as [|c t]; [discriminate|].
    destruct (N.eqb_spec c 60) as [->|Hne].
    - destruct (indexOf 62%N t); [|discriminate]. intros E; injection E as _ <-. constructor.
    - destruct c as [|p]; [discriminate|].
      do 6 (destruct p as [p|p|]; try discriminate). congruence. }
  destruct (normalizeWhitespace o); [apply normalizeSpaces_noControl|]; exact H2.
Qed.

Section Settled.

Variable normalizeNFC : jsstring -> jsstring.
Variable P : char -> Prop.
Hypothesis P_rle : P 8235%N.
Hypothesis P_pdf : P 8236%N.

(** A property of code units that holds of the text after normalization,
    and of the two embedding markers, holds of the result. *)
Lemma processTextRobust_Forall text o :
  (forall s, Forall P (normalized normalizeNFC o s)) ->
  Forall P (processTextRobust normalizeNFC text o).
Proof.
  intros H. destruct text as [[|c s]|]; try constructor.
  unfold processTextRobust. cbv zeta.
  assert (He : Forall P (embedded (normalized normalizeNFC o (c :: s)))).
  { unfold embedded. destruct (existsb rtlChar _); [|apply H].
    constructor; [exact P_rle|]. apply Forall_app. split; [apply H|].
    constructor; [exact P_pdf | constructor]. }
  set (e := embedded (normalized normalizeNFC o (c :: s))) in *.
  set (r := if trimText o then trim e else e).
  assert (Ht : Forall P r).
  { subst r. destruct (trimText o); [apply Forall_trim|]; exact He. }
  clearbody r. destruct r as [|d t]; [constructor|].
  destruct (includes (d :: t) [0%N]); [apply Forall_removeClass|]; exact Ht.
Qed.

End Settled.

(** X21.  With [removeControlChars] on, and a normalization that brings in
    no control character, the text returned by [processTextRobust] holds
    none of the code units 0x00-0x08, 0x0B, 0x0C, 0x0E-0x1F and 0x7F; in
    particular the final null-byte removal finds nothing. *)
Theorem processTextRobust_no_control_chars
    (normalizeNFC : jsstring -> jsstring) (text : option jsstring) (o : options) :
  removeControlChars o = true ->
  (forall s, Forall noControl s -> Forall noControl (normalizeNFC s)) ->
  Forall noControl (processTextRobust normalizeNFC text o).
Proof.
  intros Hr Hnfc. apply processTextRobust_Forall; try reflexivity.
  intros s. unfold normalized.
  destruct (handleUnicode o); [apply Hnfc|]; apply cleaned_noControl; exact Hr.
Qed.

Lemma processTextRobust_no_control_chars_witness :
  Forall noControl
    (processTextRobust (fun s => s) (Some (7 :: str "<i>bell</i>" ++ [0; 127; 9]))%N
       (mkOptions 100 false true true true true false)).
Proof.
  apply (@processTextRobust_no_control_chars (fun s => s)).
  - reflexivity.
  - intros s H. exact H.
Defined.

Lemma plainSpace_other c : whitespaceLike c = false -> plainSpace c.
Proof. intros H E. congruence. Qed.

(** X22.  With [normalizeWhitespace] on, and a normalization that brings in
    no whitespace, the only whitespace left in the text returned by
    [processTextRobust] is the plain space: no tab, no line feed, no
    carriage return, no no-break space, whatever [preserveLineBreaks]
    says. *)
Theorem processTextRobust_plain_spaces
    (normalizeNFC : jsstring -> jsstring) (text : option jsstring) (o : options) :
  normalizeWhitespace o = true ->
  (forall s, Forall plainSpace s -> Forall plainSpace (normalizeNFC s)) ->
  Forall plainSpace (processTextRobust normalizeNFC text o).
Proof.
  intros Hw Hnfc.
  apply processTextRobust_Forall; try (apply plainSpace_other; reflexivity).
  intros s. assert (Hc : Forall plainSpace (cleaned o s)).
  { unfold cleaned. cbv zeta. rewrite Hw, normalizeSpaces_eq.
    apply Forall_replaceAll; [apply spaces_keeps; intros _; reflexivity|].
    apply plainSpace_replaced. }
  unfold normalized. destruct (handleUnicode o); [apply Hnfc|]; exact Hc.
Qed.

Lemma processTextRobust_plain_spaces_witness :
  Forall plainSpace
    (processTextRobust (fun s => s) (Some (str "a" ++ 9 :: 10 :: 160 :: str "b" ++ 13 :: 10 :: str "c"))%N
       defaultOptions).
Proof.
  apply (@processTextRobust_plain_spaces (fun s => s)).
  - reflexivity.
  - intros s H. exact H.
Defined.

Lemma noDoubleSpace_tail c t : noDoubleSpace (c :: t) = true -> noDoubleSpace t = true.
Proof. cbn [noDoubleSpace]. intros H. apply andb_true_iff in H. apply H. Qed.

Lemma noDoubleSpace_cons c t :
  N.eqb c 32 && startsWithSpace t = false -> noDoubleSpace t = true ->
  noDoubleSpace (c :: t) = true.
Proof.
  intros H Ht. cbn [noDoubleSpace]. rewrite Ht.
  unfold startsWithSpace in H. destruct t; rewrite H; reflexivity.
Qed.

Lemma noDoubleSpace_prefix s t : noDoubleSpace (s ++ t) = true -> noDoubleSpace s = true.
Proof.
  induction s as [|c s IH]; [reflexivity|]. rewrite <- app_comm_cons.
  cbn [noDoubleSpace]. intros H. apply andb_true_iff in H as [H1 H2].
  rewrite (IH H2). destruct s as [|d s]; [|exact (eq_trans (andb_true_r _) H1)].
  rewrite andb_false_r. reflexivity.
Qed.

Lemma noDoubleSpace_suffix s t : noDoubleSpace (s ++ t) = true -> noDoubleSpace t = true.
Proof.
  induction s as [|c s IH]; [trivial|]. rewrite <- app_comm_cons.
  intros H. apply IH. eapply noDoubleSpace_tail. exact H.
Qed.

Lemma noDoubleSpace_snoc s c :
  N.eqb c 32 = false -> noDoubleSpace s = true -> noDoubleSpace (s ++ [c]) = true.
Proof.
  intros Hc. induction s as [|d s IH]; intros H.
  - cbn. rewrite andb_false_r. reflexivity.
  - rewrite <- app_comm_cons. pose proof (@noDoubleSpace_tail _ _ H) as Ht.
    apply noDoubleSpace_cons; [|apply IH; exact Ht].
    cbn [noDoubleSpace] in H. apply andb_true_iff in H as [H _].
    destruct s as [|e s]; cbn [app startsWithSpace].
    + rewrite Hc. apply andb_false_r.
    + apply negb_true_iff in H. exact H.
Qed.

Lemma dropWhile_suffix p s : exists pre, s = pre ++ dropWhile p s.
Proof.
  induction s as [|c s [pre IH]]; [exists []; reflexivity|]. simpl.
  destruct (p c); [exists (c :: pre); simpl; congruence | exists []; reflexivity].
Qed.

Lemma dropWhileEnd_prefix p s : exists post, s = dropWhileEnd p s ++ post.
Proof.
  unfold dropWhileEnd. destruct (dropWhile_suffix p (rev s)) as [pre H].
  exists (rev pre). rewrite <- rev_app_distr, <- H, rev_involutive. reflexivity.
Qed.

Lemma noDoubleSpace_trim s : noDoubleSpace s = true -> noDoubleSpace (trim s) = true.
Proof.
  intros H. unfold trim.
  destruct (dropWhile_suffix is_space s) as [pre Hpre].
  destruct (dropWhileEnd_prefix is_space (dropWhile is_space s)) as [post Hpost].
  rewrite Hpre in H. apply noDoubleSpace_suffix in H.
  rewrite Hpost in H. apply noDoubleSpace_prefix in H. exact H.
Qed.

Lemma countSpaces_zero s : countSpaces s = 0 -> startsWithSpace s = false.
Proof.
  destruct s as [|c s]; [reflexivity|]. cbn [startsWithSpace].
  destruct (N.eqb_spec c 32) as [->|]; [discriminate | reflexivity].
Qed.

Lemma countSpaces_succ s n :
  countSpaces s = S n -> exists t, s = 32%N :: t /\ countSpaces t = n.
Proof.
  destruct s as [|c s]; [discriminate|].
  destruct (N.eqb_spec c 32) as [->|Hne].
  - cbn [countSpaces]. intros H; injection H as H. eauto.
  - intros H. exfalso. destruct c as [|p]; [discriminate|].
    do 6 (destruct p as [p|p|]; try discriminate). congruence.
Qed.

(** Collapsing runs of spaces: scanning resumes after a run, where no space
    stands. *)
Lemma spaces_collapsed s : forall k,
  k = 0 \/ k = countSpaces s ->
  noDoubleSpace (replaceAllFrom spaces k s) = true
  /\ (k = countSpaces s -> startsWithSpace (replaceAllFrom spaces k s) = false).
Proof.
  induction s as [|c s IH]; intros k Hk.
  { cbn. split; reflexivity. }
  destruct k as [|k].
  - cbn [replaceAllFrom]. clear Hk.
    destruct (countSpaces (c :: s)) as [|[|n]] eqn:E;
      match goal with
      | |- context [spaces (c :: s)] =>
          let Hm := fresh "Hm" in
          assert (Hm : spaces (c :: s)
                       = if 2 <=? countSpaces (c :: s)
                         then Some (countSpaces (c :: s), [32%N]) else None)
            by reflexivity;
          rewrite Hm, E; clear Hm
      end.
    + cbn [Nat.leb]. pose proof (@countSpaces_zero _ E) as Hc. cbn [startsWithSpace] in Hc.
      destruct (IH 0 (or_introl eq_refl)) as [IH1 _]. split.
      * apply noDoubleSpace_cons; [rewrite Hc; reflexivity | exact IH1].
      * intros _. exact Hc.
    + cbn [Nat.leb]. destruct (@countSpaces_succ _ _ E) as [t [Ht Hn]].
      injection Ht as -> <-.
      destruct (IH 0 (or_intror (eq_sym Hn))) as [IH1 IH2]. split.
      * apply noDoubleSpace_cons; [|exact IH1]. rewrite (IH2 (eq_sym Hn)). reflexivity.
      * intros H; discriminate.
    + cbn [Nat.leb]. destruct (@countSpaces_succ _ _ E) as [t [Ht Hn]].
      injection Ht as -> <-. cbn [Nat.pred app].
      destruct (IH (S n) (or_intror (eq_sym Hn))) as [IH1 IH2]. split.
      * apply noDoubleSpace_cons; [|exact IH1]. rewrite (IH2 (eq_sym Hn)). reflexivity.
      * intros H; discriminate.
  - destruct Hk as [Hk|Hk]; [discriminate|]. cbn [replaceAllFrom].
    destruct (@countSpaces_succ _ _ (eq_sym Hk)) as [t [Ht Hn]]. injection Ht as -> <-.
    destruct (IH k (or_intror (eq_sym Hn))) as [IH1 IH2]. split; [exact IH1|].
    intros _. apply IH2. symmetry; exact Hn.
Qed.

(** X23.  With [normalizeWhitespace] and [removeControlChars] on, and a
    normalization that brings in neither a control character nor a second
    space after a space, no two spaces follow each other in the text
    returned by [processTextRobust]. *)
Theorem processTextRobust_no_double_space
    (normalizeNFC : jsstring -> jsstring) (text : option jsstring) (o : options) :
  normalizeWhitespace o = true ->
  removeControlChars o = true ->
  (forall s, Forall noControl s -> Forall noControl (normalizeNFC s)) ->
  (forall s, noDoubleSpace s = true -> noDoubleSpace (normalizeNFC s) = true) ->
  noDoubleSpace (processTextRobust normalizeNFC text o) = true.
Proof.
  intros Hw Hr Hctl Hnfc.
  destruct text as [[|c s]|]; try reflexivity.
  unfold processTextRobust. cbv zeta.
  assert (Hc : noDoubleSpace (cleaned o (c :: s)) = true).
  { unfold cleaned. cbv zeta. rewrite Hw, normalizeSpaces_eq.
    apply spaces_collapsed. left; reflexivity. }
  assert (Hn : noDoubleSpace (normalized normalizeNFC o (c :: s)) = true).
  { unfold normalized. destruct (handleUnicode o); [apply Hnfc|]; exact Hc. }
  assert (He : noDoubleSpace (embedded (normalized normalizeNFC o (c :: s))) = true).
  { unfold embedded. destruct (existsb rtlChar _); [|exact Hn].
    apply noDoubleSpace_cons; [reflexivity|].
    apply noDoubleSpace_snoc; [reflexivity | exact Hn]. }
  set (e := embedded (normalized normalizeNFC o (c :: s))) in *.
  set (r := if trimText o then trim e else e).
  assert (Ht : noDoubleSpace r = true).
  { subst r. destruct (trimText o); [apply noDoubleSpace_trim|]; exact He. }
  destruct r as [|d t] eqn:E; [reflexivity|].
  destruct (includes (d :: t) [0%N]) eqn:Ei; [|exact Ht].
  (* the removal takes nothing away from a text without control characters *)
  assert (Hid : removeClass (N.eqb 0) (d :: t) = d :: t).
  { apply removeClass_id.
    assert (Hall : Forall noControl (d :: t)).
    { assert (Hp : Forall noControl e).
      { subst e. unfold embedded.
        assert (Hnn : Forall noControl (normalized normalizeNFC o (c :: s))).
        { unfold normalized.
          destruct (handleUnicode o); [apply Hctl|]; apply cleaned_noControl; exact Hr. }
        destruct (existsb rtlChar _); [|exact Hnn].
        constructor; [reflexivity|]. apply Forall_app. split; [exact Hnn|].
        constructor; [reflexivity | constructor]. }
      rewrite <- E. subst r. destruct (trimText o); [apply Forall_trim|]; exact Hp. }
    eapply Forall_impl; [|exact Hall].
    intros x Hx. destruct (N.eqb_spec 0 x) as [<-|]; [discriminate Hx | reflexivity]. }
  rewrite Hid. exact Ht.
Qed.

Lemma processTextRobust_no_double_space_witness :
  noDoubleSpace
    (processTextRobust (fun s => s) (Some (str "a  b" ++ 9 :: 10 :: str " c   d "))%N
       defaultOptions) = true.
Proof.
  apply (@processTextRobust_no_double_space (fun s => s)).
  - reflexivity.
  - reflexivity.
  - intros s H. exact H.
  - intros s H. exact H.
Defined.

End TextProcessorMoreFacts.


(** ** The phone number formatters *)

Module PhoneFacts.

Import JSFacts Phone.

Lemma digits_spec n s a r :
  digits n s = Some (a, r) ->
  s = a ++ r /\ List.length a = n /\ forallb isDigit a = true.
Proof.
  unfold digits. destruct (n <=? List.length s) eqn:E; [|discriminate].
  destruct (forallb isDigit (firstn n s)) eqn:D; [|discriminate].
  cbn [andb]. intros H; injection H as <- <-. apply Nat.leb_le in E.
  repeat split; [symmetry; apply firstn_skipn | | exact D].
  rewrite length_firstn. lia.
Qed.

Lemma digits_app a r :
  forallb isDigit a = true -> digits (List.length a) (a ++ r) = Some (a, r).
Proof.
  intros H. unfold digits. rewrite length_app.
  replace (List.length a <=? List.length a + List.length r) with true
    by (symmetry; apply Nat.leb_le; lia).
  rewrite firstn_app, Nat.sub_diag, firstn_all, firstn_O, app_nil_r, H.
  rewrite skipn_app, Nat.sub_diag, skipn_all. reflexivity.
Qed.

Lemma match334_spec s a b c :
  match334 s = Some (a, b, c) ->
  s = a ++ b ++ c /\ List.length a = 3 /\ List.length b = 3 /\ List.length c = 4
  /\ forallb isDigit s = true.
Proof.
  unfold match334.
  destruct (digits 3 s) as [[a' r1]|] eqn:E1; [|discriminate].
  destruct (digits 3 r1) as [[b' r2]|] eqn:E2; [|discriminate].
  destruct (digits 4 r2) as [[c' [|x r3]]|] eqn:E3; try discriminate.
  intros H; injection H as <- <- <-.
  apply digits_spec in E1 as [-> [La Da]]. apply digits_spec in E2 as [-> [Lb Db]].
  apply digits_spec in E3 as [-> [Lc Dc]]. rewrite app_nil_r.
  repeat split; try assumption. rewrite !forallb_app, Da, Db, Dc. reflexivity.
Qed.

Lemma match334_digits s :
  forallb isDigit s = true -> List.length s = 10 ->
  match334 s = Some (firstn 3 s, firstn 3 (skipn 3 s), skipn 6 s).
Proof.
  intros D L. do 10 (destruct s as [|? s]; [discriminate L|]).
  destruct s; [|discriminate L]. cbn [forallb] in D.
  repeat (apply andb_true_iff in D as [? D]).
  unfold match334, digits. cbn.
  repeat (match goal with H : isDigit _ = true |- _ => rewrite H end; cbn).
  reflexivity.
Qed.

Lemma match34_spec s a b :
  match34 s = Some (a, b) -> s = a ++ b.
Proof.
  unfold match34.
  destruct (digits 3 s) as [[a' r1]|] eqn:E1; [|discriminate].
  destruct (digits 4 r1) as [[b' [|x r2]]|] eqn:E2; try discriminate.
  intros H; injection H as <- <-.
  apply digits_spec in E1 as [-> _]. apply digits_spec in E2 as [-> _].
  rewrite app_nil_r. reflexivity.
Qed.

Lemma match34_digits s :
  forallb isDigit s = true -> List.length s = 7 -> match34 s <> None.
Proof.
  intros D L. do 7 (destruct s as [|? s]; [discriminate L|]).
  destruct s; [|discriminate L]. cbn [forallb] in D.
  repeat (apply andb_true_iff in D as [? D]).
  unfold match34, digits. cbn.
  repeat (match goal with H : isDigit _ = true |- _ => rewrite H end; cbn).
  discriminate.
Qed.

Lemma match56_spec s a b :
  match56 s = Some (a, b) -> s = a ++ b.
Proof.
  unfold match56.
  destruct (digits 5 s) as [[a' r1]|] eqn:E1; [|discriminate].
  destruct (digits 6 r1) as [[b' [|x r2]]|] eqn:E2; try discriminate.
  intros H; injection H as <- <-.
  apply digits_spec in E1 as [-> _]. apply digits_spec in E2 as [-> _].
  rewrite app_nil_r. reflexivity.
Qed.

Lemma startsWith_app p s : startsWith p s = true -> s = p ++ skipn (List.length p) s.
Proof.
  revert s; induction p as [|x p IH]; intros [|y s]; simpl; try reflexivity;
    try discriminate.
  intros H. apply andb_true_iff in H as [E H]. apply N.eqb_eq in E. subst y.
  f_equal. apply IH. exact H.
Qed.

Lemma matchLondon_spec s a b c :
  matchLondon s = Some (a, b, c) ->
  s = a ++ b ++ c /\ a = str "020" /\ List.length b = 4 /\ List.length c = 4.
Proof.
  unfold matchLondon. destruct (startsWith (str "020") s) eqn:E0; [|discriminate].
  destruct (digits 4 (skipn 3 s)) as [[b' r1]|] eqn:E1; [|discriminate].
  destruct (digits 4 r1) as [[c' [|x r2]]|] eqn:E2; try discriminate.
  intros H; injection H as <- <- <-.
  apply startsWith_app in E0. change (List.length (str "020")) with 3 in E0.
  apply digits_spec in E1 as [E1 [Lb _]]. apply digits_spec in E2 as [-> [Lc _]].
  rewrite app_nil_r in E1. rewrite <- E1. repeat split; assumption.
Qed.

Lemma digitsOf_withExtension formatted ext :
  filter isDigit (withExtension formatted ext) = filter isDigit formatted ++ filter isDigit ext.
Proof.
  unfold withExtension. destruct ext as [|c ext]; cbn [truthyStr].
  - cbn [filter]. rewrite app_nil_r. reflexivity.
  - rewrite !filter_app. reflexivity.
Qed.

(** X24.  [formatUSPhone] only adds punctuation: the digits of its result
    are those of [cleaned] followed by those of the extension, after those
    of the country code or of the default country code if one was put in
    front.  None is put in front when [includeCountryCode] is off, nor for
    a number of seven digits. *)
Theorem formatUSPhone_keeps_digits (cleaned countryCode extension : jsstring)
    (includeCountryCode : bool) (defaultCountryCode : jsstring) :
  exists prefix,
    In prefix [[]; countryCode; defaultCountryCode]
    /\ (includeCountryCode = false
        \/ (List.length cleaned = 7 /\ forallb isDigit cleaned = true) -> prefix = [])
    /\ filter isDigit (formatUSPhone cleaned countryCode extension includeCountryCode
                   defaultCountryCode)
       = filter isDigit prefix ++ filter isDigit cleaned ++ filter isDigit extension.
Proof.
  unfold formatUSPhone.
  destruct (List.length cleaned =? 10) eqn:L10.
  - apply Nat.eqb_eq in L10.
    destruct (match334 cleaned) as [[[a b] c]|] eqn:M.
    + apply match334_spec in M as [-> _]. cbv zeta.
      destruct includeCountryCode.
      * exists (orStr countryCode defaultCountryCode). split; [|split].
        -- unfold orStr. destruct (truthyStr countryCode); simpl; auto.
        -- intros [H|[H _]]; [discriminate | lia].
        -- rewrite digitsOf_withExtension, !filter_app. cbn [str filter].
           rewrite <- !app_assoc. reflexivity.
      * exists []. split; [left; reflexivity | split; [reflexivity|]].
        rewrite digitsOf_withExtension, !filter_app. cbn [str filter].
        rewrite <- !app_assoc. reflexivity.
    + replace (List.length cleaned =? 7) with false by (symmetry; apply Nat.eqb_neq; lia).
      cbv zeta. destruct (truthyStr countryCode && includeCountryCode) eqn:T.
      * exists countryCode. split; [right; left; reflexivity | split].
        -- apply andb_true_iff in T as [_ ->]. intros [H|[H _]]; [discriminate | lia].
        -- rewrite digitsOf_withExtension, !filter_app. cbn [str filter].
           rewrite <- !app_assoc. reflexivity.
      * exists []. split; [left; reflexivity | split; [reflexivity|]].
        rewrite digitsOf_withExtension. reflexivity.
  - destruct (List.length cleaned =? 7) eqn:L7.
    + apply Nat.eqb_eq in L7. destruct (match34 cleaned) as [[a b]|] eqn:M.
      * apply match34_spec in M. subst cleaned.
        exists []. split; [left; reflexivity | split; [reflexivity|]].
        rewrite digitsOf_withExtension, !filter_app. cbn [str filter].
        rewrite <- !app_assoc. reflexivity.
      * cbv zeta. destruct (truthyStr countryCode && includeCountryCode) eqn:T.
        -- exists countryCode. split; [right; left; reflexivity | split].
           ++ apply andb_true_iff in T as [_ ->]. intros [H|[_ H]]; [discriminate|].
              exfalso. exact (match34_digits cleaned H L7 M).
           ++ rewrite digitsOf_withExtension, !filter_app. cbn [str filter].
              rewrite <- !app_assoc. reflexivity.
        -- exists []. split; [left; reflexivity | split; [reflexivity|]].
           rewrite digitsOf_withExtension. reflexivity.
    + apply Nat.eqb_neq in L7.
      cbv zeta. destruct (truthyStr countryCode && includeCountryCode) eqn:T.
      * exists countryCode. split; [right; left; reflexivity | split].
        -- apply andb_true_iff in T as [_ ->]. intros [H|[H _]]; [discriminate | lia].
        -- rewrite digitsOf_withExtension, !filter_app. cbn [str filter].
           rewrite <- !app_assoc. reflexivity.
      * exists []. split; [left; reflexivity | split; [reflexivity|]].
        rewrite digitsOf_withExtension. reflexivity.
Qed.

Lemma digitsOf_fallback (cleaned countryCode extension : jsstring) (b : bool) :
  filter isDigit
    (withExtension
       (if truthyStr countryCode && b then countryCode ++ str " " ++ cleaned else cleaned)
       extension)
  = filter isDigit (if truthyStr countryCode && b then countryCode else [])
    ++ filter isDigit cleaned ++ filter isDigit extension.
Proof.
  rewrite digitsOf_withExtension. destruct (truthyStr countryCode && b).
  - rewrite !filter_app. cbn [str filter]. rewrite <- !app_assoc. reflexivity.
  - reflexivity.
Qed.

(** X25.  [formatUKPhone] gives a London number the same form whether or
    not it comes with its leading zero: '020 dddd dddd', and when the
    country code is wanted, the given one or else '+44', then
    ' 20 dddd dddd', the zero dropped. *)
Theorem formatUKPhone_london (d countryCode extension : jsstring)
    (includeCountryCode : bool) :
  List.length d = 8 -> forallb isDigit d = true ->
  formatUKPhone (str "20" ++ d) countryCode extension includeCountryCode
  = formatUKPhone (str "020" ++ d) countryCode extension includeCountryCode
  /\ formatUKPhone (str "020" ++ d) countryCode extension includeCountryCode
     = withExtension
         ((if includeCountryCode
           then orStr countryCode (str "+44") ++ str " 20 "
           else str "020 ")
          ++ firstn 4 d ++ str " " ++ skipn 4 d)
         extension.
Proof.
  intros L D. do 8 (destruct d as [|? d]; [discriminate L|]).
  destruct d; [|discriminate L]. cbn [forallb] in D.
  repeat (apply andb_true_iff in D as [? D]).
  unfold formatUKPhone, match56, matchLondon, digits. cbn.
  repeat (match goal with H : isDigit _ = true |- _ => rewrite H end; cbn).
  split; [reflexivity|]. destruct includeCountryCode; [|reflexivity].
  rewrite <- app_assoc. reflexivity.
Qed.

Lemma formatUKPhone_london_witness :
  formatUKPhone (str "2079460958") [] [] true = formatUKPhone (str "02079460958") [] [] true
  /\ formatUKPhone (str "02079460958") [] [] true
     = withExtension
         ((if true then orStr [] (str "+44") ++ str " 20 " else str "020 ")
          ++ firstn 4 (str "79460958") ++ str " " ++ skipn 4 (str "79460958"))
         [].
Proof.
  apply (@formatUKPhone_london (str "79460958") [] [] true); reflexivity.
Defined.

(** X26.  Without the country code, [formatUKPhone] only adds punctuation
    to the digits of [cleaned] and of the extension, but for one case: a
    London number of ten characters that starts with '20' is given the
    leading zero it lacks. *)
Theorem formatUKPhone_keeps_digits (cleaned countryCode extension : jsstring) :
  filter isDigit (formatUKPhone cleaned countryCode extension false)
  = filter isDigit cleaned ++ filter isDigit extension
  \/ (startsWith (str "20") cleaned = true /\ List.length cleaned = 10
      /\ filter isDigit (formatUKPhone cleaned countryCode extension false)
         = 48%N :: filter isDigit cleaned ++ filter isDigit extension).
Proof.
  unfold formatUKPhone.
  destruct (if (List.length cleaned =? 11) && startsWith (str "07") cleaned
            then match56 cleaned else None) as [[a b]|] eqn:M1.
  { left. destruct ((List.length cleaned =? 11) && startsWith (str "07") cleaned);
      [|discriminate].
    apply match56_spec in M1. subst cleaned. cbv zeta.
    rewrite digitsOf_withExtension, !filter_app. cbn [str filter].
    rewrite <- !app_assoc. reflexivity. }
  clear M1.
  match goal with
  | |- context [match ?m with Some _ => _ | None => _ end] => destruct m as [[[a b] c]|] eqn:M2
  end.
  2:{ left. cbv zeta. rewrite andb_false_r. apply digitsOf_withExtension. }
  destruct ((10 <=? List.length cleaned) && (List.length cleaned <=? 11)); [|discriminate].
  destruct (startsWith (str "020") cleaned) eqn:S0.
  - left. cbn [orb] in M2. cbv zeta in M2. apply matchLondon_spec in M2 as [-> [-> _]].
    cbv zeta. rewrite digitsOf_withExtension, !filter_app. cbn [str filter].
    rewrite <- !app_assoc. reflexivity.
  - right. cbn [orb] in M2. destruct (startsWith (str "20") cleaned) eqn:S1; [|discriminate].
    cbv zeta in M2. apply matchLondon_spec in M2 as [E [-> [Lb Lc]]].
    assert (Ec : cleaned = str "20" ++ b ++ c) by (injection E as E; exact E).
    split; [reflexivity|]. split.
    { rewrite Ec, !length_app, Lb, Lc. reflexivity. }
    cbv zeta. rewrite Ec, digitsOf_withExtension, !filter_app. cbn [str filter].
    rewrite <- !app_assoc. reflexivity.
Qed.

Lemma grouping_complete fuel : forall s,
  List.length s <= fuel ->
  exists groups,
    grouping fuel s = Some groups /\ List.concat groups = s
    /\ Forall (fun g => 1 <= List.length g <= 4) groups.
Proof.
  induction fuel as [|fuel IH]; intros s L.
  - destruct s; [|simpl in L; lia]. exists []. repeat split. constructor.
  - destruct s as [|c s]; [exists []; repeat split; constructor|].
    cbn [grouping]. cbv zeta.
    set (r := c :: s) in *.
    set (g := if 7 <? List.length r then 3 else Nat.min 4 (List.length r)).
    assert (Hg : 1 <= g <= 4 /\ g <= List.length r).
    { subst g. assert (1 <= List.length r) by (subst r; simpl; lia).
      destruct (7 <? List.length r) eqn:E; [apply Nat.ltb_lt in E|]; lia. }
    destruct (IH (skipn g r)) as [groups [E [Hc Hf]]].
    { rewrite length_skipn. lia. }
    exists (firstn g r :: groups). rewrite E. cbn [option_map List.concat].
    split; [reflexivity|]. split; [rewrite Hc; apply firstn_skipn|].
    constructor; [|exact Hf]. rewrite length_firstn. lia.
Qed.

(** X27.  Given at least as many iterations as [cleaned] has characters,
    the loop of [formatInternationalPhone] ends, and the function returns
    [cleaned] cut into groups of one to four characters and joined by
    spaces, after the country code if it is wanted and there is one, before
    the extension if there is one. *)
Theorem formatInternationalPhone_groups (fuel : nat)
    (cleaned countryCode extension : jsstring) (includeCountryCode : bool) :
  List.length cleaned <= fuel ->
  exists groups,
    List.concat groups = cleaned
    /\ Forall (fun g => 1 <= List.length g <= 4) groups
    /\ formatInternationalPhone fuel cleaned countryCode extension includeCountryCode
       = Some (withExtension
                 ((if includeCountryCode && truthyStr countryCode
                   then countryCode ++ str " " else [])
                  ++ join 32%N groups)
                 extension).
Proof.
  intros L. unfold formatInternationalPhone. cbv zeta.
  destruct (4 <? List.length cleaned) eqn:E.
  - destruct (@grouping_complete fuel cleaned L) as [groups [Hg [Hc Hf]]].
    exists groups. split; [exact Hc | split; [exact Hf|]].
    rewrite Hg. cbn [option_map].
    destruct (includeCountryCode && truthyStr countryCode); [|reflexivity].
    rewrite <- !app_assoc. reflexivity.
  - apply Nat.ltb_ge in E. destruct cleaned as [|c s].
    + exists []. split; [reflexivity | split; [constructor|]]. cbn [join].
      destruct (includeCountryCode && truthyStr countryCode); [|reflexivity].
      rewrite <- !app_assoc. reflexivity.
    + exists [c :: s]. split; [cbn [List.concat]; apply app_nil_r|].
      split; [constructor; [simpl in *; lia | constructor]|]. cbn [join].
      destruct (includeCountryCode && truthyStr countryCode); [|reflexivity].
      rewrite <- !app_assoc. reflexivity.
Qed.

Lemma formatInternationalPhone_groups_witness :
  exists groups,
    List.concat groups = str "4915123456789"
    /\ Forall (fun g => 1 <= List.length g <= 4) groups
    /\ formatInternationalPhone 13 (str "4915123456789") (str "+49") (str "12") true
       = Some (withExtension
                 ((if true && truthyStr (str "+49") then str "+49" ++ str " " else [])
                  ++ join 32%N groups)
                 (str "12")).
Proof.
  apply (@formatInternationalPhone_groups 13 (str "4915123456789") (str "+49") (str "12") true).
  apply Nat.le_refl.
Defined.

(** The groups are not always of three or four digits. *)
Example formatInternationalPhone_short_group :
  formatInternationalPhone 5 (str "12345") [] [] false = Some (str "1234 5").
Proof. reflexivity. Qed.

Lemma removeNonDigits phone :
  removeClass (fun c => negb (isDigit c)) phone = filter isDigit phone.
Proof.
  unfold removeClass. apply filter_ext. intros c. apply negb_involutive.
Qed.

Lemma forallb_filter (p : char -> bool) s : forallb p (filter p s) = true.
Proof.
  induction s as [|c s IH]; [reflexivity|]. simpl.
  destruct (p c) eqn:E; [simpl; rewrite E; exact IH | exact IH].
Qed.

(** X28.  The first [formatPhoneNumber] returns exactly when its argument
    holds ten digits, whatever stands between them, and throws a
    [TypeError] otherwise; what it returns has fourteen characters, and
    the digits of the argument in their order. *)
Theorem formatPhoneNumber_returns_iff (phone : jsstring) :
  ((exists r, formatPhoneNumber phone = Return r)
   <-> List.length (filter isDigit phone) = 10)
  /\ (forall r, formatPhoneNumber phone = Return r ->
        List.length r = 14 /\ filter isDigit r = filter isDigit phone)
  /\ (List.length (filter isDigit phone) <> 10 -> formatPhoneNumber phone = ThrowTypeError).
Proof.
  unfold formatPhoneNumber. cbv zeta. rewrite removeNonDigits.
  destruct (match334 (filter isDigit phone)) as [[[a b] c]|] eqn:M.
  - pose proof (match334_spec _ M) as [E [La [Lb [Lc D]]]].
    assert (L : List.length (filter isDigit phone) = 10)
      by (rewrite E, !length_app; lia).
    split; [split; [intros _; exact L | intros _; eauto]|].
    split; [|intros H; contradiction].
    intros r H; injection H as <-. split.
    + change (List.length (str "(" ++ a ++ str ") " ++ b ++ str "-" ++ c) = 14).
      rewrite !length_app, La, Lb, Lc. reflexivity.
    + change (filter isDigit (str "(" ++ a ++ str ") " ++ b ++ str "-" ++ c)
              = filter isDigit phone).
      rewrite E in D. rewrite !forallb_app in D.
      apply andb_true_iff in D as [Da D]. apply andb_true_iff in D as [Db Dc].
      rewrite !filter_app. cbn [str filter]. rewrite E.
      assert (Hid : forall x, forallb isDigit x = true -> filter isDigit x = x).
      { induction x as [|y x IH]; [reflexivity|]. simpl. intros Hx.
        apply andb_true_iff in Hx as [Hy Hx]. rewrite Hy, (IH Hx). reflexivity. }
      rewrite (Hid a Da), (Hid b Db), (Hid c Dc). reflexivity.
  - split; [|split; [intros r H; discriminate | reflexivity]].
    split; [intros [r H]; discriminate|]. intros L. exfalso.
    rewrite (@match334_digits _ (forallb_filter isDigit phone) L) in M. discriminate.
Qed.

End PhoneFacts.
